(** * Webhook notification subsystem: a shallow embedding and its properties

    The embedding follows the Go sources of the [middlewares] package:
    - [webhook_config.go]: definitions, registry, loader, per-job constructor;
    - [webhook_template.go]: template helpers and body rendering;
    - [webhook.go]: the global dispatcher and the delivery engine;
    - [webhook_perjob.go]: the per-job dispatcher.

    Go values are modelled as follows.  [int] and [time.Duration] are 64-bit
    signed integers: they are carried as [Z] and every arithmetic operation
    that can leave the range is wrapped with [wrap64].  A Go [string] is a
    sequence of bytes, carried as a Rocq [string].  A nilable [error] is an
    [option error]; a pair [(T, error)] is a [result T].  Maps keyed by strings
    are [gmap string _].  Logging, [go] statements, sleeping and HTTP requests
    are recorded as events of a trace. *)

From Stdlib Require Import ZArith Lia String Ascii List Sorting.Sorted.
From stdpp Require Import base option list sorting strings gmap fin_maps.

#[local] Set Warnings "-register-all".

Local Open Scope string_scope.
Local Open Scope Z_scope.

(** ** Machine integers *)

Definition int64_min : Z := - 2 ^ 63.
Definition int64_max : Z := 2 ^ 63 - 1.

(** Two's complement wrap-around of a 64-bit signed integer. *)
Definition wrap64 (z : Z) : Z := (z + 2 ^ 63) mod 2 ^ 64 - 2 ^ 63.

Definition in_int64 (z : Z) : Prop := int64_min <= z <= int64_max.

(** [len(s)] of a Go string: its number of bytes. *)
Definition len (s : string) : Z := Z.of_nat (String.length s).

(** The slice expression [s[:hi]].  Go panics when [hi] is negative or
    exceeds [len(s)]; a panic is [None]. *)
Definition slice_to (s : string) (hi : Z) : option string :=
  if (hi <? 0) || (len s <? hi) then None
  else Some (substring 0 (Z.to_nat hi) s).

(** ** Errors *)

(** One constructor per [fmt.Errorf] site of the package; [External] stands
    for an error value produced outside of it (the job pipeline, the standard
    library). *)
Inductive error : Type :=
| External (msg : string)
| ErrInvalidRetryBackoff (backoff : string) (cause : error)
| ErrCreateRequest (cause : error)
| ErrRequestFailed (cause : error)
| ErrNon2xx (status : Z) (body : string)
| ErrInvalidWebhookType (webhookType : string)
| ErrReadFile (cause : error)
| ErrParseJSON (cause : error)
| ErrMissingURL (index : Z)
| ErrMissingType (name : string)
| ErrInvalidType (name : string) (cause : error)
| ErrUnknownErrorWebhook (name : string)
| ErrErrorNamesType (name webhookType : string)
| ErrUnknownInfoWebhook (name : string)
| ErrInfoNamesType (name webhookType : string)
| ErrTemplateParse (cause : error)
| ErrTemplateExecution (cause : error)
| ErrMarshalBody (cause : error)
| ErrInvalidJSONResult (cause : error)
| ErrUnsupportedBodyType.

Inductive result (A : Type) : Type :=
| Ok (a : A)
| Err (e : error).
Arguments Ok {A} a.
Arguments Err {A} e.

Definition is_err {A} (r : result A) : bool :=
  match r with Ok _ => false | Err _ => true end.

(** ** Data model ([webhook_config.go]) *)

(** A value decoded by [encoding/json] into an [interface{}]: [nil], [bool],
    [float64] (kept as its literal), [string], [[]interface{}] or
    [map[string]interface{}] (kept as its key/value entries). *)
Inductive json_value : Type :=
| JNull
| JBool (b : bool)
| JNumber (literal : string)
| JString (s : string)
| JArray (items : list json_value)
| JObject (members : list (string * json_value)).

Definition WebhookTypeError : string := "error".
Definition WebhookTypeInfo : string := "info".
Definition WebhookTypeAll : string := "all".

Definition defaultWebhookConfigPath : string := "/etc/config/middlewares.json".
(** [time.Duration] values, in nanoseconds. *)
Definition time_Second : Z := 1000000000.
Definition defaultTimeout : Z := 10 * time_Second.
Definition defaultRetryCount : Z := 0.
Definition defaultRetryBackoff : Z := 1 * time_Second.

Record RetryConfig : Type := {
  Count : Z;
  Backoff : string
}.

(** [Headers] is [None] for a nil map; [Body] is [JNull] for a nil interface;
    [Retry] is [None] for a nil pointer. *)
Record WebhookDefinition : Type := {
  Name : string;
  Type_ : string;
  Active : bool;
  Priority : Z;
  URL : string;
  Method : string;
  Headers : option (gmap string string);
  Body : json_value;
  OnlyOnError : bool;
  Timeout : Z;
  Retry : option RetryConfig
}.

Record WebhooksFile : Type := {
  Webhooks : list WebhookDefinition
}.

Record WebhookFileConfig : Type := {
  WebhookConfigFile : string
}.

Record WebhookConfig : Type := {
  WebhookErrorNames : string;
  WebhookInfoNames : string
}.

(** [WebhookRegistry]: the map from names to definitions.  [Register] stores
    a pointer to its own copy of the definition, and nothing writes through
    the stored pointers, so the map holds the definitions by value. *)
Record WebhookRegistry : Type := {
  webhooks : gmap string WebhookDefinition
}.

Definition NewWebhookRegistry : WebhookRegistry := {| webhooks := ∅ |}.

Definition Register (r : WebhookRegistry) (def : WebhookDefinition) : WebhookRegistry :=
  {| webhooks := <[Name def := def]> (webhooks r) |}.

Definition Get (r : WebhookRegistry) (name : string) : option WebhookDefinition :=
  webhooks r !! name.

(** ** The middlewares *)

Record Webhook : Type := {
  name : string;
  webhookType : string;
  active : bool;
  url : string;
  method : string;
  headers : option (gmap string string);
  body : json_value;
  onlyOnError : bool;
  timeout : Z;
  retryCount : Z;
  retryBackoff : Z
}.

Record PerJobWebhook : Type := {
  errorWebhooks : list WebhookDefinition;
  infoWebhooks : list WebhookDefinition
}.

(** A [core.Middleware] built by this package. *)
Inductive Middleware : Type :=
| GlobalMiddleware (w : Webhook)
| PerJobMiddleware (p : PerJobWebhook).

(** ** What the package takes from outside

    The job pipeline ([core.Context] with [Next], [Stop] and the execution
    record), the standard library ([text/template], [encoding/json], [time],
    [os], [strings], [net/http]) and the helper [IsEmpty] are not part of these
    sources.  Their behaviour is a parameter of the embedding. *)

Inductive HTTPOutcome : Type :=
| TransportError (e : error)
| Response (StatusCode : Z) (responseBody : string).

Record HTTPRequest : Type := {
  req_method : string;
  req_url : string;
  req_headers : gmap string string;
  req_body : option string
}.

Class Runtime : Type := {
  (** package [core] *)
  core_Context : Type;
  ctx_Next : core_Context -> option error * core_Context;
  ctx_Stop : option error -> core_Context -> core_Context;
  Execution_Failed : core_Context -> bool;
  (** the execution snapshot given to templates *)
  WebhookTemplateData : Type;
  buildTemplateData : core_Context -> WebhookTemplateData;
  (** [text/template], with [webhookFuncMap] installed *)
  Template : Type;
  template_Parse : string -> result Template;
  template_Execute : Template -> WebhookTemplateData -> result string;
  (** [encoding/json] *)
  json_Marshal : json_value -> result string;
  json_Unmarshal_any : string -> result json_value;
  json_Unmarshal_WebhooksFile : string -> result WebhooksFile;
  json_Unmarshal_strings : string -> result (list string);
  (** [time.ParseDuration], in nanoseconds *)
  time_ParseDuration : string -> result Z;
  (** [os] *)
  os_Getenv : string -> string;
  os_Stat_IsNotExist : string -> bool;
  os_ReadFile : string -> result string;
  (** [strings] *)
  strings_Split : string -> string -> list string;
  strings_TrimSpace : string -> string;
  (** [net/http]: [http.NewRequest] and the outcome of the [n]-th call of
      [client.Do] *)
  http_NewRequest : string -> string -> option error;
  http_Do : nat -> HTTPRequest -> HTTPOutcome;
  (** the pseudo-random index drawn by [sort.Slice] for a range of a given
      length ([xorshift] seeded with that length, [k]-th draw) *)
  sort_random : nat -> nat -> nat
}.

(** ** [sort.Slice] of the Go standard library

    [LoadWebhookMiddlewares] orders the definitions with [sort.Slice], which
    the standard library (Go 1.19 and later) implements as the
    pattern-defeating quicksort [pdqsort_func] of [sort/zsortfunc.go] over the
    two operations [Less(i, j)] and [Swap(i, j)] on the slice.  The functions
    below follow that file one by one.  Indices are natural numbers: all of
    them stay inside the range being sorted.  Loops whose number of rounds is
    bounded by the distance between two indices recurse on that distance. *)
Module GoSort.
Section Sort.
Local Open Scope nat_scope.
Context {A : Type} (less : A -> A -> bool) (random : nat -> nat -> nat).

Definition Less (data : list A) (i j : nat) : bool :=
  match data !! i, data !! j with
  | Some x, Some y => less x y
  | _, _ => false
  end.

Definition Swap (data : list A) (i j : nat) : list A :=
  match data !! i, data !! j with
  | Some x, Some y => <[i := y]> (<[j := x]> data)
  | _, _ => data
  end.

(** [for j := i; j > a && data.Less(j, j-1); j-- { data.Swap(j, j-1) }],
    with [n = j - a] rounds left. *)
Fixpoint insertion_shift (n : nat) (data : list A) (j : nat) : list A :=
  match n with
  | O => data
  | S n' =>
      if Less data j (j - 1)
      then insertion_shift n' (Swap data j (j - 1)) (j - 1)
      else data
  end.

(** [for i := ...; i < b; i++ { ... }], with [n = b - i] rounds left. *)
Fixpoint insertion_rounds (n : nat) (data : list A) (a i : nat) : list A :=
  match n with
  | O => data
  | S n' => insertion_rounds n' (insertion_shift (i - a) data i) a (S i)
  end.

Definition insertionSort_func (data : list A) (a b : nat) : list A :=
  insertion_rounds (b - (a + 1)) data a (a + 1).

(** The loop of [siftDown_func]; [root] grows in every round, [n = hi - root]. *)
Fixpoint siftDown_loop (n : nat) (data : list A) (root hi first : nat) : list A :=
  match n with
  | O => data
  | S n' =>
      let child := 2 * root + 1 in
      if hi <=? child then data
      else
        let child :=
          if (child + 1 <? hi) && Less data (first + child) (first + child + 1)
          then child + 1 else child in
        if negb (Less data (first + root) (first + child)) then data
        else siftDown_loop n' (Swap data (first + root) (first + child)) child hi first
  end.

Definition siftDown_func (data : list A) (lo hi first : nat) : list A :=
  siftDown_loop (hi - lo) data lo hi first.

Definition heapSort_func (data : list A) (a b : nat) : list A :=
  let first := a in
  let lo := 0 in
  let hi := b - a in
  (* for i := (hi - 1) / 2; i >= 0; i-- *)
  let data :=
    foldl (fun d i => siftDown_func d i hi first) data
          (rev (seq 0 ((hi - 1) / 2 + 1))) in
  (* for i := hi - 1; i >= 0; i-- *)
  foldl (fun d i => siftDown_func (Swap d first (first + i)) lo i first) data
        (rev (seq 0 hi)).

(** [bits.Len(uint(n))]. *)
Definition bits_Len (n : nat) : nat :=
  match n with O => O | _ => S (Nat.log2 n) end.

Definition nextPowerOfTwo (length : nat) : nat := 2 ^ bits_Len length.

(** The three elements at [idx - 1], [idx] and [idx + 1], where [idx] is
    [a + (length/4)*2], are swapped with elements drawn at random. *)
Definition breakPatterns_func (data : list A) (a b : nat) : list A :=
  let length := b - a in
  if 8 <=? length then
    let modulus := nextPowerOfTwo length in
    let idx := a + (length / 4) * 2 in
    foldl (fun d i =>
             let other := random length i mod modulus in
             let other := if length <=? other then other - length else other in
             Swap d (idx - 1 + i) (a + other))
          data (seq 0 3)
  else data.

Inductive sortedHint : Type := unknownHint | increasingHint | decreasingHint.

(** [order2_func], [median_func], [medianAdjacent_func]: the counter
    [swaps] is threaded through. *)
Definition order2_func (data : list A) (a b swaps : nat) : nat * nat * nat :=
  if Less data b a then (b, a, S swaps) else (a, b, swaps).

Definition median_func (data : list A) (a b c swaps : nat) : nat * nat :=
  let '(a, b, swaps) := order2_func data a b swaps in
  let '(b, c, swaps) := order2_func data b c swaps in
  let '(a, b, swaps) := order2_func data a b swaps in
  (b, swaps).

Definition medianAdjacent_func (data : list A) (a swaps : nat) : nat * nat :=
  median_func data (a - 1) a (a + 1) swaps.

Definition shortestNinther : nat := 50.
Definition maxSwaps : nat := 4 * 3.

Definition choosePivot_func (data : list A) (a b : nat) : nat * sortedHint :=
  let l := b - a in
  let swaps := 0 in
  let i := a + l / 4 * 1 in
  let j := a + l / 4 * 2 in
  let k := a + l / 4 * 3 in
  let '(j, swaps) :=
    if 8 <=? l then
      let '(i, j, k, swaps) :=
        if shortestNinther <=? l then
          let '(i, swaps) := medianAdjacent_func data i swaps in
          let '(j, swaps) := medianAdjacent_func data j swaps in
          let '(k, swaps) := medianAdjacent_func data k swaps in
          (i, j, k, swaps)
        else (i, j, k, swaps) in
      median_func data i j k swaps
    else (j, swaps) in
  if swaps =? 0 then (j, increasingHint)
  else if swaps =? maxSwaps then (j, decreasingHint)
  else (j, unknownHint).

(** [for i < j { data.Swap(i, j); i++; j-- }], [n] rounds. *)
Fixpoint reverseRange_loop (n : nat) (data : list A) (i j : nat) : list A :=
  match n with
  | O => data
  | S n' => if i <? j then reverseRange_loop n' (Swap data i j) (S i) (j - 1) else data
  end.

Definition reverseRange_func (data : list A) (a b : nat) : list A :=
  reverseRange_loop ((b - a) / 2) data a (b - 1).

(** [for i < b && !data.Less(i, i-1) { i++ }], with [n = b - i]. *)
Fixpoint skip_ordered (n : nat) (data : list A) (i : nat) : nat :=
  match n with
  | O => i
  | S n' => if negb (Less data i (i - 1)) then skip_ordered n' data (S i) else i
  end.

(** [for j := i - 1; j >= 1; j-- { if !data.Less(j, j-1) { break }; data.Swap(j, j-1) }],
    with [n = j] rounds left. *)
Fixpoint shift_left (n : nat) (data : list A) (j : nat) : list A :=
  match n with
  | O => data
  | S n' =>
      if negb (Less data j (j - 1)) then data
      else shift_left n' (Swap data j (j - 1)) (j - 1)
  end.

(** [for j := i + 1; j < b; j++ { if !data.Less(j, j-1) { break }; data.Swap(j, j-1) }],
    with [n = b - j] rounds left. *)
Fixpoint shift_right (n : nat) (data : list A) (j : nat) : list A :=
  match n with
  | O => data
  | S n' =>
      if negb (Less data j (j - 1)) then data
      else shift_right n' (Swap data j (j - 1)) (S j)
  end.

Definition maxSteps : nat := 5.
Definition shortestShifting : nat := 50.

(** The outer loop [for j := 0; j < maxSteps; j++] of
    [partialInsertionSort_func], [steps] rounds left. *)
Fixpoint partialInsertionSort_loop (steps : nat) (data : list A) (a b i : nat)
  : list A * bool :=
  match steps with
  | O => (data, false)
  | S steps' =>
      let i := skip_ordered (b - i) data i in
      if i =? b then (data, true)
      else if b - a <? shortestShifting then (data, false)
      else
        let data := Swap data i (i - 1) in
        let data := if 2 <=? i - a then shift_left (i - 1) data (i - 1) else data in
        let data := if 2 <=? b - i then shift_right (b - (i + 1)) data (i + 1) else data in
        partialInsertionSort_loop steps' data a b i
  end.

Definition partialInsertionSort_func (data : list A) (a b : nat) : list A * bool :=
  partialInsertionSort_loop maxSteps data a b (a + 1).

(** The two scans of the partition loops.  [scan_up c n data a i] is
    [for i <= j && c(data.Less ...) { i++ }] with [n = j + 1 - i]; the
    condition is given as a function of the current index. *)
Fixpoint scan_up (cond : nat -> bool) (n : nat) (i : nat) : nat :=
  match n with
  | O => i
  | S n' => if cond i then scan_up cond n' (S i) else i
  end.

Fixpoint scan_down (cond : nat -> bool) (n : nat) (j : nat) : nat :=
  match n with
  | O => j
  | S n' => if cond j then scan_down cond n' (j - 1) else j
  end.

(** The loop [for { scan; scan; if i > j { break }; data.Swap(i, j); i++; j-- }]
    shared by [partitionEqual_func] and [partition_func]; the distance
    [j + 1 - i] shrinks in every round and bounds [n]. *)
Fixpoint partition_loop (up down : list A -> nat -> bool) (n : nat)
    (data : list A) (i j : nat) : list A * nat * nat :=
  match n with
  | O => (data, i, j)
  | S n' =>
      let i := scan_up (up data) (j + 1 - i) i in
      let j := scan_down (down data) (j + 1 - i) j in
      if j <? i then (data, i, j)
      else partition_loop up down n' (Swap data i j) (S i) (j - 1)
  end.

Definition partitionEqual_func (data : list A) (a b pivot : nat) : list A * nat :=
  let data := Swap data a pivot in
  let i := a + 1 in
  let j := b - 1 in
  let '(data, i, j) :=
    partition_loop (fun d i => negb (Less d a i)) (fun d j => Less d a j)
                   (S (j + 1 - i)) data i j in
  (data, i).

Definition partition_func (data : list A) (a b pivot : nat) : list A * nat * bool :=
  let data := Swap data a pivot in
  let i := a + 1 in
  let j := b - 1 in
  let i := scan_up (fun i => Less data i a) (j + 1 - i) i in
  let j := scan_down (fun j => negb (Less data j a)) (j + 1 - i) j in
  if j <? i then (Swap data j a, j, true)
  else
    let data := Swap data i j in
    let i := S i in
    let j := j - 1 in
    let '(data, i, j) :=
      partition_loop (fun d i => Less d i a) (fun d j => negb (Less d j a))
                     (S (j + 1 - i)) data i j in
    (Swap data j a, j, false).

Definition maxInsertion : nat := 12.

(** The loop of [pdqsort_func].  Every round either returns or goes on with
    a strictly shorter range, so [fuel] bounds the rounds and the depth of
    the recursive calls; [None] is reached only when the fuel runs out. *)
Fixpoint pdqsort_loop (fuel : nat) (data : list A) (a b limit : nat)
    (wasBalanced wasPartitioned : bool) : option (list A) :=
  let length := b - a in
  if length <=? maxInsertion then Some (insertionSort_func data a b)
  else if limit =? 0 then Some (heapSort_func data a b)
  else
    match fuel with
    | O => None
    | S fuel' =>
        let '(data, limit) :=
          if negb wasBalanced then (breakPatterns_func data a b, limit - 1)
          else (data, limit) in
        let '(pivot, hint) := choosePivot_func data a b in
        let '(data, pivot, hint) :=
          match hint with
          | decreasingHint =>
              (reverseRange_func data a b, (b - 1) - (pivot - a), increasingHint)
          | _ => (data, pivot, hint)
          end in
        let '(data, done) :=
          match hint with
          | increasingHint =>
              if wasBalanced && wasPartitioned
              then partialInsertionSort_func data a b
              else (data, false)
          | _ => (data, false)
          end in
        if done then Some data
        else if (0 <? a) && negb (Less data (a - 1) pivot) then
          let '(data, mid) := partitionEqual_func data a b pivot in
          pdqsort_loop fuel' data mid b limit wasBalanced wasPartitioned
        else
          let '(data, mid, alreadyPartitioned) := partition_func data a b pivot in
          let leftLen := mid - a in
          let rightLen := b - mid in
          let balanceThreshold := length / 8 in
          if leftLen <? rightLen then
            match pdqsort_loop fuel' data a mid limit true true with
            | None => None
            | Some data =>
                pdqsort_loop fuel' data (mid + 1) b limit
                             (balanceThreshold <=? leftLen) alreadyPartitioned
            end
          else
            match pdqsort_loop fuel' data (mid + 1) b limit true true with
            | None => None
            | Some data =>
                pdqsort_loop fuel' data a mid limit
                             (balanceThreshold <=? rightLen) alreadyPartitioned
            end
    end.

Definition pdqsort_func (data : list A) (a b limit : nat) : option (list A) :=
  pdqsort_loop (b - a) data a b limit true true.

(** [sort.Slice(x, less)]: the slice after the call.  [pdqsort_func] always
    returns ([pdqsort_func_returns] below), the default is never used. *)
Definition Slice (x : list A) : list A :=
  let length := List.length x in
  let limit := bits_Len length in
  default x (pdqsort_func x 0 length limit).
End Sort.
End GoSort.

(** ** Effects

    What a function of the package does besides returning: log lines, [go]
    statements, sleeps and HTTP requests, in the order they happen.  [Attempt]
    marks an entry into [sendRequest], whether or not the request can be
    built and sent. *)
Section Package.
Context `{Runtime}.

(** [ctx.Logger], or the logger given when the middleware was built. *)
Inductive Sink : Type := CtxLogger | OwnLogger.

Inductive Level : Type := Debugf | Errorf | Noticef.

(** One constructor per format string, with its arguments. *)
Inductive Message : Type :=
| MsgSkippedInactive (webhook : string)
| MsgSkippedTypeMismatch (webhook webhookType : string) (failed : bool)
| MsgSkippedOnlyOnError (webhook : string)
| MsgURLTemplateFailed (webhook : string) (err : error)
| MsgBodyTemplateFailed (webhook : string) (err : error)
| MsgHeaderTemplateFailed (webhook key : string) (err : error)
| MsgFailedAfterAttempts (webhook : string) (attempts : Z) (err : error)
| MsgSentSuccessfully (webhook url : string)
| MsgRetryAttempt (webhook : string) (attempt count backoff : Z)
| MsgPerJobCreateFailed (webhook : string) (err : error)
| MsgPerJobURLTemplateFailed (webhook : string) (err : error)
| MsgPerJobBodyTemplateFailed (webhook : string) (err : error)
| MsgPerJobHeaderTemplateFailed (webhook key : string) (err : error)
| MsgPerJobFailedAfterRetries (webhook : string) (err : error)
| MsgPerJobSentSuccessfully (webhook url : string)
| MsgConfigFileNotFound (path : string)
| MsgConfigFileParseFailed (path : string) (err : error)
| MsgNoWebhooksDefined (path : string)
| MsgCreateMiddlewareFailed (webhook : string) (err : error)
| MsgLoadedMiddleware (webhook webhookType : string) (active : bool) (priority : Z)
| MsgInactiveWillNotFire (webhook : string).

(** The call of a [go] statement. *)
Inductive Task : Type :=
| GoSendWebhook (w : Webhook) (ctx : core_Context)
| GoPerJobSendWebhook (p : PerJobWebhook) (ctx : core_Context) (def : WebhookDefinition).

Inductive Event : Type :=
| Log (sink : Sink) (level : Level) (msg : Message)
| Go (task : Task)
| Sleep (d : Z)
| Attempt (url : string)
| Do (req : HTTPRequest).

(** [requests] counts the calls of [client.Do] made so far. *)
Record World : Type := {
  trace : list Event;
  requests : nat
}.

Definition start : World := {| trace := []; requests := 0 |}.

Definition Action (A : Type) : Type := World -> A * World.

Definition ret {A} (a : A) : Action A := fun w => (a, w).

Definition bind {A B} (m : Action A) (k : A -> Action B) : Action B :=
  fun w => let '(a, w') := m w in k a w'.

Definition emit (e : Event) : Action unit :=
  fun w => (tt, {| trace := trace w ++ [e]; requests := requests w |}).

Definition logf (sink : Sink) (level : Level) (msg : Message) : Action unit :=
  emit (Log sink level msg).

Definition client_Do (req : HTTPRequest) : Action HTTPOutcome :=
  fun w => (http_Do (requests w) req,
            {| trace := trace w ++ [Do req]; requests := S (requests w) |}).
End Package.

Notation "x <- m ;; k" := (bind m (fun x => k))
  (at level 100, m at next level, right associativity).
Notation "m ;;; k" := (bind m (fun _ => k))
  (at level 100, right associativity).

(** The delivery attempts (entries into [sendRequest]), the sleeps and the
    spawned tasks of a trace. *)
Definition is_Attempt `{Runtime} (e : Event) : bool :=
  match e with Attempt _ => true | _ => false end.

Definition sleep_of `{Runtime} (e : Event) : option Z :=
  match e with Sleep d => Some d | _ => None end.

Definition task_of `{Runtime} (e : Event) : option Task :=
  match e with Go t => Some t | _ => None end.

Definition attempts `{Runtime} (tr : list Event) : nat :=
  List.length (List.filter is_Attempt tr).

Definition sleeps `{Runtime} (tr : list Event) : list Z :=
  omap sleep_of tr.

Definition spawned `{Runtime} (tr : list Event) : list Task :=
  omap task_of tr.

(** ** Template engine ([webhook_template.go]) *)

Definition truncateString (maxLen : Z) (s : string) : option string :=
  if len s <=? maxLen then Some s
  else if maxLen <=? 3 then slice_to s maxLen
  else match slice_to s (maxLen - 3) with
       | Some p => Some (p +:+ "...")
       | None => None
       end.

Definition defaultValue (defaultVal value : string) : string :=
  if String.eqb value "" then defaultVal else value.

Section Template.
Context `{Runtime}.

Definition executeTemplate (templateStr : string) (data : WebhookTemplateData)
  : result string :=
  match template_Parse templateStr with
  | Err err => Err (ErrTemplateParse err)
  | Ok tmpl =>
      match template_Execute tmpl data with
      | Err err => Err (ErrTemplateExecution err)
      | Ok buf => Ok buf
      end
  end.

(** The type switch on [body]: [string]; [map[string]interface{}] or
    [[]interface{}]; anything else. *)
Definition executeTemplateForBody (body : json_value) (data : WebhookTemplateData)
  : result string :=
  match body with
  | JString v =>
      match executeTemplate v data with
      | Err err => Err err
      | Ok result => Ok result
      end
  | JObject _ | JArray _ =>
      match json_Marshal body with
      | Err err => Err (ErrMarshalBody err)
      | Ok jsonBytes =>
          match executeTemplate jsonBytes data with
          | Err err => Err err
          | Ok result =>
              match json_Unmarshal_any result with
              | Err err => Err (ErrInvalidJSONResult err)
              | Ok _ => Ok result
              end
          end
      end
  | _ => Err ErrUnsupportedBodyType
  end.

End Template.

(** ** Global dispatcher and delivery engine ([webhook.go]) *)
Section Dispatch.
Context `{Runtime}.

Definition NewWebhookFromDefinition (def : WebhookDefinition) : result Webhook :=
  let timeout := wrap64 (Timeout def * time_Second) in
  let mk (retryCount retryBackoff : Z) : Webhook :=
    {| name := Name def; webhookType := Type_ def; active := Active def;
       url := URL def; method := Method def; headers := Headers def;
       body := Body def; onlyOnError := OnlyOnError def; timeout := timeout;
       retryCount := retryCount; retryBackoff := retryBackoff |} in
  match Retry def with
  | None => Ok (mk defaultRetryCount defaultRetryBackoff)
  | Some retry =>
      let retryCount := Count retry in
      if String.eqb (Backoff retry) "" then Ok (mk retryCount defaultRetryBackoff)
      else
        match time_ParseDuration (Backoff retry) with
        | Err err => Err (ErrInvalidRetryBackoff (Backoff retry) err)
        | Ok duration => Ok (mk retryCount duration)
        end
  end.

Definition Run (w : Webhook) (ctx : core_Context) : Action (option error) :=
  let '(err, ctx) := ctx_Next ctx in
  let ctx := ctx_Stop err ctx in
  if negb (active w) then
    logf CtxLogger Debugf (MsgSkippedInactive (name w)) ;;;
    ret err
  else
    let shouldSend :=
      if String.eqb (webhookType w) WebhookTypeAll then true
      else if Execution_Failed ctx && String.eqb (webhookType w) WebhookTypeError then true
      else if negb (Execution_Failed ctx) && String.eqb (webhookType w) WebhookTypeInfo then true
      else false in
    if negb shouldSend then
      logf CtxLogger Debugf
           (MsgSkippedTypeMismatch (name w) (webhookType w) (Execution_Failed ctx)) ;;;
      ret err
    else if onlyOnError w && negb (Execution_Failed ctx) then
      logf CtxLogger Debugf (MsgSkippedOnlyOnError (name w)) ;;;
      ret err
    else
      emit (Go (GoSendWebhook w ctx)) ;;;
      ret err.

Definition sendRequest (w : Webhook) (url : string) (headers : gmap string string)
    (body : option string) : Action (option error) :=
  emit (Attempt url) ;;;
  match http_NewRequest (method w) url with
  | Some err => ret (Some (ErrCreateRequest err))
  | None =>
      resp <- client_Do {| req_method := method w; req_url := url;
                           req_headers := headers; req_body := body |} ;;
      match resp with
      | TransportError err => ret (Some (ErrRequestFailed err))
      | Response StatusCode responseBody =>
          if (StatusCode <? 200) || (300 <=? StatusCode)
          then ret (Some (ErrNon2xx StatusCode (substring 0 1024 responseBody)))
          else ret None
      end
  end.

(** The loop of [sendWithRetry].  [attempt] is an [int] and [backoff] a
    [time.Duration]: both wrap around.  [None] means that [fuel] rounds were
    not enough to leave the loop. *)
Fixpoint sendWithRetry_loop (fuel : nat) (w : Webhook) (url : string)
    (headers : gmap string string) (body : option string)
    (attempt backoff : Z) (lastErr : option error) (world : World)
  : option (option error * World) :=
  match fuel with
  | O => None
  | S fuel' =>
      if attempt <=? retryCount w then
        let '(backoff, world) :=
          if 0 <? attempt then
            let '(_, world) :=
              (logf OwnLogger Debugf
                    (MsgRetryAttempt (name w) attempt (retryCount w) backoff) ;;;
               emit (Sleep backoff)) world in
            (wrap64 (backoff * 2), world)
          else (backoff, world) in
        let '(err, world) := sendRequest w url headers body world in
        match err with
        | None => Some (None, world)
        | Some _ =>
            sendWithRetry_loop fuel' w url headers body
                               (wrap64 (attempt + 1)) backoff err world
        end
      else Some (lastErr, world)
  end.

Definition sendWithRetry (fuel : nat) (w : Webhook) (url : string)
    (headers : gmap string string) (body : option string) (world : World)
  : option (option error * World) :=
  sendWithRetry_loop fuel w url headers body 0 (retryBackoff w) None world.

(** [if body != nil { bodyBytes, err = executeTemplateForBody(...) }]. *)
Definition renderBody (body : json_value) (data : WebhookTemplateData)
  : result (option string) :=
  match body with
  | JNull => Ok None
  | _ =>
      match executeTemplateForBody body data with
      | Err err => Err err
      | Ok bodyBytes => Ok (Some bodyBytes)
      end
  end.

(** [for key, value := range headers { ... }]: the rendered headers, or the
    first key whose template fails.  Go visits a map in an unspecified order;
    the entries are visited here in the order of [map_to_list]. *)
Fixpoint renderHeaders (entries : list (string * string)) (data : WebhookTemplateData)
    (headers : gmap string string) : gmap string string + string * error :=
  match entries with
  | [] => inl headers
  | (key, value) :: entries =>
      match executeTemplate value data with
      | Err err => inr (key, err)
      | Ok templatedValue => renderHeaders entries data (<[key := templatedValue]> headers)
      end
  end.

Definition headerEntries (headers : option (gmap string string)) : list (string * string) :=
  map_to_list (default ∅ headers).

Definition sendWebhook (fuel : nat) (w : Webhook) (ctx : core_Context) (world : World)
  : option (unit * World) :=
  let templateData := buildTemplateData ctx in
  match executeTemplate (url w) templateData with
  | Err err => Some (logf CtxLogger Errorf (MsgURLTemplateFailed (name w) err) world)
  | Ok url =>
      match renderBody (body w) templateData with
      | Err err => Some (logf CtxLogger Errorf (MsgBodyTemplateFailed (name w) err) world)
      | Ok bodyBytes =>
          match renderHeaders (headerEntries (headers w)) templateData ∅ with
          | inr (key, err) =>
              Some (logf CtxLogger Errorf (MsgHeaderTemplateFailed (name w) key err) world)
          | inl headers =>
              match sendWithRetry fuel w url headers bodyBytes world with
              | None => None
              | Some (Some err, world) =>
                  Some (logf CtxLogger Errorf
                             (MsgFailedAfterAttempts (name w) (wrap64 (retryCount w + 1)) err)
                             world)
              | Some (None, world) =>
                  Some (logf CtxLogger Debugf (MsgSentSuccessfully (name w) url) world)
              end
          end
      end
  end.

End Dispatch.

(** ** Registry and loader ([webhook_config.go]) *)
Section Loader.
Context `{Runtime}.

Definition validateWebhookType (webhookType : string) : option error :=
  if String.eqb webhookType WebhookTypeError
     || String.eqb webhookType WebhookTypeInfo
     || String.eqb webhookType WebhookTypeAll
  then None
  else Some (ErrInvalidWebhookType webhookType).

(** The three assignments to [config.Webhooks[i]] under "Set defaults". *)
Definition setDefaults (def : WebhookDefinition) : WebhookDefinition :=
  {| Name := Name def; Type_ := Type_ def; Active := Active def;
     Priority := Priority def; URL := URL def;
     Method := if String.eqb (Method def) "" then "POST" else Method def;
     Headers := match Headers def with None => Some ∅ | Some h => Some h end;
     Body := Body def; OnlyOnError := OnlyOnError def;
     Timeout := if Timeout def =? 0 then defaultTimeout / time_Second else Timeout def;
     Retry := Retry def |}.

(** [for i, def := range config.Webhooks { ... }] from index [i] on: the
    first invalid entry ends the loop with its error, otherwise the entries
    come back with their defaults set. *)
Fixpoint validateWebhooks (i : Z) (defs : list WebhookDefinition)
  : result (list WebhookDefinition) :=
  match defs with
  | [] => Ok []
  | def :: rest =>
      if String.eqb (URL def) "" then Err (ErrMissingURL i)
      else if String.eqb (Type_ def) "" then Err (ErrMissingType (Name def))
      else
        match validateWebhookType (Type_ def) with
        | Some err => Err (ErrInvalidType (Name def) err)
        | None =>
            match validateWebhooks (i + 1) rest with
            | Err err => Err err
            | Ok rest => Ok (setDefaults def :: rest)
            end
        end
  end.

Definition parseWebhookConfigFile (path : string) : result (list WebhookDefinition) :=
  match os_ReadFile path with
  | Err err => Err (ErrReadFile err)
  | Ok data =>
      match json_Unmarshal_WebhooksFile data with
      | Err err => Err (ErrParseJSON err)
      | Ok config => validateWebhooks 0 (Webhooks config)
      end
  end.

(** The comparison given to [sort.Slice]. *)
Definition lessPriority (x y : WebhookDefinition) : bool := Priority x <? Priority y.

(** [for _, def := range webhookDefs { registry.Register(def); ... }]. *)
Fixpoint loadDefinitions (webhookDefs : list WebhookDefinition)
    (middlewares : list Middleware) (registry : WebhookRegistry)
  : Action (list Middleware * WebhookRegistry) :=
  match webhookDefs with
  | [] => ret (middlewares, registry)
  | def :: rest =>
      let registry := Register registry def in
      match NewWebhookFromDefinition def with
      | Err err =>
          logf OwnLogger Errorf (MsgCreateMiddlewareFailed (Name def) err) ;;;
          loadDefinitions rest middlewares registry
      | Ok middleware =>
          logf OwnLogger Noticef
               (MsgLoadedMiddleware (Name def) (Type_ def) (Active def) (Priority def)) ;;;
          loadDefinitions rest (middlewares ++ [GlobalMiddleware middleware]) registry
      end
  end.

Definition configPathOf (config : WebhookFileConfig) : string :=
  let configPath := os_Getenv "WEBHOOK_CONFIG" in
  let configPath := if String.eqb configPath "" then WebhookConfigFile config else configPath in
  if String.eqb configPath "" then defaultWebhookConfigPath else configPath.

Definition LoadWebhookMiddlewares (config : WebhookFileConfig)
  : Action (list Middleware * WebhookRegistry) :=
  let registry := NewWebhookRegistry in
  let configPath := configPathOf config in
  if os_Stat_IsNotExist configPath then
    logf OwnLogger Debugf (MsgConfigFileNotFound configPath) ;;;
    ret ([], registry)
  else
    match parseWebhookConfigFile configPath with
    | Err err =>
        logf OwnLogger Errorf (MsgConfigFileParseFailed configPath err) ;;;
        ret ([], registry)
    | Ok webhookDefs =>
        if (List.length webhookDefs =? 0)%nat then
          logf OwnLogger Debugf (MsgNoWebhooksDefined configPath) ;;;
          ret ([], registry)
        else
          let webhookDefs := GoSort.Slice lessPriority sort_random webhookDefs in
          loadDefinitions webhookDefs [] registry
    end.

(** Modelled from the spec: the helper [IsEmpty] is declared in a file of
    the package that is not among these sources.  The per-job configuration
    is "two string fields" (spec, section 6), and it is empty when both are
    the empty string.  The test changes no result: with both fields empty
    [parseWebhookNames] gives no name for either, and the test on the two
    lengths that follows returns [nil, nil] as well. *)
Definition IsEmpty (c : WebhookConfig) : bool :=
  String.eqb (WebhookErrorNames c) "" && String.eqb (WebhookInfoNames c) "".

Definition parseWebhookNames (namesStr : string) : list string :=
  if String.eqb namesStr "" then []
  else
    match json_Unmarshal_strings namesStr with
    | Ok names => names
    | Err _ =>
        let parts := strings_Split namesStr "," in
        List.filter (fun trimmed => negb (String.eqb trimmed ""))
                    (List.map strings_TrimSpace parts)
    end.

(** The loop over [errorNames]: the definitions collected so far are
    [errorWebhooks]. *)
Fixpoint collectErrorWebhooks (registry : WebhookRegistry) (errorNames : list string)
    (errorWebhooks : list WebhookDefinition) : Action (result (list WebhookDefinition)) :=
  match errorNames with
  | [] => ret (Ok errorWebhooks)
  | name :: rest =>
      match Get registry name with
      | None => ret (Err (ErrUnknownErrorWebhook name))
      | Some def =>
          if negb (String.eqb (Type_ def) WebhookTypeError)
             && negb (String.eqb (Type_ def) WebhookTypeAll)
          then ret (Err (ErrErrorNamesType name (Type_ def)))
          else
            (if negb (Active def)
             then logf OwnLogger Noticef (MsgInactiveWillNotFire name)
             else ret tt) ;;;
            collectErrorWebhooks registry rest (errorWebhooks ++ [def])
      end
  end.

Fixpoint collectInfoWebhooks (registry : WebhookRegistry) (infoNames : list string)
    (infoWebhooks : list WebhookDefinition) : Action (result (list WebhookDefinition)) :=
  match infoNames with
  | [] => ret (Ok infoWebhooks)
  | name :: rest =>
      match Get registry name with
      | None => ret (Err (ErrUnknownInfoWebhook name))
      | Some def =>
          if negb (String.eqb (Type_ def) WebhookTypeInfo)
             && negb (String.eqb (Type_ def) WebhookTypeAll)
          then ret (Err (ErrInfoNamesType name (Type_ def)))
          else
            (if negb (Active def)
             then logf OwnLogger Noticef (MsgInactiveWillNotFire name)
             else ret tt) ;;;
            collectInfoWebhooks registry rest (infoWebhooks ++ [def])
      end
  end.

(** The result is [Ok None] for [return nil, nil]. *)
Definition NewWebhookFromConfig (c : WebhookConfig) (registry : WebhookRegistry)
  : Action (result (option PerJobWebhook)) :=
  if IsEmpty c then ret (Ok None)
  else
    let errorNames := parseWebhookNames (WebhookErrorNames c) in
    let infoNames := parseWebhookNames (WebhookInfoNames c) in
    if (List.length errorNames =? 0)%nat && (List.length infoNames =? 0)%nat
    then ret (Ok None)
    else
      r <- collectErrorWebhooks registry errorNames [] ;;
      match r with
      | Err err => ret (Err err)
      | Ok errorWebhooks =>
          r <- collectInfoWebhooks registry infoNames [] ;;
          match r with
          | Err err => ret (Err err)
          | Ok infoWebhooks =>
              ret (Ok (Some {| errorWebhooks := errorWebhooks;
                               infoWebhooks := infoWebhooks |}))
          end
      end.

End Loader.

(** ** Per-job dispatcher ([webhook_perjob.go]) *)
Section PerJob.
Context `{Runtime}.

(** [for _, def := range webhooks { ... }]. *)
Fixpoint fireWebhooks (p : PerJobWebhook) (ctx : core_Context)
    (webhooks : list WebhookDefinition) : Action unit :=
  match webhooks with
  | [] => ret tt
  | def :: rest =>
      (if negb (Active def)
       then logf CtxLogger Debugf (MsgSkippedInactive (Name def))
       else emit (Go (GoPerJobSendWebhook p ctx def))) ;;;
      fireWebhooks p ctx rest
  end.

Definition PerJobWebhook_Run (p : PerJobWebhook) (ctx : core_Context)
  : Action (option error) :=
  let '(err, ctx) := ctx_Next ctx in
  let ctx := ctx_Stop err ctx in
  let webhooks := if Execution_Failed ctx then errorWebhooks p else infoWebhooks p in
  fireWebhooks p ctx webhooks ;;;
  ret err.

Definition PerJobWebhook_sendWebhook (fuel : nat) (p : PerJobWebhook)
    (ctx : core_Context) (def : WebhookDefinition) (world : World)
  : option (unit * World) :=
  match NewWebhookFromDefinition def with
  | Err err => Some (logf CtxLogger Errorf (MsgPerJobCreateFailed (Name def) err) world)
  | Ok webhook =>
      let templateData := buildTemplateData ctx in
      match executeTemplate (URL def) templateData with
      | Err err =>
          Some (logf CtxLogger Errorf (MsgPerJobURLTemplateFailed (Name def) err) world)
      | Ok url =>
          match renderBody (Body def) templateData with
          | Err err =>
              Some (logf CtxLogger Errorf (MsgPerJobBodyTemplateFailed (Name def) err) world)
          | Ok bodyBytes =>
              match renderHeaders (headerEntries (Headers def)) templateData ∅ with
              | inr (key, err) =>
                  Some (logf CtxLogger Errorf
                             (MsgPerJobHeaderTemplateFailed (Name def) key err) world)
              | inl headers =>
                  match sendWithRetry fuel webhook url headers bodyBytes world with
                  | None => None
                  | Some (Some err, world) =>
                      Some (logf CtxLogger Errorf
                                 (MsgPerJobFailedAfterRetries (Name def) err) world)
                  | Some (None, world) =>
                      Some (logf CtxLogger Debugf
                                 (MsgPerJobSentSuccessfully (Name def) url) world)
                  end
              end
          end
      end
  end.

End PerJob.

(** ** Specification-side definitions *)

(** The order of attempts and sleeps that the retry policy prescribes for [n]
    retries: an attempt, then for each retry a sleep followed by an attempt,
    the sleep doubling (as a [time.Duration]) from one retry to the next. *)
Inductive Step : Type := StepAttempt | StepSleep (d : Z).

Fixpoint retrySchedule (n : nat) (backoff : Z) : list Step :=
  StepAttempt ::
  match n with
  | O => []
  | S n' => StepSleep backoff :: retrySchedule n' (wrap64 (backoff * 2))
  end.

(** The sleep before retry [k + 1]. *)
Definition backoffAt (backoff : Z) (k : nat) : Z :=
  Nat.iter k (fun d => wrap64 (d * 2)) backoff.

Definition step_of `{Runtime} (e : Event) : option Step :=
  match e with
  | Attempt _ => Some StepAttempt
  | Sleep d => Some (StepSleep d)
  | _ => None
  end.

(** The attempts and sleeps of a trace, in order. *)
Definition timeline `{Runtime} (tr : list Event) : list Step := omap step_of tr.

Definition step_is_attempt (s : Step) : bool :=
  match s with StepAttempt => true | StepSleep _ => false end.

Definition step_sleep (s : Step) : option Z :=
  match s with StepAttempt => None | StepSleep d => Some d end.

(** The schedule seen from the head of the loop of [sendWithRetry], when
    the counter is [attempt] and [n] retries remain. *)
Definition loopSchedule (attempt : Z) (n : nat) (backoff : Z) : list Step :=
  if 0 <? attempt
  then StepSleep backoff :: retrySchedule n (wrap64 (backoff * 2))
  else retrySchedule n backoff.

(** What [sendRequest] returns for the attempt made after [n] calls of
    [client.Do]. *)
Definition attemptOutcome `{Runtime} (w : Webhook) (url : string)
    (headers : gmap string string) (body : option string) (n : nat) : option error :=
  (sendRequest w url headers body {| trace := []; requests := n |}).1.

(** An entry that [parseWebhookConfigFile] accepts. *)
Definition validEntry (def : WebhookDefinition) : bool :=
  negb (String.eqb (URL def) "")
  && (String.eqb (Type_ def) WebhookTypeError
      || String.eqb (Type_ def) WebhookTypeInfo
      || String.eqb (Type_ def) WebhookTypeAll).

(** The error that names the invalid entry [def] found at index [i]. *)
Definition entryError (i : Z) (def : WebhookDefinition) : error :=
  if String.eqb (URL def) "" then ErrMissingURL i
  else if String.eqb (Type_ def) "" then ErrMissingType (Name def)
  else ErrInvalidType (Name def) (ErrInvalidWebhookType (Type_ def)).

(** The global dispatcher built for a definition, if it can be built. *)
Definition middlewareOf `{Runtime} (def : WebhookDefinition) : option Middleware :=
  match NewWebhookFromDefinition def with
  | Ok w => Some (GlobalMiddleware w)
  | Err _ => None
  end.

Definition ascendingPriority (x y : WebhookDefinition) : Prop := Priority x <= Priority y.

(** A name that may stand in [webhook-error-names], resp. [webhook-info-names]. *)
Definition errorNameOk (registry : WebhookRegistry) (name : string) : bool :=
  match Get registry name with
  | Some def => String.eqb (Type_ def) WebhookTypeError || String.eqb (Type_ def) WebhookTypeAll
  | None => false
  end.

Definition infoNameOk (registry : WebhookRegistry) (name : string) : bool :=
  match Get registry name with
  | Some def => String.eqb (Type_ def) WebhookTypeInfo || String.eqb (Type_ def) WebhookTypeAll
  | None => false
  end.

(** The error that names the reference [name] when it is not acceptable. *)
Definition errorNameError (registry : WebhookRegistry) (name : string) : error :=
  match Get registry name with
  | None => ErrUnknownErrorWebhook name
  | Some def => ErrErrorNamesType name (Type_ def)
  end.

Definition infoNameError (registry : WebhookRegistry) (name : string) : error :=
  match Get registry name with
  | None => ErrUnknownInfoWebhook name
  | Some def => ErrInfoNamesType name (Type_ def)
  end.

(** A reference to a definition that is registered but not active. *)
Definition inactiveName (registry : WebhookRegistry) (name : string) : bool :=
  match Get registry name with
  | Some def => negb (Active def)
  | None => false
  end.

(** The notice logged for a reference to an inactive definition. *)
Definition notice `{Runtime} (name : string) : Event :=
  Log OwnLogger Noticef (MsgInactiveWillNotFire name).

(** A body that is an object or an array. *)
Definition isStructured (body : json_value) : bool :=
  match body with
  | JObject _ | JArray _ => true
  | _ => false
  end.

Definition withOnlyOnError (f : WebhookDefinition -> bool) (def : WebhookDefinition)
  : WebhookDefinition :=
  {| Name := Name def; Type_ := Type_ def; Active := Active def;
     Priority := Priority def; URL := URL def; Method := Method def;
     Headers := Headers def; Body := Body def; OnlyOnError := f def;
     Timeout := Timeout def; Retry := Retry def |}.

Definition definition_of `{Runtime} (t : Task) : option WebhookDefinition :=
  match t with
  | GoPerJobSendWebhook _ _ def => Some def
  | GoSendWebhook _ _ => None
  end.

(** Insertion sort written on lists.  [insertFromBack less x run] puts [x]
    into a run that is held back to front: [x] goes past the elements it is
    less than and stops behind the first one it is not less than. *)
Fixpoint insertFromBack {A} (less : A -> A -> bool) (x : A) (run : list A) : list A :=
  match run with
  | [] => [x]
  | y :: run' => if less x y then y :: insertFromBack less x run' else x :: y :: run'
  end.

Fixpoint sortFrom {A} (less : A -> A -> bool) (run rest : list A) : list A :=
  match rest with
  | [] => rev run
  | x :: rest' => sortFrom less (insertFromBack less x run) rest'
  end.

Definition stableSort {A} (less : A -> A -> bool) (l : list A) : list A :=
  sortFrom less [] l.

(** Orders given by an integer key. *)
Definition lessBy {A} (key : A -> Z) (x y : A) : bool := key x <? key y.
Definition ascendingBy {A} (key : A -> Z) (x y : A) : Prop := key x <= key y.
Definition descendingBy {A} (key : A -> Z) (x y : A) : Prop := key y <= key x.

(** The definitions of a list that have priority [k], in the order of the list. *)
Definition withPriority (k : Z) (defs : list WebhookDefinition) : list WebhookDefinition :=
  List.filter (fun def => Priority def =? k) defs.

(** The key of [data[i]] (0 beyond the end of the slice). *)
Definition keyAt {A} (key : A -> Z) (data : list A) (i : nat) : Z :=
  nth i (List.map key data) 0.

(** [data[a:b]] is in ascending order of the keys. *)
Definition sortedRange {A} (key : A -> Z) (data : list A) (a b : nat) : Prop :=
  forall i j, (a <= i)%nat -> (i <= j)%nat -> (j < b)%nat ->
              keyAt key data i <= keyAt key data j.

(** The keys of [data[a:b]] all satisfy [P]. *)
Definition allBetween {A} (key : A -> Z) (P : Z -> Prop) (data : list A) (a b : nat) : Prop :=
  forall i, (a <= i)%nat -> (i < b)%nat -> P (keyAt key data i).

(** [data'] holds the elements of [data], the same ones at the same places
    outside of [data[a:b]]. *)
Definition rearranged {A} (a b : nat) (data data' : list A) : Prop :=
  data' ≡ₚ data /\ take a data' = take a data /\ drop b data' = drop b data.

(** What [pdqsort_func] relies on when [a > 0]: the element before the range
    is not greater than any element of the range. *)
Definition boundedBelow {A} (key : A -> Z) (data : list A) (a b : nat) : Prop :=
  a = 0%nat \/ allBetween key (fun k => keyAt key data (a - 1) <= k) data a b.

(** The heap of [heapSort_func], held in [data[first:first+hi]]: every node
    from [lo] on is not less than its children. *)
Definition heapFrom {A} (key : A -> Z) (data : list A) (first lo hi : nat) : Prop :=
  forall i c, (lo <= i)%nat -> (c < hi)%nat -> c = (2 * i + 1)%nat \/ c = (2 * i + 2)%nat ->
              keyAt key data (first + c) <= keyAt key data (first + i).

(** The context after [err := ctx.Next(); ctx.Stop(err)]. *)
Definition afterJob `{Runtime} (ctx : core_Context) : core_Context :=
  ctx_Stop (ctx_Next ctx).1 (ctx_Next ctx).2.

(** The classification of the global dispatcher, and its decision to send. *)
Definition classified (w : Webhook) (failed : bool) : Prop :=
  webhookType w = WebhookTypeAll
  \/ (failed = true /\ webhookType w = WebhookTypeError)
  \/ (failed = false /\ webhookType w = WebhookTypeInfo).

Definition selected (w : Webhook) (failed : bool) : Prop :=
  active w = true
  /\ classified w failed
  /\ ~ (onlyOnError w = true /\ failed = false).

(** ** The rest of the package

    What the sections above leave out of the four source files: [GetAll] of
    the registry ([webhook_config.go]) and, of [webhook_template.go], the
    helpers [jsonEscapeString], [statusCode] and [statusColorHex] and the
    function [buildTemplateData] that fills the data given to templates. *)

(** [GetAll()]: the registered definitions.  Go visits a map in an
    unspecified order; they come here in the order of [map_to_list]. *)
Definition GetAll (r : WebhookRegistry) : list WebhookDefinition :=
  (map_to_list (webhooks r)).*2.

(** The slice expression [s[lo:hi]]; a panic is [None]. *)
Definition slice (s : string) (lo hi : Z) : option string :=
  if (lo <? 0) || (hi <? lo) || (len s <? hi) then None
  else Some (substring (Z.to_nat lo) (Z.to_nat (hi - lo)) s).

(** [data, _ := json.Marshal(s)]: the error is dropped, [data] is nil when
    there is one. *)
Definition jsonEscapeString `{Runtime} (s : string) : option string :=
  let result := match json_Marshal (JString s) with Ok data => data | Err _ => "" end in
  if 2 <=? len result then slice result 1 (len result - 1) else Some result.

Module TemplateData.
Section Build.

(** [time.Time] with [Add] and [Format], [time.Duration.String],
    [error.Error] and the name returned by [os.Hostname] are taken from
    outside. *)
Variable Time : Type.
Variable Time_Add : Time -> Z -> Time.
Variable Time_Format : Time -> string -> string.
Variable Duration_String : Z -> string.
Variable error_Error : error -> string.
Variable os_Hostname : string.

Definition time_RFC3339 : string := "2006-01-02T15:04:05Z07:00".

(** [core.Context], as far as [buildTemplateData] reads it: the three
    getters of [ctx.Job] and the fields of [ctx.Execution].  A nil
    [OutputStream] or [ErrorStream] is [None], a buffer is its contents. *)
Record Job : Type := {
  job_GetName : string;
  job_GetSchedule : string;
  job_GetCommand : string
}.

Record Execution : Type := {
  exec_ID : string;
  exec_Date : Time;
  exec_Duration : Z;
  exec_IsRunning : bool;
  exec_Failed : bool;
  exec_Skipped : bool;
  exec_Error : option error;
  exec_OutputStream : option string;
  exec_ErrorStream : option string
}.

Record Context : Type := {
  ctx_Job : Job;
  ctx_Execution : Execution
}.

Record WebhookTemplateData : Type := {
  JobName : string;
  JobSchedule : string;
  JobCommand : string;
  ExecutionID : string;
  StartTime : Time;
  EndTime : Time;
  Duration : string;
  IsRunning : bool;
  Failed : bool;
  Skipped : bool;
  Success : bool;
  Error : string;
  HasError : bool;
  Stdout : string;
  Stderr : string;
  Hostname : string;
  Timestamp : string
}.

Definition buildTemplateData (ctx : Context) : WebhookTemplateData :=
  let execution := ctx_Execution ctx in
  {| JobName := job_GetName (ctx_Job ctx);
     JobSchedule := job_GetSchedule (ctx_Job ctx);
     JobCommand := job_GetCommand (ctx_Job ctx);
     ExecutionID := exec_ID execution;
     StartTime := exec_Date execution;
     EndTime := Time_Add (exec_Date execution) (exec_Duration execution);
     Duration := Duration_String (exec_Duration execution);
     IsRunning := exec_IsRunning execution;
     Failed := exec_Failed execution;
     Skipped := exec_Skipped execution;
     Success := negb (exec_Failed execution) && negb (exec_Skipped execution);
     Error := match exec_Error execution with Some err => error_Error err | None => "" end;
     HasError := match exec_Error execution with Some _ => true | None => false end;
     Stdout := match exec_OutputStream execution with Some out => out | None => "" end;
     Stderr := match exec_ErrorStream execution with Some out => out | None => "" end;
     Hostname := os_Hostname;
     Timestamp := Time_Format (exec_Date execution) time_RFC3339 |}.

Definition statusCode (data : WebhookTemplateData) : Z :=
  if Skipped data then 2 else if Failed data then 1 else 0.

Definition statusColorHex (data : WebhookTemplateData) : string :=
  if Skipped data then "#FFA500" else if Failed data then "#FF0000" else "#00FF00".

End Build.
End TemplateData.

(** ** Specification-side definitions for the rest of the package *)

(** The line that [LoadWebhookMiddlewares] logs for a definition it loads. *)
Definition loadLine `{Runtime} (def : WebhookDefinition) : Event :=
  match NewWebhookFromDefinition def with
  | Ok _ =>
      Log OwnLogger Noticef
          (MsgLoadedMiddleware (Name def) (Type_ def) (Active def) (Priority def))
  | Err err => Log OwnLogger Errorf (MsgCreateMiddlewareFailed (Name def) err)
  end.

(** A definition whose dispatcher can be built. *)
Definition canBuild `{Runtime} (def : WebhookDefinition) : bool :=
  negb (is_err (NewWebhookFromDefinition def)).

(** The requests handed to [client.Do], in order. *)
Definition request_of `{Runtime} (e : Event) : option HTTPRequest :=
  match e with Do req => Some req | _ => None end.

Definition sent `{Runtime} (tr : list Event) : list HTTPRequest := omap request_of tr.

(** What [sendWithRetry] may do for a dispatcher and a rendered request:
    announce a retry on the dispatcher's own logger, sleep, enter
    [sendRequest] for the url, and hand this one request to the client. *)
Definition deliveryEvent `{Runtime} (w : Webhook) (url : string)
    (headers : gmap string string) (body : option string) (e : Event) : Prop :=
  match e with
  | Log OwnLogger Debugf (MsgRetryAttempt webhook _ count _) =>
      webhook = name w /\ count = retryCount w
  | Sleep _ => True
  | Attempt u => u = url
  | Do req => req = {| req_method := method w; req_url := url;
                       req_headers := headers; req_body := body |}
  | _ => False
  end.

(** The time slept in a trace, in nanoseconds. *)
Definition totalSleep `{Runtime} (tr : list Event) : Z := foldr Z.add 0 (sleeps tr).

(** A line written to [ctx.Logger]. *)
Definition isCtxLog `{Runtime} (e : Event) : bool :=
  match e with Log CtxLogger _ _ => true | _ => false end.

(** A trace without the lines written to [ctx.Logger]: the retries
    announced, the sleeps, the attempts and the requests. *)
Definition wire `{Runtime} (tr : list Event) : list Event :=
  List.filter (fun e => negb (isCtxLog e)) tr.

(** What a dispatcher does on its own account: start a task, or write a
    debug line to [ctx.Logger]. *)
Definition isDispatch `{Runtime} (e : Event) : bool :=
  match e with
  | Go _ => true
  | Log CtxLogger Debugf _ => true
  | _ => false
  end.

(** ** A closed world to run the embedding in

    A job that ends with a given error, templates without actions (they
    render to themselves), a configuration file with given contents and an
    endpoint with given answers. *)
Module Example.

Record Ctx : Type := {
  jobError : option error;
  failed : bool
}.

Definition marshal (v : json_value) : result string :=
  match v with
  | JObject [] => Ok "{}"
  | JArray [] => Ok "[]"
  | _ => Err (External "json: unsupported value")
  end.

Definition unmarshal (s : string) : result json_value :=
  if String.eqb s "{}" then Ok (JObject [])
  else if String.eqb s "[]" then Ok (JArray [])
  else Err (External "invalid character")
.

Definition parseDuration (s : string) : result Z :=
  if String.eqb s "1s" then Ok 1000000000
  else if String.eqb s "4611686018427387904ns" then Ok 4611686018427387904
  else Err (External "time: invalid duration").

Definition runtime (file : result WebhooksFile) (answers : nat -> HTTPOutcome) : Runtime :=
  {| core_Context := Ctx;
     ctx_Next := fun c => (jobError c, c);
     ctx_Stop := fun err c =>
       {| jobError := jobError c;
          failed := match err with Some _ => true | None => failed c end |};
     Execution_Failed := failed;
     WebhookTemplateData := unit;
     buildTemplateData := fun _ => tt;
     Template := string;
     template_Parse := fun s => Ok s;
     template_Execute := fun t _ => Ok t;
     json_Marshal := marshal;
     json_Unmarshal_any := unmarshal;
     json_Unmarshal_WebhooksFile := fun _ => file;
     json_Unmarshal_strings := fun _ => Err (External "invalid character");
     time_ParseDuration := parseDuration;
     os_Getenv := fun _ => "";
     os_Stat_IsNotExist := fun _ => false;
     os_ReadFile := fun _ => Ok "";
     strings_Split := fun s _ => [s];
     strings_TrimSpace := fun s => s;
     http_NewRequest := fun _ _ => None;
     http_Do := fun n _ => answers n;
     sort_random := fun _ _ => 0%nat |}.

Definition definition (name type : string) (priority : Z) : WebhookDefinition :=
  {| Name := name; Type_ := type; Active := true; Priority := priority;
     URL := "http://localhost/hook"; Method := "POST"; Headers := None;
     Body := JString "done"; OnlyOnError := false; Timeout := 5; Retry := None |}.

Definition webhook (count backoff : Z) : Webhook :=
  {| name := "hook"; webhookType := "all"; active := true;
     url := "http://localhost/hook"; method := "POST"; headers := None;
     body := JString "done"; onlyOnError := false; timeout := 5 * time_Second;
     retryCount := count; retryBackoff := backoff |}.

Definition alwaysFails : nat -> HTTPOutcome := fun _ => Response 500 "".

Definition noFile : result WebhooksFile := Err (External "unexpected end of JSON input").

(** Thirteen definitions: the first with priority 1, the others with priority 0. *)
Definition thirteen : list WebhookDefinition :=
  definition "w0" "all" 1 ::
  List.map (fun n => definition n "all" 0)
    ["w1"; "w2"; "w3"; "w4"; "w5"; "w6"; "w7"; "w8"; "w9"; "w10"; "w11"; "w12"].

Definition config : WebhookFileConfig := {| WebhookConfigFile := "" |}.

Definition file (defs : list WebhookDefinition) : result WebhooksFile :=
  Ok {| Webhooks := defs |}.

(** An entry without [url]. *)
Definition missingURL : WebhookDefinition :=
  {| Name := "nowhere"; Type_ := "error"; Active := true; Priority := 0;
     URL := ""; Method := ""; Headers := None; Body := JNull;
     OnlyOnError := false; Timeout := 0; Retry := None |}.

(** A valid entry whose dispatcher cannot be built. *)
Definition badBackoff : WebhookDefinition :=
  {| Name := "later"; Type_ := "info"; Active := true; Priority := 2;
     URL := "http://localhost/later"; Method := ""; Headers := None; Body := JNull;
     OnlyOnError := false; Timeout := 0;
     Retry := Some {| Count := 1; Backoff := "soon" |} |}.

(** A registry with one inactive definition, and a job that refers to it. *)
Definition inactive : WebhookDefinition :=
  {| Name := "pager"; Type_ := "error"; Active := false; Priority := 0;
     URL := "http://localhost/pager"; Method := "POST"; Headers := None;
     Body := JNull; OnlyOnError := false; Timeout := 10; Retry := None |}.

Definition registry : WebhookRegistry := Register NewWebhookRegistry inactive.

Definition jobConfig : WebhookConfig :=
  {| WebhookErrorNames := "pager"; WebhookInfoNames := "" |}.

Definition name_of (m : Middleware) : string :=
  match m with
  | GlobalMiddleware w => name w
  | PerJobMiddleware _ => ""
  end.

End Example.

(** ** A second closed world

    A template engine that renders: in a template the character [$] stands
    for the name of the job, which is the data given to templates, and the
    template ["{{"] does not parse.  The encoder puts a string between
    quotes and writes an object of strings member by member; the decoder
    accepts a text that opens with a brace and holds an even number of
    quotes.  There is no configuration file, and the endpoint always answers
    500. *)
Module Scenario.

Definition quote : ascii := ascii_of_nat 34.

Definition quoted (s : string) : string := String quote (s +:+ String quote "").

Fixpoint render (jobName templateStr : string) : string :=
  match templateStr with
  | EmptyString => EmptyString
  | String c rest =>
      if Ascii.eqb c "$"%char then jobName +:+ render jobName rest
      else String c (render jobName rest)
  end.

Definition parse (templateStr : string) : result string :=
  if String.eqb templateStr "{{" then Err (External "unclosed action")
  else Ok templateStr.

Definition member (m : string * json_value) : string :=
  quoted m.1 +:+ ":" +:+ match m.2 with JString s => quoted s | _ => "null" end.

Definition marshal (v : json_value) : result string :=
  match v with
  | JString s => Ok (quoted s)
  | JObject members => Ok ("{" +:+ String.concat "," (List.map member members) +:+ "}")
  | _ => Err (External "json: unsupported value")
  end.

Fixpoint quotes (s : string) : nat :=
  match s with
  | EmptyString => 0%nat
  | String c rest => ((if Ascii.eqb c quote then 1 else 0) + quotes rest)%nat
  end.

Definition unmarshal (s : string) : result json_value :=
  if String.prefix "{" s && Nat.even (quotes s) then Ok (JObject [])
  else Err (External "invalid character").

Definition runtime : Runtime :=
  {| core_Context := Example.Ctx;
     ctx_Next := fun c => (Example.jobError c, c);
     ctx_Stop := fun err c =>
       {| Example.jobError := Example.jobError c;
          Example.failed := match err with Some _ => true | None => Example.failed c end |};
     Execution_Failed := Example.failed;
     WebhookTemplateData := string;
     buildTemplateData := fun _ => "nightly";
     Template := string;
     template_Parse := parse;
     template_Execute := fun tmpl jobName => Ok (render jobName tmpl);
     json_Marshal := marshal;
     json_Unmarshal_any := unmarshal;
     json_Unmarshal_WebhooksFile := fun _ => Example.noFile;
     json_Unmarshal_strings := fun _ => Err (External "invalid character");
     time_ParseDuration := Example.parseDuration;
     os_Getenv := fun _ => "";
     os_Stat_IsNotExist := fun _ => true;
     os_ReadFile := fun _ => Err (External "no such file or directory");
     strings_Split := fun s _ => [s];
     strings_TrimSpace := fun s => s;
     http_NewRequest := fun _ _ => None;
     http_Do := fun _ _ => Response 500 "";
     sort_random := fun _ _ => 0%nat |}.

(** A body with a template in it, its encoding, and the encoding rendered
    for the job [nightly]. *)
Definition jobBody : json_value := JObject [("job", JString "$")].

Definition jobTemplate : string := "{" +:+ quoted "job" +:+ ":" +:+ quoted "$" +:+ "}".

Definition jobRendered : string := "{" +:+ quoted "job" +:+ ":" +:+ quoted "nightly" +:+ "}".



End Scenario.

Local Open Scope list_scope.
(** * Properties *)

(** ** Machine integers *)

Lemma wrap64_id z : in_int64 z -> wrap64 z = z.
Proof.
  unfold in_int64, int64_min, int64_max, wrap64. intros Hz.
  rewrite Z.mod_small; lia.
Qed.

Lemma wrap64_range z : in_int64 (wrap64 z).
Proof.
  unfold in_int64, int64_min, int64_max, wrap64.
  pose proof (Z.mod_pos_bound (z + 2 ^ 63) (2 ^ 64) ltac:(lia)). lia.
Qed.

(** ** Strings *)

Lemma length_substring_0 (n : nat) (s : string) :
  (n <= String.length s)%nat -> String.length (substring 0 n s) = n.
Proof.
  revert n. induction s as [|c s IH]; intros [|n] Hn; simpl in *; try lia.
  rewrite IH; lia.
Qed.

Lemma length_string_app (s t : string) :
  String.length (s +:+ t) = (String.length s + String.length t)%nat.
Proof. induction s as [|c s IH]; simpl; [done|]. by rewrite IH. Qed.

Lemma slice_to_Some (s : string) (hi : Z) :
  0 <= hi <= len s ->
  slice_to s hi = Some (substring 0 (Z.to_nat hi) s)
  /\ len (substring 0 (Z.to_nat hi) s) = hi.
Proof.
  intros Hhi. unfold slice_to, len in *.
  destruct (hi <? 0) eqn:E1; [lia|].
  destruct (Z.of_nat (String.length s) <? hi) eqn:E2; [lia|].
  split; [done|]. rewrite length_substring_0; lia.
Qed.

(** ** The truncation helper *)

(** C9, as the code has it.  [truncateString] returns a string no longer
    than the width unchanged.  A longer string is cut to exactly the width:
    for a width above 3 the result ends with the marker "...", for a width
    from 0 to 3 it is the first bytes of the string, without a marker.
    [truncate(5, "hello world")] is ["he..."] and [truncate(20, "short")] is
    ["short"]. *)
Theorem truncateString_spec (maxLen : Z) (s : string) :
  (len s <= maxLen -> truncateString maxLen s = Some s)
  /\ (3 < maxLen < len s ->
      exists kept, truncateString maxLen s = Some (kept +:+ "...")
                   /\ slice_to s (maxLen - 3) = Some kept
                   /\ len (kept +:+ "...") = maxLen)
  /\ (0 <= maxLen <= 3 -> maxLen < len s ->
      exists kept, truncateString maxLen s = Some kept
                   /\ slice_to s maxLen = Some kept
                   /\ len kept = maxLen)
  /\ truncateString 5 "hello world" = Some "he..."
  /\ truncateString 20 "short" = Some "short".
Proof.
  unfold truncateString. split; [|split; [|split; [|split; reflexivity]]].
  - intros Hle. destruct (len s <=? maxLen) eqn:E; [done|lia].
  - intros [H3 Hlt].
    destruct (len s <=? maxLen) eqn:E1; [lia|].
    destruct (maxLen <=? 3) eqn:E2; [lia|].
    destruct (slice_to_Some s (maxLen - 3)) as [-> Hlen]; [lia|].
    eexists. split; [reflexivity|]. split; [reflexivity|].
    unfold len in *. rewrite length_string_app. simpl. lia.
  - intros H03 Hlt.
    destruct (len s <=? maxLen) eqn:E1; [lia|].
    destruct (maxLen <=? 3) eqn:E2; [|lia].
    destruct (slice_to_Some s maxLen) as [-> Hlen]; [lia|].
    eexists. split; [reflexivity|]. split; [reflexivity|]. exact Hlen.
Qed.

Lemma truncateString_spec_witness :
  exists kept, truncateString 7 "hello world" = Some (kept +:+ "...")
               /\ slice_to "hello world" (7 - 3) = Some kept
               /\ len (kept +:+ "...") = 7.
Proof.
  destruct (truncateString_spec 7 "hello world") as (_ & Hcut & _).
  apply Hcut. vm_compute. split; reflexivity.
Defined.

(** C9, as stated, fails for the widths 0 to 3: [truncate(2, "hello")] cuts
    the string but the result ["he"] does not end with the marker. *)
Lemma truncateString_marker_counterexample :
  2 < len "hello"
  /\ truncateString 2 "hello" = Some "he"
  /\ ~ (exists kept, "he" = kept +:+ "...").
Proof.
  split; [vm_compute; reflexivity|]. split; [reflexivity|].
  intros [kept Hk]. destruct kept as [|a [|b [|c kept]]]; discriminate Hk.
Qed.

(** ** Traces *)
Section Traces.
Context `{Runtime}.

Lemma spawned_app (tr1 tr2 : list Event) : spawned (tr1 ++ tr2) = spawned tr1 ++ spawned tr2.
Proof. apply omap_app. Qed.

Lemma timeline_app (tr1 tr2 : list Event) : timeline (tr1 ++ tr2) = timeline tr1 ++ timeline tr2.
Proof. apply omap_app. Qed.

Lemma sleeps_app (tr1 tr2 : list Event) : sleeps (tr1 ++ tr2) = sleeps tr1 ++ sleeps tr2.
Proof. apply omap_app. Qed.

Lemma attempts_app (tr1 tr2 : list Event) : attempts (tr1 ++ tr2) = (attempts tr1 + attempts tr2)%nat.
Proof. unfold attempts. by rewrite List.filter_app, length_app. Qed.

End Traces.

(** ** The dispatchers *)
Section Dispatchers.
Context `{Runtime}.

(** C1.  On a completed job the global dispatcher spawns the
    render-and-deliver task exactly when the definition is active, the
    classification by type selects the outcome, and it is not the case that
    [onlyOnError] is set while the job did not fail; it spawns nothing
    otherwise.  In particular nothing is spawned when the classification does
    not select the outcome, whatever [onlyOnError] is. *)
Theorem Run_spawns_iff_selected (w : Webhook) (ctx : core_Context) (world : World) :
  let ctx' := afterJob ctx in
  let failed := Execution_Failed ctx' in
  exists evs,
    trace (Run w ctx world).2 = trace world ++ evs
    /\ (spawned evs = [GoSendWebhook w ctx'] <-> selected w failed)
    /\ (spawned evs = [] <-> ~ selected w failed)
    /\ (~ classified w failed -> spawned evs = []).
Proof.
  unfold afterJob, Run, selected, classified.
  destruct (ctx_Next ctx) as [err ctx1]; simpl.
  destruct (active w) eqn:Ha; simpl.
  2:{ eexists; split; [reflexivity|]. simpl. intuition congruence. }
  unfold WebhookTypeAll, WebhookTypeError, WebhookTypeInfo.
  destruct (String.eqb_spec (webhookType w) "all") as [Eall|Eall];
  destruct (String.eqb_spec (webhookType w) "error") as [Eerr|Eerr];
  destruct (String.eqb_spec (webhookType w) "info") as [Einf|Einf];
  destruct (Execution_Failed (ctx_Stop err ctx1)) eqn:Hf;
  destruct (onlyOnError w) eqn:Ho; simpl;
  (eexists; split; [reflexivity|]); simpl;
  try rewrite Eall in *; try rewrite Eerr in *; try rewrite Einf in *;
  intuition congruence.
Qed.

(** C3.  Both dispatchers return the error of the wrapped pipeline, whatever
    the definition, the outcome of the job and the behaviour of the endpoint. *)
Theorem Run_returns_job_error (w : Webhook) (p : PerJobWebhook)
    (ctx : core_Context) (world : World) :
  (Run w ctx world).1 = (ctx_Next ctx).1
  /\ (PerJobWebhook_Run p ctx world).1 = (ctx_Next ctx).1.
Proof.
  split.
  - unfold Run. destruct (ctx_Next ctx) as [err ctx1]; simpl.
    repeat match goal with |- context [if ?b then _ else _] => destruct b end;
      reflexivity.
  - unfold PerJobWebhook_Run. destruct (ctx_Next ctx) as [err ctx1]; simpl.
    unfold bind. destruct (fireWebhooks _ _ _ _). reflexivity.
Qed.

Lemma fireWebhooks_trace (p : PerJobWebhook) (ctx : core_Context)
    (webhooks : list WebhookDefinition) (world : World) :
  exists evs,
    trace (fireWebhooks p ctx webhooks world).2 = trace world ++ evs
    /\ spawned evs = List.map (GoPerJobSendWebhook p ctx) (List.filter Active webhooks).
Proof.
  revert world. induction webhooks as [|def rest IH]; intros world; simpl.
  - exists []. by rewrite app_nil_r.
  - unfold bind. destruct (Active def) eqn:Ha; simpl.
    + destruct (IH {| trace := trace world ++ [Go (GoPerJobSendWebhook p ctx def)];
                      requests := requests world |}) as (evs & Htr & Hsp).
      eexists (_ :: evs). rewrite Htr. simpl. rewrite <- app_assoc. simpl.
      split; [reflexivity|]. unfold spawned in *. simpl. by rewrite Hsp.
    + destruct (IH {| trace := trace world ++ [Log CtxLogger Debugf (MsgSkippedInactive (Name def))];
                      requests := requests world |}) as (evs & Htr & Hsp).
      eexists (_ :: evs). rewrite Htr. simpl. rewrite <- app_assoc. simpl.
      split; [reflexivity|]. exact Hsp.
Qed.

(** C7.  On job completion the per-job dispatcher spawns one delivery task
    for each active definition of the error-set when the job failed, of the
    info-set otherwise, in the order of the set, and none for an inactive
    definition.  The flag [onlyOnError] plays no part: changing it in any
    way on the definitions changes nothing in the choice of the definitions
    that are delivered. *)
Theorem PerJobWebhook_Run_spawns (p : PerJobWebhook) (ctx : core_Context) (world : World) :
  let ctx' := afterJob ctx in
  let chosen := if Execution_Failed ctx' then errorWebhooks p else infoWebhooks p in
  exists evs,
    trace (PerJobWebhook_Run p ctx world).2 = trace world ++ evs
    /\ spawned evs = List.map (GoPerJobSendWebhook p ctx') (List.filter Active chosen)
    /\ forall (f : WebhookDefinition -> bool),
         let p' := {| errorWebhooks := List.map (withOnlyOnError f) (errorWebhooks p);
                      infoWebhooks := List.map (withOnlyOnError f) (infoWebhooks p) |} in
         exists evs',
           trace (PerJobWebhook_Run p' ctx world).2 = trace world ++ evs'
           /\ omap definition_of (spawned evs')
              = List.map (withOnlyOnError f) (omap definition_of (spawned evs)).
Proof.
  unfold afterJob, PerJobWebhook_Run.
  destruct (ctx_Next ctx) as [err ctx1]; simpl. unfold bind.
  set (ctx' := ctx_Stop err ctx1).
  assert (Hdefs : forall q l, omap definition_of (List.map (GoPerJobSendWebhook q ctx') l) = l).
  { intros q l. induction l as [|d l IH]; [done|]. cbn. f_equal. exact IH. }
  destruct (fireWebhooks_trace p ctx'
              (if Execution_Failed ctx' then errorWebhooks p else infoWebhooks p) world)
    as (evs & Htr & Hsp).
  exists evs. destruct (fireWebhooks p ctx' _ world) as [[] world1]; simpl in *.
  split; [exact Htr|]. split; [exact Hsp|]. intros f.
  set (p' := {| errorWebhooks := _; infoWebhooks := _ |}).
  destruct (fireWebhooks_trace p' ctx'
              (if Execution_Failed ctx' then errorWebhooks p' else infoWebhooks p') world)
    as (evs' & Htr' & Hsp').
  exists evs'. destruct (fireWebhooks p' ctx' _ world) as [[] world2]; simpl in *.
  split; [exact Htr'|]. rewrite Hsp, Hsp', !Hdefs.
  assert (Hfilter : forall l, List.filter Active (List.map (withOnlyOnError f) l)
                              = List.map (withOnlyOnError f) (List.filter Active l)).
  { induction l as [|d l IH]; simpl; [done|]. destruct (Active d); simpl; by rewrite IH. }
  destruct (Execution_Failed ctx'); simpl; apply Hfilter.
Qed.

End Dispatchers.

(** ** The delivery engine *)
Section Delivery.
Context `{Runtime}.

Lemma attempts_timeline (tr : list Event) :
  attempts tr = length (List.filter step_is_attempt (timeline tr)).
Proof.
  unfold attempts, timeline. induction tr as [|e tr IH]; [done|].
  destruct e; cbn; try exact IH. f_equal. exact IH.
Qed.

Lemma sleeps_timeline (tr : list Event) :
  sleeps tr = omap step_sleep (timeline tr).
Proof.
  unfold sleeps, timeline. induction tr as [|e tr IH]; [done|].
  destruct e; cbn; try exact IH. f_equal. exact IH.
Qed.

Lemma backoffAt_S (backoff : Z) (k : nat) :
  backoffAt backoff (S k) = wrap64 (backoffAt backoff k * 2).
Proof. reflexivity. Qed.

Lemma backoffAt_shift (backoff : Z) (k : nat) :
  backoffAt (wrap64 (backoff * 2)) k = backoffAt backoff (S k).
Proof.
  induction k as [|k IH]; [done|].
  rewrite backoffAt_S, IH. reflexivity.
Qed.

Lemma backoffAt_exact (backoff : Z) (k : nat) :
  (forall j, (j <= k)%nat -> in_int64 (backoff * 2 ^ Z.of_nat j)) ->
  backoffAt backoff k = backoff * 2 ^ Z.of_nat k.
Proof.
  induction k as [|k IH]; intros Hr.
  - simpl. lia.
  - rewrite backoffAt_S, IH by (intros j Hj; apply Hr; lia).
    replace (backoff * 2 ^ Z.of_nat k * 2) with (backoff * 2 ^ Z.of_nat (S k)).
    + apply wrap64_id, Hr. lia.
    + rewrite Nat2Z.inj_succ, Z.pow_succ_r by lia. lia.
Qed.

Lemma retrySchedule_attempts (n : nat) (backoff : Z) :
  length (List.filter step_is_attempt (retrySchedule n backoff)) = S n.
Proof.
  revert backoff. induction n as [|n IH]; intros backoff; [done|].
  cbn. f_equal. apply IH.
Qed.

Lemma retrySchedule_sleeps (n : nat) (backoff : Z) :
  omap step_sleep (retrySchedule n backoff) = List.map (backoffAt backoff) (seq 0 n).
Proof.
  revert backoff. induction n as [|n IH]; intros backoff; [done|].
  cbn. f_equal. rewrite IH. rewrite <- seq_shift, List.map_map.
  apply List.map_ext. intros k. apply backoffAt_shift.
Qed.

(** One attempt: it returns the outcome that the endpoint has in store, its
    only step is the attempt, and the outcomes of later attempts move up by
    one. *)
Lemma sendRequest_step (w : Webhook) (url : string) (headers : gmap string string)
    (body : option string) (world : World) :
  exists world' evs,
    sendRequest w url headers body world
    = (attemptOutcome w url headers body (requests world), world')
    /\ trace world' = trace world ++ evs
    /\ timeline evs = [StepAttempt]
    /\ forall j, attemptOutcome w url headers body (requests world' + j)
                 = attemptOutcome w url headers body (S (requests world + j)).
Proof.
  unfold attemptOutcome, sendRequest, bind, emit, client_Do, ret. simpl.
  destruct (http_NewRequest (method w) url) as [err|] eqn:Hnew; simpl.
  - do 2 eexists. split; [reflexivity|]. simpl.
    split; [reflexivity|]. split; [reflexivity|]. reflexivity.
  - destruct (http_Do (requests world) _) as [e|status rbody]; simpl.
    + exists {| trace := (trace world ++ [Attempt url]) ++ [Do {| req_method := method w; req_url := url; req_headers := headers; req_body := body |}];
                requests := S (requests world) |}.
      eexists [_; _]. simpl. rewrite <- app_assoc.
      split; [reflexivity|]. split; [reflexivity|]. split; [reflexivity|]. reflexivity.
    + destruct ((status <? 200) || (300 <=? status));
      (exists {| trace := (trace world ++ [Attempt url]) ++ [Do {| req_method := method w; req_url := url; req_headers := headers; req_body := body |}];
                requests := S (requests world) |});
      eexists [_; _]; simpl; rewrite <- app_assoc;
      (split; [reflexivity|]); (split; [reflexivity|]); (split; [reflexivity|]); reflexivity.
Qed.

Section Loop.
Variables (w : Webhook) (url : string) (headers : gmap string string) (body : option string).

Local Abbreviation outcome := (attemptOutcome w url headers body).

(** The head of the loop: the sleep that precedes a retry. *)
Lemma loop_unfold (fuel : nat) (attempt backoff : Z) (lastErr : option error) (world : World) :
  attempt <= retryCount w ->
  exists world1 evs backoff1,
    trace world1 = trace world ++ evs
    /\ requests world1 = requests world
    /\ timeline evs = (if 0 <? attempt then [StepSleep backoff] else [])
    /\ backoff1 = (if 0 <? attempt then wrap64 (backoff * 2) else backoff)
    /\ sendWithRetry_loop (S fuel) w url headers body attempt backoff lastErr world
       = let '(err, world2) := sendRequest w url headers body world1 in
         match err with
         | None => Some (None, world2)
         | Some _ => sendWithRetry_loop fuel w url headers body (wrap64 (attempt + 1))
                                        backoff1 err world2
         end.
Proof.
  intros Hle. simpl. destruct (attempt <=? retryCount w) eqn:E; [|lia].
  destruct (0 <? attempt); simpl.
  - do 3 eexists. split; [|split; [|split; [|split; [reflexivity|reflexivity]]]].
    + simpl. rewrite <- app_assoc. reflexivity.
    + reflexivity.
    + reflexivity.
  - exists world, [], backoff. rewrite app_nil_r. by destruct world.
Qed.

Lemma loop_all_fail (n : nat) :
  forall (fuel : nat) (attempt backoff : Z) (lastErr : option error) (world : World),
    (n + 2 <= fuel)%nat ->
    0 <= attempt ->
    attempt + Z.of_nat n = retryCount w ->
    retryCount w < int64_max ->
    (forall j, (j <= n)%nat -> outcome (requests world + j) <> None) ->
    exists world' evs,
      sendWithRetry_loop fuel w url headers body attempt backoff lastErr world
      = Some (outcome (requests world + n), world')
      /\ trace world' = trace world ++ evs
      /\ timeline evs = loopSchedule attempt n backoff.
Proof.
  induction n as [|n IH]; intros fuel attempt backoff lastErr world Hfuel H0 Hn Hmax Hfail.
  - destruct fuel as [|[|fuel]]; try lia.
    destruct (loop_unfold (S fuel) attempt backoff lastErr world ltac:(lia))
      as (world1 & evs1 & backoff1 & Htr1 & Hreq1 & Htl1 & Hb1 & ->).
    destruct (sendRequest_step w url headers body world1)
      as (world2 & evs2 & -> & Htr2 & Htl2 & Hshift).
    rewrite Hreq1.
    specialize (Hfail 0%nat ltac:(lia)). rewrite Nat.add_0_r in *.
    destruct (outcome (requests world)) as [e|] eqn:Hout; [|done].
    simpl. rewrite wrap64_id by (unfold in_int64, int64_min, int64_max in *; lia).
    destruct (attempt + 1 <=? retryCount w) eqn:E; [lia|].
    exists world2, (evs1 ++ evs2). split; [reflexivity|].
    split; [rewrite Htr2, Htr1; by rewrite app_assoc|].
    rewrite timeline_app, Htl1, Htl2. unfold loopSchedule.
    destruct (0 <? attempt); reflexivity.
  - destruct fuel as [|fuel]; try lia.
    destruct (loop_unfold fuel attempt backoff lastErr world ltac:(lia))
      as (world1 & evs1 & backoff1 & Htr1 & Hreq1 & Htl1 & Hb1 & ->).
    destruct (sendRequest_step w url headers body world1)
      as (world2 & evs2 & -> & Htr2 & Htl2 & Hshift).
    rewrite Hreq1 in *.
    pose proof (Hfail 0%nat ltac:(lia)) as Hfail0. rewrite Nat.add_0_r in *.
    destruct (outcome (requests world)) as [e|] eqn:Hout; [|done].
    rewrite wrap64_id by (unfold in_int64, int64_min, int64_max in *; lia).
    destruct (IH fuel (attempt + 1) backoff1 (Some e) world2) as (world' & evs & Hrun & Htr & Htl);
      try lia.
    { intros j Hj. rewrite Hshift. replace (S (requests world + j)) with (requests world + S j)%nat by lia.
      apply Hfail. lia. }
    rewrite Hshift in Hrun.
    replace (S (requests world + n)) with (requests world + S n)%nat in Hrun by lia.
    exists world', (evs1 ++ evs2 ++ evs). split; [exact Hrun|].
    split; [rewrite Htr, Htr2, Htr1; by rewrite !app_assoc|].
    rewrite !timeline_app, Htl1, Htl2, Htl, Hb1. unfold loopSchedule.
    destruct (0 <? attempt) eqn:E0; destruct (0 <? attempt + 1) eqn:E1; try lia; reflexivity.
Qed.

Lemma loop_first_success (k : nat) :
  forall (fuel : nat) (attempt backoff : Z) (lastErr : option error) (world : World),
    (k + 1 <= fuel)%nat ->
    0 <= attempt ->
    attempt + Z.of_nat k <= retryCount w ->
    retryCount w <= int64_max ->
    outcome (requests world + k) = None ->
    (forall j, (j < k)%nat -> outcome (requests world + j) <> None) ->
    exists world' evs,
      sendWithRetry_loop fuel w url headers body attempt backoff lastErr world
      = Some (None, world')
      /\ trace world' = trace world ++ evs
      /\ timeline evs = loopSchedule attempt k backoff.
Proof.
  induction k as [|k IH]; intros fuel attempt backoff lastErr world Hfuel H0 Hn Hmax Hok Hfail.
  - destruct fuel as [|fuel]; try lia.
    destruct (loop_unfold fuel attempt backoff lastErr world ltac:(lia))
      as (world1 & evs1 & backoff1 & Htr1 & Hreq1 & Htl1 & Hb1 & ->).
    destruct (sendRequest_step w url headers body world1)
      as (world2 & evs2 & -> & Htr2 & Htl2 & Hshift).
    rewrite Hreq1. rewrite Nat.add_0_r in Hok. rewrite Hok.
    exists world2, (evs1 ++ evs2). split; [reflexivity|].
    split; [rewrite Htr2, Htr1; by rewrite app_assoc|].
    rewrite timeline_app, Htl1, Htl2. unfold loopSchedule.
    destruct (0 <? attempt); reflexivity.
  - destruct fuel as [|fuel]; try lia.
    destruct (loop_unfold fuel attempt backoff lastErr world ltac:(lia))
      as (world1 & evs1 & backoff1 & Htr1 & Hreq1 & Htl1 & Hb1 & ->).
    destruct (sendRequest_step w url headers body world1)
      as (world2 & evs2 & -> & Htr2 & Htl2 & Hshift).
    rewrite Hreq1 in *.
    pose proof (Hfail 0%nat ltac:(lia)) as Hfail0. rewrite Nat.add_0_r in *.
    destruct (outcome (requests world)) as [e|] eqn:Hout; [|done].
    rewrite wrap64_id by (unfold in_int64, int64_min, int64_max in *; lia).
    destruct (IH fuel (attempt + 1) backoff1 (Some e) world2) as (world' & evs & Hrun & Htr & Htl);
      try lia.
    { rewrite Hshift. replace (S (requests world + k)) with (requests world + S k)%nat by lia.
      exact Hok. }
    { intros j Hj. rewrite Hshift. replace (S (requests world + j)) with (requests world + S j)%nat by lia.
      apply Hfail. lia. }
    exists world', (evs1 ++ evs2 ++ evs). split; [exact Hrun|].
    split; [rewrite Htr, Htr2, Htr1; by rewrite !app_assoc|].
    rewrite !timeline_app, Htl1, Htl2, Htl, Hb1. unfold loopSchedule.
    destruct (0 <? attempt) eqn:E0; destruct (0 <? attempt + 1) eqn:E1; try lia; reflexivity.
Qed.

End Loop.
End Delivery.

Section Retry.
Context `{Runtime}.

(** C2, as the code has it.  For a retry count [N] with [0 <= N < 2^63 - 1]:
    when every attempt fails, [sendWithRetry] makes exactly [N + 1] attempts
    and returns the error of the last one; when attempt [k <= N] is the first
    to succeed it returns nil after [k + 1] attempts.  In both cases the
    sleeps stand only between consecutive attempts, the first lasts the
    configured backoff and each next one is the previous one doubled as a
    64-bit [time.Duration]: exactly twice as long as it fits into 64 bits,
    wrapped around otherwise. *)
Theorem sendWithRetry_schedule (w : Webhook) (url : string)
    (headers : gmap string string) (body : option string) (world : World) (fuel : nat) :
  let n := Z.to_nat (retryCount w) in
  let outcome := fun k => attemptOutcome w url headers body (requests world + k) in
  0 <= retryCount w < int64_max ->
  (n + 2 <= fuel)%nat ->
  ((forall k, (k <= n)%nat -> outcome k <> None) ->
   exists world' evs,
     sendWithRetry fuel w url headers body world = Some (outcome n, world')
     /\ trace world' = trace world ++ evs
     /\ timeline evs = retrySchedule n (retryBackoff w)
     /\ attempts evs = S n
     /\ sleeps evs = List.map (backoffAt (retryBackoff w)) (seq 0 n))
  /\ (forall k, (k <= n)%nat -> outcome k = None ->
      (forall j, (j < k)%nat -> outcome j <> None) ->
      exists world' evs,
        sendWithRetry fuel w url headers body world = Some (None, world')
        /\ trace world' = trace world ++ evs
        /\ timeline evs = retrySchedule k (retryBackoff w)
        /\ attempts evs = S k
        /\ sleeps evs = List.map (backoffAt (retryBackoff w)) (seq 0 k))
  /\ (forall k, backoffAt (retryBackoff w) (S k) = wrap64 (backoffAt (retryBackoff w) k * 2))
  /\ (forall k, (forall j, (j <= k)%nat -> in_int64 (retryBackoff w * 2 ^ Z.of_nat j)) ->
                backoffAt (retryBackoff w) k = retryBackoff w * 2 ^ Z.of_nat k).
Proof.
  intros n outcome Hn Hfuel. unfold sendWithRetry.
  split; [|split; [|split]].
  - intros Hfail.
    destruct (loop_all_fail w url headers body n fuel 0 (retryBackoff w) None world)
      as (world' & evs & Hrun & Htr & Htl); try lia; [exact Hfail|].
    exists world', evs. split; [exact Hrun|]. split; [exact Htr|].
    unfold loopSchedule in Htl. simpl in Htl. split; [exact Htl|].
    rewrite attempts_timeline, sleeps_timeline, Htl.
    split; [apply retrySchedule_attempts|apply retrySchedule_sleeps].
  - intros k Hk Hok Hfail.
    destruct (loop_first_success w url headers body k fuel 0 (retryBackoff w) None world)
      as (world' & evs & Hrun & Htr & Htl); try lia; [exact Hok|exact Hfail|].
    exists world', evs. split; [exact Hrun|]. split; [exact Htr|].
    unfold loopSchedule in Htl. simpl in Htl. split; [exact Htl|].
    rewrite attempts_timeline, sleeps_timeline, Htl.
    split; [apply retrySchedule_attempts|apply retrySchedule_sleeps].
  - intros k. apply backoffAt_S.
  - intros k. apply backoffAt_exact.
Qed.

(** C10.  A negative retry count is accepted when the webhook is built; with
    it the loop of [sendWithRetry] is never entered: no attempt, no sleep, no
    log line, and the result is nil.  [sendWebhook] then logs the delivery
    as sent although the trace holds no attempt. *)
Theorem negative_retry_count_sends_nothing (def : WebhookDefinition) (retry : RetryConfig)
    (duration : Z) (fuel : nat) (ctx : core_Context) (world : World)
    (url' : string) (bodyBytes : option string) (headers' : gmap string string) :
  Retry def = Some retry ->
  Count retry < 0 ->
  Backoff retry = "" \/ time_ParseDuration (Backoff retry) = Ok duration ->
  exists w,
    NewWebhookFromDefinition def = Ok w
    /\ retryCount w = Count retry
    /\ (forall url headers body world0,
          sendWithRetry (S fuel) w url headers body world0 = Some (None, world0))
    /\ (executeTemplate (URL def) (buildTemplateData ctx) = Ok url' ->
        renderBody (Body def) (buildTemplateData ctx) = Ok bodyBytes ->
        renderHeaders (headerEntries (Headers def)) (buildTemplateData ctx) ∅ = inl headers' ->
        exists world',
          sendWebhook (S fuel) w ctx world = Some (tt, world')
          /\ trace world' = trace world ++ [Log CtxLogger Debugf (MsgSentSuccessfully (Name def) url')]
          /\ attempts (trace world') = attempts (trace world)).
Proof.
  intros Hretry Hneg Hbackoff.
  assert (Hnew : exists w, NewWebhookFromDefinition def = Ok w /\ retryCount w = Count retry
                           /\ url w = URL def /\ body w = Body def /\ headers w = Headers def
                           /\ name w = Name def).
  { unfold NewWebhookFromDefinition. rewrite Hretry.
    destruct Hbackoff as [Hb|Hb].
    - rewrite Hb. simpl. eexists. split; [reflexivity|]. simpl. done.
    - destruct (String.eqb (Backoff retry) "").
      + eexists. split; [reflexivity|]. simpl. done.
      + rewrite Hb. eexists. split; [reflexivity|]. simpl. done. }
  destruct Hnew as (w & Hw & Hcount & Hurl & Hbody & Hheaders & Hname).
  exists w. split; [exact Hw|]. split; [exact Hcount|].
  assert (Hsend : forall url headers body world0,
             sendWithRetry (S fuel) w url headers body world0 = Some (None, world0)).
  { intros. unfold sendWithRetry. simpl.
    destruct (0 <=? retryCount w) eqn:E; [lia|reflexivity]. }
  split; [exact Hsend|].
  intros Hu Hb Hh. unfold sendWebhook.
  rewrite Hurl, Hbody, Hheaders, Hu, Hb, Hh, Hsend, Hname.
  eexists. split; [reflexivity|]. simpl. split; [reflexivity|].
  rewrite attempts_app. unfold attempts at 2. simpl. lia.
Qed.

End Retry.

(** C2, as stated, fails when doubling leaves the 64 bits of a
    [time.Duration]: with two retries, a backoff of [2^62] ns and an endpoint
    that always answers 500, the second sleep is [-2^63] ns, which is not
    twice the first. *)
Lemma sendWithRetry_doubling_counterexample :
  let rt := Example.runtime Example.noFile Example.alwaysFails in
  exists world',
    sendWithRetry 4 (Example.webhook 2 (2 ^ 62)) "http://localhost/hook" ∅ None start
    = Some (Some (ErrNon2xx 500 ""), world')
    /\ attempts (trace world') = 3%nat
    /\ sleeps (trace world') = [2 ^ 62; - 2 ^ 63]
    /\ - 2 ^ 63 <> 2 * 2 ^ 62.
Proof.
  eexists. split; [vm_compute; reflexivity|].
  split; [vm_compute; reflexivity|]. split; [vm_compute; reflexivity|]. lia.
Qed.

Lemma sendWithRetry_schedule_witness :
  let rt := Example.runtime Example.noFile Example.alwaysFails in
  exists world' evs,
    sendWithRetry 5 (Example.webhook 3 1000) "http://localhost/hook" ∅ None start
    = Some (attemptOutcome (Example.webhook 3 1000) "http://localhost/hook" ∅ None 3, world')
    /\ trace world' = trace start ++ evs
    /\ timeline evs = retrySchedule 3 1000
    /\ attempts evs = 4%nat
    /\ sleeps evs = List.map (backoffAt 1000) (seq 0 3).
Proof.
  intros rt.
  destruct (@sendWithRetry_schedule rt (Example.webhook 3 1000) "http://localhost/hook" ∅ None start 5)
    as (Hall & _).
  - vm_compute. split; [discriminate|reflexivity].
  - vm_compute. lia.
  - apply Hall. intros k Hk. vm_compute. discriminate.
Defined.

Lemma negative_retry_count_witness :
  let rt := Example.runtime Example.noFile Example.alwaysFails in
  let def := {| Name := "hook"; Type_ := "all"; Active := true; Priority := 0;
                URL := "http://localhost/hook"; Method := "POST"; Headers := None;
                Body := JString "done"; OnlyOnError := false; Timeout := 5;
                Retry := Some {| Count := -1; Backoff := "" |} |} in
  exists w,
    NewWebhookFromDefinition def = Ok w
    /\ retryCount w = -1
    /\ (forall url headers body world0,
          sendWithRetry 1 w url headers body world0 = Some (None, world0))
    /\ exists world',
          sendWebhook 1 w {| Example.jobError := None; Example.failed := false |} start
          = Some (tt, world')
          /\ trace world'
             = trace start ++ [Log CtxLogger Debugf (MsgSentSuccessfully "hook" "http://localhost/hook")]
          /\ attempts (trace world') = attempts (trace start).
Proof.
  intros rt def.
  destruct (@negative_retry_count_sends_nothing rt def {| Count := -1; Backoff := "" |} 0 0%nat
              {| Example.jobError := None; Example.failed := false |} start
              "http://localhost/hook" (Some "done") ∅)
    as (w & Hw & Hc & Hs & Hlog).
  - reflexivity.
  - simpl. lia.
  - left. reflexivity.
  - exists w. split; [exact Hw|]. split; [exact Hc|]. split; [exact Hs|].
    apply Hlog; reflexivity.
Defined.

(** ** The template engine *)
Section Rendering.
Context `{Runtime}.

Lemma executeTemplate_Ok (templateStr : string) (data : WebhookTemplateData) (rendered : string) :
  executeTemplate templateStr data = Ok rendered
  <-> exists tmpl, template_Parse templateStr = Ok tmpl
                   /\ template_Execute tmpl data = Ok rendered.
Proof.
  unfold executeTemplate. split.
  - destruct (template_Parse templateStr) as [tmpl|e]; [|discriminate].
    destruct (template_Execute tmpl data) as [buf|e] eqn:E; [|discriminate].
    intros [= <-]. eauto.
  - intros (tmpl & -> & ->). reflexivity.
Qed.

Lemma executeTemplate_Err (templateStr : string) (data : WebhookTemplateData) :
  is_err (executeTemplate templateStr data) = true
  <-> is_err (template_Parse templateStr) = true
      \/ exists tmpl, template_Parse templateStr = Ok tmpl
                      /\ is_err (template_Execute tmpl data) = true.
Proof.
  unfold executeTemplate.
  destruct (template_Parse templateStr) as [tmpl|e]; simpl; [|tauto].
  destruct (template_Execute tmpl data) as [buf|e] eqn:E; simpl.
  - split; [discriminate|]. intros [?|(t & [= <-] & Ht)]; [done|].
    rewrite E in Ht. done.
  - split; [|done]. intros _. right. exists tmpl. by rewrite E.
Qed.

(** C8.  [executeTemplateForBody] renders a plain string body as a
    template: it returns the text that the template engine produces for the
    parsed string, and the error of the engine, wrapped, when the string does
    not parse or the template does not execute.  An object or array body is
    serialized to JSON text; when that succeeds the text is parsed and
    executed as a template and the rendered text is parsed again as JSON:
    the call fails exactly when the template fails to parse or to execute,
    or when the rendered text is not well-formed JSON, each time with the
    error of that step, and on success the bytes returned are the text that
    the execution of the template produced. *)
Theorem executeTemplateForBody_spec (body : json_value) (data : WebhookTemplateData) :
  (forall v,
     body = JString v ->
     (forall bytes,
        executeTemplateForBody body data = Ok bytes
        <-> exists tmpl, template_Parse v = Ok tmpl /\ template_Execute tmpl data = Ok bytes)
     /\ (forall err, template_Parse v = Err err ->
                     executeTemplateForBody body data = Err (ErrTemplateParse err))
     /\ (forall tmpl err, template_Parse v = Ok tmpl -> template_Execute tmpl data = Err err ->
                          executeTemplateForBody body data = Err (ErrTemplateExecution err)))
  /\ (forall jsonText,
        isStructured body = true ->
        json_Marshal body = Ok jsonText ->
        (forall bytes,
           executeTemplateForBody body data = Ok bytes
           <-> exists tmpl, template_Parse jsonText = Ok tmpl
                            /\ template_Execute tmpl data = Ok bytes
                            /\ is_err (json_Unmarshal_any bytes) = false)
        /\ (is_err (executeTemplateForBody body data) = true
            <-> (is_err (template_Parse jsonText) = true
                 \/ (exists tmpl, template_Parse jsonText = Ok tmpl
                                  /\ is_err (template_Execute tmpl data) = true)
                 \/ (exists tmpl rendered,
                       template_Parse jsonText = Ok tmpl
                       /\ template_Execute tmpl data = Ok rendered
                       /\ is_err (json_Unmarshal_any rendered) = true)))
        /\ (forall err, template_Parse jsonText = Err err ->
                        executeTemplateForBody body data = Err (ErrTemplateParse err))
        /\ (forall tmpl err,
              template_Parse jsonText = Ok tmpl -> template_Execute tmpl data = Err err ->
              executeTemplateForBody body data = Err (ErrTemplateExecution err))
        /\ (forall tmpl rendered err,
              template_Parse jsonText = Ok tmpl -> template_Execute tmpl data = Ok rendered ->
              json_Unmarshal_any rendered = Err err ->
              executeTemplateForBody body data = Err (ErrInvalidJSONResult err))).
Proof.
  split.
  - intros v ->. cbn [executeTemplateForBody]. unfold executeTemplate.
    split; [|split].
    + intros bytes. destruct (template_Parse v) as [tmpl|e].
      * destruct (template_Execute tmpl data) as [buf|e] eqn:Hx.
        -- split.
           ++ intros [= <-]. by exists tmpl.
           ++ intros (t & [= <-] & Hb). rewrite Hx in Hb. by injection Hb as ->.
        -- split; [discriminate|]. intros (t & [= <-] & Hb). by rewrite Hx in Hb.
      * split; [discriminate|]. by intros (t & ? & _).
    + by intros err ->.
    + by intros tmpl err -> ->.
  - intros jsonText Hs Hm.
    assert (Hbody : executeTemplateForBody body data
                    = match template_Parse jsonText with
                      | Err err => Err (ErrTemplateParse err)
                      | Ok tmpl =>
                          match template_Execute tmpl data with
                          | Err err => Err (ErrTemplateExecution err)
                          | Ok rendered =>
                              match json_Unmarshal_any rendered with
                              | Err err => Err (ErrInvalidJSONResult err)
                              | Ok _ => Ok rendered
                              end
                          end
                      end).
    { destruct body; try discriminate Hs; cbn [executeTemplateForBody];
        rewrite Hm; unfold executeTemplate;
        destruct (template_Parse jsonText) as [tmpl|e]; try reflexivity;
        destruct (template_Execute tmpl data); reflexivity. }
    rewrite Hbody. clear Hbody.
    destruct (template_Parse jsonText) as [tmpl|e].
    2:{ split; [|split; [|split; [|split]]].
        - intros bytes. split; [discriminate|]. by intros (t & ? & _).
        - split; [by left|done].
        - by intros err [= <-].
        - by intros t err ?.
        - by intros t r err ?. }
    destruct (template_Execute tmpl data) as [rendered|e] eqn:Hx.
    2:{ split; [|split; [|split; [|split]]].
        - intros bytes. split; [discriminate|].
          intros (t & [= <-] & Hb & _). by rewrite Hx in Hb.
        - split; [|done]. intros _. right. left. exists tmpl. by rewrite Hx.
        - discriminate.
        - intros t err [= <-] Hb. rewrite Hx in Hb. by injection Hb as ->.
        - intros t r err [= <-] Hb. by rewrite Hx in Hb. }
    destruct (json_Unmarshal_any rendered) as [parsed|e] eqn:Hu.
    + split; [|split; [|split; [|split]]].
      * intros bytes. split.
        -- intros [= <-]. exists tmpl. by rewrite Hu.
        -- intros (t & [= <-] & Hb & _). rewrite Hx in Hb. by injection Hb as ->.
      * split; [discriminate|].
        intros [Hp|[(t & [= <-] & Hb)|(t & r & [= <-] & Hb & Hr)]].
        -- discriminate Hp.
        -- by rewrite Hx in Hb.
        -- rewrite Hx in Hb. injection Hb as <-. by rewrite Hu in Hr.
      * discriminate.
      * intros t err [= <-] Hb. by rewrite Hx in Hb.
      * intros t r err [= <-] Hb Hr. rewrite Hx in Hb. injection Hb as <-.
        by rewrite Hu in Hr.
    + split; [|split; [|split; [|split]]].
      * intros bytes. split; [discriminate|].
        intros (t & [= <-] & Hb & Hr). rewrite Hx in Hb. injection Hb as <-.
        by rewrite Hu in Hr.
      * split; [|done]. intros _. right. right. exists tmpl, rendered. by rewrite Hu.
      * discriminate.
      * intros t err [= <-] Hb. by rewrite Hx in Hb.
      * intros t r err [= <-] Hb Hr. rewrite Hx in Hb. injection Hb as <-.
        rewrite Hu in Hr. by injection Hr as ->.
Qed.

End Rendering.

Lemma executeTemplateForBody_spec_witness :
  let rt := Scenario.runtime in
  json_Marshal Scenario.jobBody = Ok Scenario.jobTemplate
  /\ executeTemplateForBody Scenario.jobBody "nightly" = Ok Scenario.jobRendered
  /\ Scenario.jobRendered <> Scenario.jobTemplate
  /\ executeTemplateForBody Scenario.jobBody (String Scenario.quote "")
     = Err (ErrInvalidJSONResult (External "invalid character")).
Proof.
  intros rt. split; [reflexivity|]. split; [|split].
  - destruct (@executeTemplateForBody_spec rt Scenario.jobBody "nightly") as [_ Hs].
    destruct (Hs Scenario.jobTemplate) as (Hok & _); [reflexivity|reflexivity|].
    apply Hok. exists Scenario.jobTemplate.
    split; [reflexivity|]. split; reflexivity.
  - intros Heq. apply (f_equal String.length) in Heq. vm_compute in Heq. discriminate Heq.
  - destruct (@executeTemplateForBody_spec rt Scenario.jobBody (String Scenario.quote ""))
      as [_ Hs].
    destruct (Hs Scenario.jobTemplate) as (_ & _ & _ & _ & Hbad); [reflexivity|reflexivity|].
    eapply Hbad; reflexivity.
Defined.


(** ** The per-job constructor *)
Section PerJobConstruction.
Context `{Runtime}.

Lemma parseWebhookNames_empty : parseWebhookNames "" = [].
Proof. reflexivity. Qed.

Lemma collectErrorWebhooks_Ok (registry : WebhookRegistry) (names : list string) :
  forall (acc : list WebhookDefinition) (world : World),
    Forall (fun name => errorNameOk registry name = true) names ->
    exists world',
      collectErrorWebhooks registry names acc world
      = (Ok (acc ++ omap (Get registry) names), world')
      /\ length (omap (Get registry) names) = length names
      /\ requests world' = requests world
      /\ trace world' = trace world ++ List.map notice (List.filter (inactiveName registry) names).
Proof.
  induction names as [|name rest IH]; intros acc world Hok.
  - exists world. simpl. rewrite !app_nil_r. by destruct world.
  - inversion Hok as [|? ? Hname Hrest]; subst.
    unfold errorNameOk, inactiveName in *. cbn.
    destruct (Get registry name) as [def|] eqn:Hget; [|discriminate].
    apply orb_true_iff in Hname.
    assert (Hty : negb (String.eqb (Type_ def) WebhookTypeError)
                  && negb (String.eqb (Type_ def) WebhookTypeAll) = false).
    { destruct Hname as [-> | ->]; simpl; [done|]. by rewrite andb_false_r. }
    rewrite Hty. unfold bind.
    destruct (Active def); simpl.
    + destruct (IH (acc ++ [def]) world Hrest) as (world' & -> & Hlen & Hreq & Htr).
      exists world'. rewrite <- app_assoc. simpl. split; [reflexivity|].
      split; [by rewrite Hlen|]. split; [exact Hreq|]. exact Htr.
    + match goal with |- context [collectErrorWebhooks _ _ _ ?w1] =>
        destruct (IH (acc ++ [def]) w1 Hrest) as (world' & -> & Hlen & Hreq & Htr) end.
      exists world'. rewrite <- app_assoc. simpl. split; [reflexivity|].
      split; [by rewrite Hlen|]. split; [exact Hreq|].
      rewrite Htr. simpl. by rewrite <- app_assoc.
Qed.

Lemma collectErrorWebhooks_Err (registry : WebhookRegistry) (names : list string) :
  forall (acc : list WebhookDefinition) (world : World),
    Exists (fun name => errorNameOk registry name = false) names ->
    exists name,
      name ∈ names
      /\ errorNameOk registry name = false
      /\ (collectErrorWebhooks registry names acc world).1 = Err (errorNameError registry name).
Proof.
  induction names as [|name rest IH]; intros acc world Hbad; [by inversion Hbad|].
  destruct (errorNameOk registry name) eqn:Hname.
  - assert (Hrest : Exists (fun name => errorNameOk registry name = false) rest).
    { inversion Hbad; subst; [congruence|done]. }
    unfold errorNameOk in Hname. cbn.
    destruct (Get registry name) as [def|] eqn:Hget; [|discriminate].
    apply orb_true_iff in Hname.
    assert (Hty : negb (String.eqb (Type_ def) WebhookTypeError)
                  && negb (String.eqb (Type_ def) WebhookTypeAll) = false).
    { destruct Hname as [-> | ->]; simpl; [done|]. by rewrite andb_false_r. }
    rewrite Hty. unfold bind.
    match goal with |- context [collectErrorWebhooks _ _ ?a _] =>
      destruct ((if negb (Active def) then logf OwnLogger Noticef (MsgInactiveWillNotFire name)
                 else ret tt) world) as [[] w1];
      destruct (IH a w1 Hrest) as (bad & Hin & Hb & Hr) end.
    exists bad. split; [by right|]. split; [exact Hb|]. exact Hr.
  - exists name. split; [by left|]. split; [exact Hname|].
    unfold errorNameOk, errorNameError in *. cbn.
    destruct (Get registry name) as [def|] eqn:Hget; [|reflexivity].
    apply orb_false_iff in Hname as [-> ->]. reflexivity.
Qed.

Lemma collectInfoWebhooks_Ok (registry : WebhookRegistry) (names : list string) :
  forall (acc : list WebhookDefinition) (world : World),
    Forall (fun name => infoNameOk registry name = true) names ->
    exists world',
      collectInfoWebhooks registry names acc world
      = (Ok (acc ++ omap (Get registry) names), world')
      /\ length (omap (Get registry) names) = length names
      /\ requests world' = requests world
      /\ trace world' = trace world ++ List.map notice (List.filter (inactiveName registry) names).
Proof.
  induction names as [|name rest IH]; intros acc world Hok.
  - exists world. simpl. rewrite !app_nil_r. by destruct world.
  - inversion Hok as [|? ? Hname Hrest]; subst.
    unfold infoNameOk, inactiveName in *. cbn.
    destruct (Get registry name) as [def|] eqn:Hget; [|discriminate].
    apply orb_true_iff in Hname.
    assert (Hty : negb (String.eqb (Type_ def) WebhookTypeInfo)
                  && negb (String.eqb (Type_ def) WebhookTypeAll) = false).
    { destruct Hname as [-> | ->]; simpl; [done|]. by rewrite andb_false_r. }
    rewrite Hty. unfold bind.
    destruct (Active def); simpl.
    + destruct (IH (acc ++ [def]) world Hrest) as (world' & -> & Hlen & Hreq & Htr).
      exists world'. rewrite <- app_assoc. simpl. split; [reflexivity|].
      split; [by rewrite Hlen|]. split; [exact Hreq|]. exact Htr.
    + match goal with |- context [collectInfoWebhooks _ _ _ ?w1] =>
        destruct (IH (acc ++ [def]) w1 Hrest) as (world' & -> & Hlen & Hreq & Htr) end.
      exists world'. rewrite <- app_assoc. simpl. split; [reflexivity|].
      split; [by rewrite Hlen|]. split; [exact Hreq|].
      rewrite Htr. simpl. by rewrite <- app_assoc.
Qed.

Lemma collectInfoWebhooks_Err (registry : WebhookRegistry) (names : list string) :
  forall (acc : list WebhookDefinition) (world : World),
    Exists (fun name => infoNameOk registry name = false) names ->
    exists name,
      name ∈ names
      /\ infoNameOk registry name = false
      /\ (collectInfoWebhooks registry names acc world).1 = Err (infoNameError registry name).
Proof.
  induction names as [|name rest IH]; intros acc world Hbad; [by inversion Hbad|].
  destruct (infoNameOk registry name) eqn:Hname.
  - assert (Hrest : Exists (fun name => infoNameOk registry name = false) rest).
    { inversion Hbad; subst; [congruence|done]. }
    unfold infoNameOk in Hname. cbn.
    destruct (Get registry name) as [def|] eqn:Hget; [|discriminate].
    apply orb_true_iff in Hname.
    assert (Hty : negb (String.eqb (Type_ def) WebhookTypeInfo)
                  && negb (String.eqb (Type_ def) WebhookTypeAll) = false).
    { destruct Hname as [-> | ->]; simpl; [done|]. by rewrite andb_false_r. }
    rewrite Hty. unfold bind.
    match goal with |- context [collectInfoWebhooks _ _ ?a _] =>
      destruct ((if negb (Active def) then logf OwnLogger Noticef (MsgInactiveWillNotFire name)
                 else ret tt) world) as [[] w1];
      destruct (IH a w1 Hrest) as (bad & Hin & Hb & Hr) end.
    exists bad. split; [by right|]. split; [exact Hb|]. exact Hr.
  - exists name. split; [by left|]. split; [exact Hname|].
    unfold infoNameOk, infoNameError in *. cbn.
    destruct (Get registry name) as [def|] eqn:Hget; [|reflexivity].
    apply orb_false_iff in Hname as [-> ->]. reflexivity.
Qed.

Lemma names_not_empty (namesStr name : string) :
  name ∈ parseWebhookNames namesStr -> String.eqb namesStr "" = false.
Proof.
  intros Hin. destruct (String.eqb_spec namesStr "") as [->|]; [|done].
  rewrite parseWebhookNames_empty in Hin. by apply elem_of_nil in Hin.
Qed.

(** C6.  Building the per-job dispatcher fails with an error that names the
    reference when a name of [webhook-error-names] is not in the registry or
    has a type other than [error] and [all], and when a name of
    [webhook-info-names] is not in the registry or has a type other than
    [info] and [all].  When every name is acceptable it succeeds, whether the
    referenced definitions are active or not: the dispatcher holds the
    referenced definitions in the order of the lists, and the only effect is
    one notice per reference to an inactive definition. *)
Theorem NewWebhookFromConfig_spec (c : WebhookConfig) (registry : WebhookRegistry)
    (world : World) :
  let errorNames := parseWebhookNames (WebhookErrorNames c) in
  let infoNames := parseWebhookNames (WebhookInfoNames c) in
  (Exists (fun name => errorNameOk registry name = false) errorNames ->
   exists name, name ∈ errorNames /\ errorNameOk registry name = false
                /\ (NewWebhookFromConfig c registry world).1 = Err (errorNameError registry name))
  /\ (Forall (fun name => errorNameOk registry name = true) errorNames ->
      Exists (fun name => infoNameOk registry name = false) infoNames ->
      exists name, name ∈ infoNames /\ infoNameOk registry name = false
                   /\ (NewWebhookFromConfig c registry world).1 = Err (infoNameError registry name))
  /\ (Forall (fun name => errorNameOk registry name = true) errorNames ->
      Forall (fun name => infoNameOk registry name = true) infoNames ->
      exists world',
        NewWebhookFromConfig c registry world
        = (Ok (if (length errorNames =? 0)%nat && (length infoNames =? 0)%nat then None
               else Some {| errorWebhooks := omap (Get registry) errorNames;
                            infoWebhooks := omap (Get registry) infoNames |}),
           world')
        /\ length (omap (Get registry) errorNames) = length errorNames
        /\ length (omap (Get registry) infoNames) = length infoNames
        /\ trace world'
           = trace world
             ++ List.map notice (List.filter (inactiveName registry) (errorNames ++ infoNames))).
Proof.
  intros errorNames infoNames. unfold NewWebhookFromConfig, IsEmpty.
  fold errorNames infoNames.
  split; [|split].
  - intros Hbad.
    assert (Hne : String.eqb (WebhookErrorNames c) "" = false).
    { apply Exists_exists in Hbad as (name & Hin & _). by eapply names_not_empty. }
    assert (Hlen : (length errorNames =? 0)%nat = false).
    { destruct errorNames; [by inversion Hbad|reflexivity]. }
    rewrite Hne, Hlen. cbn [andb]. unfold bind.
    destruct (collectErrorWebhooks_Err registry errorNames [] world Hbad)
      as (name & Hin & Hb & Hr).
    exists name. split; [exact Hin|]. split; [exact Hb|].
    destruct (collectErrorWebhooks registry errorNames [] world) as [r w1].
    simpl in Hr. subst r. reflexivity.
  - intros Hok Hbad.
    assert (Hne : String.eqb (WebhookInfoNames c) "" = false).
    { apply Exists_exists in Hbad as (name & Hin & _). by eapply names_not_empty. }
    assert (Hlen : (length infoNames =? 0)%nat = false).
    { destruct infoNames; [by inversion Hbad|reflexivity]. }
    rewrite Hne, Hlen, !andb_false_r. unfold bind.
    destruct (collectErrorWebhooks_Ok registry errorNames [] world Hok)
      as (w1 & -> & _ & _ & _). cbn [app].
    destruct (collectInfoWebhooks_Err registry infoNames [] w1 Hbad)
      as (name & Hin & Hb & Hr).
    exists name. split; [exact Hin|]. split; [exact Hb|].
    destruct (collectInfoWebhooks registry infoNames [] w1) as [r w2].
    simpl in Hr. subst r. reflexivity.
  - intros Hoke Hoki.
    destruct (collectErrorWebhooks_Ok registry errorNames [] world Hoke)
      as (w1 & Hce & Hle & Hre & Hte).
    destruct (collectInfoWebhooks_Ok registry infoNames [] w1 Hoki)
      as (w2 & Hci & Hli & Hri & Hti).
    destruct ((length errorNames =? 0)%nat && (length infoNames =? 0)%nat) eqn:Hempty.
    + apply andb_true_iff in Hempty as [He Hi].
      apply Nat.eqb_eq in He, Hi.
      destruct errorNames; [|discriminate]. destruct infoNames; [|discriminate].
      exists world. simpl. rewrite app_nil_r.
      split; [by destruct (_ && _)|]. done.
    + assert (String.eqb (WebhookErrorNames c) "" && String.eqb (WebhookInfoNames c) "" = false)
        as ->.
      { destruct (String.eqb_spec (WebhookErrorNames c) "") as [He|]; [|done].
        destruct (String.eqb_spec (WebhookInfoNames c) "") as [Hi|]; [|done].
        exfalso. subst errorNames infoNames. rewrite He, Hi in Hempty.
        rewrite parseWebhookNames_empty in Hempty. discriminate. }
      unfold bind. rewrite Hce. simpl. rewrite Hci. simpl.
      exists w2. split; [reflexivity|]. split; [exact Hle|]. split; [exact Hli|].
      rewrite Hti, Hte, List.filter_app, List.map_app. by rewrite app_assoc.
Qed.

End PerJobConstruction.

(** ** [sort.Slice]: the slice is permuted *)
Section SortPermutation.
Local Open Scope nat_scope.
Context {A : Type} (less : A -> A -> bool) (random : nat -> nat -> nat).

Lemma Swap_Permutation (data : list A) (i j : nat) : GoSort.Swap data i j ≡ₚ data.
Proof.
  unfold GoSort.Swap.
  destruct (data !! i) as [x|] eqn:Hi; [|reflexivity].
  destruct (data !! j) as [y|] eqn:Hj; [|reflexivity].
  by apply Permutation_insert_swap.
Qed.

Lemma Swap_length (data : list A) (i j : nat) : length (GoSort.Swap data i j) = length data.
Proof. apply Permutation_length, Swap_Permutation. Qed.

Lemma insertion_shift_Permutation (n : nat) :
  forall data j, GoSort.insertion_shift less n data j ≡ₚ data.
Proof.
  induction n as [|n IH]; intros data j; simpl; [done|].
  destruct (GoSort.Less less data j (j - 1)); [|done].
  by rewrite IH, Swap_Permutation.
Qed.

Lemma insertion_rounds_Permutation (n : nat) :
  forall data a i, GoSort.insertion_rounds less n data a i ≡ₚ data.
Proof.
  induction n as [|n IH]; intros data a i; simpl; [done|].
  by rewrite IH, insertion_shift_Permutation.
Qed.

Lemma insertionSort_func_Permutation (data : list A) (a b : nat) :
  GoSort.insertionSort_func less data a b ≡ₚ data.
Proof. apply insertion_rounds_Permutation. Qed.

Lemma siftDown_loop_Permutation (n : nat) :
  forall data root hi first, GoSort.siftDown_loop less n data root hi first ≡ₚ data.
Proof.
  induction n as [|n IH]; intros data root hi first; [done|].
  cbn [GoSort.siftDown_loop].
  repeat match goal with |- context [if ?c then _ else _] => destruct c; simpl end;
    rewrite ?IH, ?Swap_Permutation; done.
Qed.

Lemma siftDown_func_Permutation (data : list A) (lo hi first : nat) :
  GoSort.siftDown_func less data lo hi first ≡ₚ data.
Proof. apply siftDown_loop_Permutation. Qed.

Lemma foldl_Permutation {B} (f : list A -> B -> list A) (l : list B) :
  (forall d x, f d x ≡ₚ d) -> forall data, foldl f data l ≡ₚ data.
Proof.
  intros Hf. induction l as [|x l IH]; intros data; simpl; [done|].
  by rewrite IH, Hf.
Qed.

Lemma heapSort_func_Permutation (data : list A) (a b : nat) :
  GoSort.heapSort_func less data a b ≡ₚ data.
Proof.
  unfold GoSort.heapSort_func.
  rewrite foldl_Permutation.
  - apply foldl_Permutation. intros d x. apply siftDown_func_Permutation.
  - intros d x. by rewrite siftDown_func_Permutation, Swap_Permutation.
Qed.

Lemma breakPatterns_func_Permutation (data : list A) (a b : nat) :
  GoSort.breakPatterns_func random data a b ≡ₚ data.
Proof.
  unfold GoSort.breakPatterns_func. destruct (8 <=? b - a); [|done].
  apply foldl_Permutation. intros d x. apply Swap_Permutation.
Qed.

Lemma reverseRange_loop_Permutation (n : nat) :
  forall (data : list A) i j, GoSort.reverseRange_loop n data i j ≡ₚ data.
Proof.
  induction n as [|n IH]; intros data i j; simpl; [done|].
  destruct (i <? j); [|done]. by rewrite IH, Swap_Permutation.
Qed.

Lemma reverseRange_func_Permutation (data : list A) (a b : nat) :
  GoSort.reverseRange_func data a b ≡ₚ data.
Proof. apply reverseRange_loop_Permutation. Qed.

Lemma shift_left_Permutation (n : nat) :
  forall data j, GoSort.shift_left less n data j ≡ₚ data.
Proof.
  induction n as [|n IH]; intros data j; simpl; [done|].
  destruct (GoSort.Less less data j (j - 1)); simpl; [|done].
  by rewrite IH, Swap_Permutation.
Qed.

Lemma shift_right_Permutation (n : nat) :
  forall data j, GoSort.shift_right less n data j ≡ₚ data.
Proof.
  induction n as [|n IH]; intros data j; simpl; [done|].
  destruct (GoSort.Less less data j (j - 1)); simpl; [|done].
  by rewrite IH, Swap_Permutation.
Qed.

Lemma partialInsertionSort_loop_Permutation (steps : nat) :
  forall data a b i, (GoSort.partialInsertionSort_loop less steps data a b i).1 ≡ₚ data.
Proof.
  induction steps as [|steps IH]; intros data a b i; simpl; [done|].
  destruct (_ =? b); [done|]. destruct (b - a <? _); [done|].
  rewrite IH.
  repeat match goal with |- context [if ?c then _ else _] => destruct c end;
    rewrite ?shift_right_Permutation, ?shift_left_Permutation; apply Swap_Permutation.
Qed.

Lemma partialInsertionSort_func_Permutation (data : list A) (a b : nat) :
  (GoSort.partialInsertionSort_func less data a b).1 ≡ₚ data.
Proof. apply partialInsertionSort_loop_Permutation. Qed.

Lemma partition_loop_Permutation (up down : list A -> nat -> bool) (n : nat) :
  forall (data : list A) i j, (GoSort.partition_loop up down n data i j).1.1 ≡ₚ data.
Proof.
  induction n as [|n IH]; intros data i j; simpl; [done|].
  destruct (_ <? _); [done|]. by rewrite IH, Swap_Permutation.
Qed.

Lemma partitionEqual_func_Permutation (data : list A) (a b pivot : nat) :
  (GoSort.partitionEqual_func less data a b pivot).1 ≡ₚ data.
Proof.
  unfold GoSort.partitionEqual_func.
  match goal with |- context [GoSort.partition_loop ?u ?d ?n ?x ?i ?j] =>
    pose proof (partition_loop_Permutation u d n x i j) as Hp;
    destruct (GoSort.partition_loop u d n x i j) as [[d1 i1] j1] end.
  cbn [fst snd] in *. etrans; [exact Hp|]. apply Swap_Permutation.
Qed.

Lemma partition_func_Permutation (data : list A) (a b pivot : nat) :
  (GoSort.partition_func less data a b pivot).1.1 ≡ₚ data.
Proof.
  unfold GoSort.partition_func.
  destruct (_ <? _); cbn [fst snd].
  { etrans; [apply Swap_Permutation|]. apply Swap_Permutation. }
  match goal with |- context [GoSort.partition_loop ?u ?d ?n ?x ?i ?j] =>
    pose proof (partition_loop_Permutation u d n x i j) as Hp;
    destruct (GoSort.partition_loop u d n x i j) as [[d1 i1] j1] end.
  cbn [fst snd] in *. etrans; [apply Swap_Permutation|]. etrans; [exact Hp|].
  etrans; [apply Swap_Permutation|]. apply Swap_Permutation.
Qed.

Lemma pdqsort_loop_Permutation (fuel : nat) :
  forall data a b limit wasBalanced wasPartitioned sorted,
    GoSort.pdqsort_loop less random fuel data a b limit wasBalanced wasPartitioned = Some sorted ->
    sorted ≡ₚ data.
Proof.
  induction fuel as [|fuel IH]; intros data a b limit wb wp sorted.
  - simpl. destruct (_ <=? _); [intros [= <-]; apply insertionSort_func_Permutation|].
    destruct (_ =? _); [intros [= <-]; apply heapSort_func_Permutation|discriminate].
  - cbn [GoSort.pdqsort_loop].
    destruct (_ <=? _); [intros [= <-]; apply insertionSort_func_Permutation|].
    destruct (_ =? _); [intros [= <-]; apply heapSort_func_Permutation|].
    set (bp := if negb wb then _ else _).
    assert (Hbp : bp.1 ≡ₚ data).
    { subst bp. destruct (negb wb); simpl; [apply breakPatterns_func_Permutation|done]. }
    destruct bp as [data1 limit1]. simpl in Hbp.
    destruct (GoSort.choosePivot_func less data1 a b) as [pivot hint].
    set (rv := match hint with GoSort.decreasingHint => _ | _ => _ end).
    assert (Hrv : rv.1.1 ≡ₚ data).
    { subst rv. destruct hint; simpl; rewrite ?reverseRange_func_Permutation; done. }
    destruct rv as [[data2 pivot2] hint2]. simpl in Hrv.
    set (pi := match hint2 with GoSort.increasingHint => _ | _ => _ end).
    assert (Hpi : pi.1 ≡ₚ data).
    { subst pi. destruct hint2; simpl; try done.
      destruct (wb && wp); simpl; [|done].
      by rewrite partialInsertionSort_func_Permutation. }
    destruct pi as [data3 done3]. simpl in Hpi.
    destruct done3; [by intros [= <-]|].
    destruct (_ && _).
    + pose proof (partitionEqual_func_Permutation data3 a b pivot2) as Hpe.
      destruct (GoSort.partitionEqual_func less data3 a b pivot2) as [data4 mid].
      simpl in Hpe. intros Hrec. apply IH in Hrec. by rewrite Hrec, Hpe.
    + pose proof (partition_func_Permutation data3 a b pivot2) as Hpf.
      destruct (GoSort.partition_func less data3 a b pivot2) as [[data4 mid] already].
      simpl in Hpf.
      destruct (_ <? _).
      * destruct (GoSort.pdqsort_loop less random fuel data4 a mid limit1 true true)
          as [data5|] eqn:H5; [|discriminate].
        intros Hrec. apply IH in Hrec. apply IH in H5. by rewrite Hrec, H5, Hpf.
      * destruct (GoSort.pdqsort_loop less random fuel data4 (mid + 1) b limit1 true true)
          as [data5|] eqn:H5; [|discriminate].
        intros Hrec. apply IH in Hrec. apply IH in H5. by rewrite Hrec, H5, Hpf.
Qed.

Lemma Slice_Permutation (x : list A) : GoSort.Slice less random x ≡ₚ x.
Proof.
  unfold GoSort.Slice, GoSort.pdqsort_func.
  destruct (GoSort.pdqsort_loop _ _ _ _ _ _ _ _ _) as [sorted|] eqn:Hs; simpl; [|done].
  by apply pdqsort_loop_Permutation in Hs.
Qed.

End SortPermutation.

(** ** [sort.Slice]: [pdqsort_func] returns *)
Section SortReturns.
Local Open Scope nat_scope.
Context {A : Type} (less : A -> A -> bool) (random : nat -> nat -> nat).

Lemma scan_up_bounds (cond : nat -> bool) (n : nat) :
  forall i, i <= GoSort.scan_up cond n i <= i + n
            /\ (GoSort.scan_up cond n i < i + n -> cond (GoSort.scan_up cond n i) = false).
Proof.
  induction n as [|n IH]; intros i; simpl; [lia|].
  destruct (cond i) eqn:Hc.
  - destruct (IH (S i)) as [Hb Hs]. split; [lia|]. intros Hlt. apply Hs. lia.
  - split; [lia|]. done.
Qed.

Lemma scan_down_bounds (cond : nat -> bool) (n : nat) :
  forall j, n <= j ->
            j - n <= GoSort.scan_down cond n j <= j
            /\ (j - n < GoSort.scan_down cond n j -> cond (GoSort.scan_down cond n j) = false).
Proof.
  induction n as [|n IH]; intros j Hj; simpl; [lia|].
  destruct (cond j) eqn:Hc.
  - destruct (IH (j - 1) ltac:(lia)) as [Hb Hs]. split; [lia|]. intros Hlt. apply Hs. lia.
  - split; [lia|]. done.
Qed.

Lemma partition_loop_bounds (up down : list A -> nat -> bool) :
  (forall d k, up d k = false -> down d k = false -> False) ->
  forall n data i j,
    1 <= i -> i <= j + 1 ->
    i <= (GoSort.partition_loop up down n data i j).1.2
    /\ (GoSort.partition_loop up down n data i j).2 <= j
    /\ (GoSort.partition_loop up down n data i j).1.2
       <= (GoSort.partition_loop up down n data i j).2 + 1.
Proof.
  intros Hex. induction n as [|n IH]; intros data i j Hi Hij; [simpl; lia|].
  cbn [GoSort.partition_loop].
  destruct (scan_up_bounds (up data) (j + 1 - i) i) as [Hub Hus].
  set (i1 := GoSort.scan_up (up data) (j + 1 - i) i) in *.
  destruct (scan_down_bounds (down data) (j + 1 - i1) j ltac:(lia)) as [Hdb Hds].
  set (j1 := GoSort.scan_down (down data) (j + 1 - i1) j) in *.
  destruct (j1 <? i1) eqn:Hlt.
  - apply Nat.ltb_lt in Hlt. simpl. lia.
  - apply Nat.ltb_ge in Hlt.
    assert (i1 < j1).
    { destruct (decide (i1 = j1)) as [Heq|]; [|lia]. exfalso.
      apply (Hex data i1); [apply Hus; lia|]. rewrite Heq. apply Hds. lia. }
    destruct (IH (GoSort.Swap data i1 j1) (S i1) (j1 - 1) ltac:(lia) ltac:(lia))
      as (H1 & H2 & H3).
    lia.
Qed.

Lemma partitionEqual_func_mid (data : list A) (a b pivot : nat) :
  a + 1 <= b -> a + 1 <= (GoSort.partitionEqual_func less data a b pivot).2.
Proof.
  intros Hab. unfold GoSort.partitionEqual_func.
  match goal with |- context [GoSort.partition_loop ?u ?d ?n ?x ?i ?j] =>
    assert (Hex : forall d0 k, u d0 k = false -> d d0 k = false -> False)
      by (intros d0 k Hu Hd; cbv beta in *; rewrite Hd in Hu; discriminate);
    destruct (partition_loop_bounds u d Hex n x i j ltac:(lia) ltac:(lia))
      as (H1 & H2 & H3);
    destruct (GoSort.partition_loop u d n x i j) as [[d1 i1] j1] end.
  cbn [fst snd] in *. lia.
Qed.

Lemma partition_func_mid (data : list A) (a b pivot : nat) :
  a + 1 <= b ->
  a <= (GoSort.partition_func less data a b pivot).1.2 <= b - 1.
Proof.
  intros Hab. unfold GoSort.partition_func.
  set (data0 := GoSort.Swap data a pivot).
  destruct (scan_up_bounds (fun i => GoSort.Less less data0 i a) (b - 1 + 1 - (a + 1)) (a + 1))
    as [Hub Hus].
  set (i1 := GoSort.scan_up _ (b - 1 + 1 - (a + 1)) (a + 1)) in *.
  destruct (scan_down_bounds (fun j => negb (GoSort.Less less data0 j a)) (b - 1 + 1 - i1) (b - 1)
              ltac:(lia)) as [Hdb Hds].
  set (j1 := GoSort.scan_down _ (b - 1 + 1 - i1) (b - 1)) in *.
  destruct (j1 <? i1) eqn:Hlt.
  - apply Nat.ltb_lt in Hlt. cbn [fst snd]. lia.
  - apply Nat.ltb_ge in Hlt.
    assert (i1 < j1).
    { destruct (decide (i1 = j1)) as [Heq|]; [|lia]. exfalso.
      assert (Hu : GoSort.Less less data0 i1 a = false) by (apply Hus; lia).
      assert (Hd : negb (GoSort.Less less data0 j1 a) = false) by (apply Hds; lia).
      rewrite <- Heq, Hu in Hd. discriminate. }
    match goal with |- context [GoSort.partition_loop ?u ?d ?n ?x ?i ?j] =>
      assert (Hex : forall d0 k, u d0 k = false -> d d0 k = false -> False)
        by (intros d0 k Hu Hd; cbv beta in *; rewrite Hu in Hd; discriminate);
      destruct (partition_loop_bounds u d Hex n x i j ltac:(lia) ltac:(lia))
        as (H1 & H2 & H3);
      destruct (GoSort.partition_loop u d n x i j) as [[d1 i2] j2] end.
    cbn [fst snd] in *. lia.
Qed.

Lemma pdqsort_loop_returns (fuel : nat) :
  forall data a b limit wasBalanced wasPartitioned,
    b - a <= fuel ->
    is_Some (GoSort.pdqsort_loop less random fuel data a b limit wasBalanced wasPartitioned).
Proof.
  induction fuel as [|fuel IH]; intros data a b limit wb wp Hfuel.
  - simpl. destruct (b - a <=? GoSort.maxInsertion) eqn:E; [eauto|].
    apply Nat.leb_gt in E. lia.
  - cbn [GoSort.pdqsort_loop].
    destruct (b - a <=? GoSort.maxInsertion) eqn:E; [eauto|].
    apply Nat.leb_gt in E. unfold GoSort.maxInsertion in E.
    destruct (limit =? 0); [eauto|].
    destruct (if negb wb then _ else _) as [data1 limit1].
    destruct (GoSort.choosePivot_func less data1 a b) as [pivot hint].
    destruct (match hint with GoSort.decreasingHint => _ | _ => _ end) as [[data2 pivot2] hint2].
    destruct (match hint2 with GoSort.increasingHint => _ | _ => _ end) as [data3 done3].
    destruct done3; [eauto|].
    destruct (_ && _).
    + pose proof (partitionEqual_func_mid data3 a b pivot2 ltac:(lia)) as Hmid.
      destruct (GoSort.partitionEqual_func less data3 a b pivot2) as [data4 mid].
      cbn [fst snd] in Hmid. apply IH. lia.
    + pose proof (partition_func_mid data3 a b pivot2 ltac:(lia)) as Hmid.
      destruct (GoSort.partition_func less data3 a b pivot2) as [[data4 mid] already].
      cbn [fst snd] in Hmid.
      destruct (_ <? _).
      * destruct (IH data4 a mid limit1 true true ltac:(lia)) as [data5 ->].
        apply IH. lia.
      * destruct (IH data4 (mid + 1) b limit1 true true ltac:(lia)) as [data5 ->].
        apply IH. lia.
Qed.

(** [pdqsort_func] returns on every slice: the fuel given by [sort.Slice] is
    enough. *)
Lemma pdqsort_func_returns (x : list A) :
  exists sorted,
    GoSort.pdqsort_func less random x 0 (length x) (GoSort.bits_Len (length x)) = Some sorted
    /\ GoSort.Slice less random x = sorted.
Proof.
  unfold GoSort.Slice.
  destruct (pdqsort_loop_returns (length x - 0) x 0 (length x)
              (GoSort.bits_Len (length x)) true true ltac:(lia)) as [sorted Hs].
  exists sorted. unfold GoSort.pdqsort_func. rewrite Hs. done.
Qed.

End SortReturns.

(** ** [sort.Slice]: short slices are sorted by insertion *)
Section SortShort.
Local Open Scope nat_scope.
Context {A : Type} (less : A -> A -> bool) (random : nat -> nat -> nat).

Lemma scan_down_le (cond : nat -> bool) (n : nat) :
  forall j, GoSort.scan_down cond n j <= j.
Proof.
  induction n as [|n IH]; intros j; simpl; [lia|].
  destruct (cond j); [|lia]. specialize (IH (j - 1)). lia.
Qed.

(** The loop of the partitions does not depend on its fuel, once the fuel
    exceeds the distance between the two indices. *)
Lemma partition_loop_fuel (up down : list A -> nat -> bool) (n : nat) :
  forall (m : nat) (data : list A) (i j : nat),
    j + 1 - i < n -> n <= m ->
    GoSort.partition_loop up down m data i j = GoSort.partition_loop up down n data i j.
Proof.
  induction n as [|n IH]; intros m data i j Hn Hm; [lia|].
  destruct m as [|m]; [lia|]. cbn [GoSort.partition_loop].
  destruct (scan_up_bounds (up data) (j + 1 - i) i) as [Hub _].
  set (i1 := GoSort.scan_up (up data) (j + 1 - i) i) in *.
  pose proof (scan_down_le (down data) (j + 1 - i1) j) as Hj1.
  set (j1 := GoSort.scan_down (down data) (j + 1 - i1) j) in *.
  destruct (j1 <? i1) eqn:Hlt; [done|].
  apply Nat.ltb_ge in Hlt. apply IH; lia.
Qed.

Lemma Less_adjacent (p t : list A) (x y : A) :
  GoSort.Less less (p ++ y :: x :: t) (S (length p)) (length p) = less x y.
Proof.
  unfold GoSort.Less.
  rewrite (list_lookup_middle p (x :: t) y (length p)) by done.
  replace (p ++ y :: x :: t) with ((p ++ [y]) ++ x :: t) by (by rewrite <- app_assoc).
  rewrite (list_lookup_middle (p ++ [y]) t x (S (length p))); [done|].
  rewrite length_app. simpl. lia.
Qed.

Lemma Swap_adjacent (p t : list A) (x y : A) :
  GoSort.Swap (p ++ y :: x :: t) (S (length p)) (length p) = p ++ x :: y :: t.
Proof.
  unfold GoSort.Swap.
  rewrite (list_lookup_middle p (x :: t) y (length p)) by done.
  replace (p ++ y :: x :: t) with ((p ++ [y]) ++ x :: t) at 1 by (by rewrite <- app_assoc).
  rewrite (list_lookup_middle (p ++ [y]) t x (S (length p)))
    by (rewrite length_app; simpl; lia).
  rewrite (insert_app_r_alt p _ (length p)) by lia.
  rewrite Nat.sub_diag. simpl.
  rewrite (insert_app_r_alt p _ (S (length p))) by lia.
  replace (S (length p) - length p) with 1 by lia. reflexivity.
Qed.

Lemma insertion_shift_spec (p : list A) :
  forall (x : A) (t : list A),
    GoSort.insertion_shift less (length p) (p ++ x :: t) (length p)
    = rev (insertFromBack less x (rev p)) ++ t.
Proof.
  induction p as [|y q IH] using rev_ind; intros x t; [done|].
  rewrite length_app, Nat.add_1_r, rev_unit. cbn [GoSort.insertion_shift insertFromBack].
  rewrite <- app_assoc. cbn [app].
  replace (S (length q) - 1) with (length q) by lia.
  rewrite Less_adjacent. destruct (less x y).
  - rewrite Swap_adjacent, IH. cbn [rev]. by rewrite <- app_assoc.
  - cbn [rev]. rewrite rev_involutive, <- !app_assoc. reflexivity.
Qed.

Lemma insertFromBack_length (x : A) (run : list A) :
  length (insertFromBack less x run) = S (length run).
Proof.
  induction run as [|y run IH]; [done|]. simpl.
  destruct (less x y); simpl; [by rewrite IH|done].
Qed.

Lemma insertion_rounds_spec (rest : list A) :
  forall (p : list A),
    GoSort.insertion_rounds less (length rest) (p ++ rest) 0 (length p)
    = sortFrom less (rev p) rest.
Proof.
  induction rest as [|x rest IH]; intros p.
  - simpl. by rewrite app_nil_r, rev_involutive.
  - cbn [length GoSort.insertion_rounds sortFrom].
    rewrite Nat.sub_0_r, insertion_shift_spec.
    replace (S (length p)) with (length (rev (insertFromBack less x (rev p))))
      by (by rewrite length_rev, insertFromBack_length, length_rev).
    rewrite IH, rev_involutive. reflexivity.
Qed.

Lemma insertionSort_func_spec (data : list A) :
  GoSort.insertionSort_func less data 0 (length data) = stableSort less data.
Proof.
  unfold GoSort.insertionSort_func, stableSort. destruct data as [|x rest]; [done|].
  cbn [length]. replace (S (length rest) - (0 + 1)) with (length rest) by lia.
  exact (insertion_rounds_spec rest [x]).
Qed.

Lemma Slice_short (x : list A) :
  length x <= 12 -> GoSort.Slice less random x = stableSort less x.
Proof.
  intros Hlen. unfold GoSort.Slice, GoSort.pdqsort_func.
  assert (Hle : (length x - 0 <=? GoSort.maxInsertion) = true).
  { apply Nat.leb_le. unfold GoSort.maxInsertion. lia. }
  destruct (length x - 0) as [|fuel] eqn:Hf; cbn [GoSort.pdqsort_loop];
    rewrite Hf, Hle; simpl; apply insertionSort_func_spec.
Qed.

End SortShort.

(** ** Insertion sort by a key is a stable sort *)
Section StableSort.
Context {A : Type} (key : A -> Z).

Local Abbreviation less := (lessBy key).
Local Abbreviation descending := (descendingBy key).
Local Abbreviation ascending := (ascendingBy key).

Lemma insertFromBack_Permutation (x : A) (run : list A) :
  insertFromBack less x run ≡ₚ x :: run.
Proof.
  induction run as [|y run IH]; [done|]. simpl.
  destruct (less x y); [|done]. rewrite IH. apply Permutation_swap.
Qed.

Lemma sortFrom_Permutation (rest : list A) :
  forall run, sortFrom less run rest ≡ₚ run ++ rest.
Proof.
  induction rest as [|x rest IH]; intros run; simpl.
  - rewrite app_nil_r. symmetry. apply Permutation_rev.
  - rewrite IH, insertFromBack_Permutation. apply Permutation_middle.
Qed.

Lemma insertFromBack_descending (x : A) (run : list A) :
  StronglySorted descending run -> StronglySorted descending (insertFromBack less x run).
Proof.
  induction run as [|y run IH]; intros Hs; simpl.
  - repeat constructor.
  - apply StronglySorted_cons in Hs as [Hall Hs].
    unfold lessBy at 1. destruct (key x <? key y) eqn:E.
    + apply Z.ltb_lt in E. constructor; [by apply IH|].
      rewrite insertFromBack_Permutation. constructor; [unfold descendingBy; lia|done].
    + apply Z.ltb_ge in E. constructor; [by constructor|].
      constructor; [done|]. eapply Forall_impl; [exact Hall|].
      unfold descendingBy. intros z Hz. lia.
Qed.

Lemma rev_ascending (run : list A) :
  StronglySorted descending run -> StronglySorted ascending (rev run).
Proof.
  induction 1 as [|y run Hs IH Hall]; simpl; [constructor|].
  apply StronglySorted_app_2; [|done|repeat constructor].
  intros x1 x2 Hx1 Hx2. apply list_elem_of_singleton in Hx2 as ->.
  rewrite Forall_forall in Hall. apply Hall.
  apply list_elem_of_In. apply in_rev. by apply list_elem_of_In.
Qed.

Lemma sortFrom_ascending (rest : list A) :
  forall run, StronglySorted descending run -> StronglySorted ascending (sortFrom less run rest).
Proof.
  induction rest as [|x rest IH]; intros run Hs; simpl.
  - by apply rev_ascending.
  - by apply IH, insertFromBack_descending.
Qed.

Lemma insertFromBack_filter (k : Z) (x : A) (run : list A) :
  List.filter (fun a => key a =? k) (rev (insertFromBack less x run))
  = List.filter (fun a => key a =? k) (rev run ++ [x]).
Proof.
  induction run as [|y run IH]; [done|]. simpl.
  unfold lessBy at 1. destruct (key x <? key y) eqn:E; [|simpl; by rewrite <- app_assoc].
  apply Z.ltb_lt in E. simpl.
  rewrite !List.filter_app, IH, !List.filter_app, <- !app_assoc. f_equal. simpl.
  destruct (key x =? k) eqn:Ex; destruct (key y =? k) eqn:Ey; try reflexivity.
  apply Z.eqb_eq in Ex, Ey. lia.
Qed.

Lemma sortFrom_filter (k : Z) (rest : list A) :
  forall run,
    List.filter (fun a => key a =? k) (sortFrom less run rest)
    = List.filter (fun a => key a =? k) (rev run ++ rest).
Proof.
  induction rest as [|x rest IH]; intros run; simpl.
  - by rewrite app_nil_r.
  - rewrite IH, !List.filter_app, insertFromBack_filter, List.filter_app, <- app_assoc.
    f_equal. simpl. by destruct (key x =? k).
Qed.

(** The insertion sort is a stable sort: its result is in ascending order
    of the keys, it is a permutation of its argument, and elements with the
    same key keep their order. *)
Lemma stableSort_spec (l : list A) :
  StronglySorted ascending (stableSort less l)
  /\ stableSort less l ≡ₚ l
  /\ forall k, List.filter (fun a => key a =? k) (stableSort less l)
               = List.filter (fun a => key a =? k) l.
Proof.
  unfold stableSort. split; [|split].
  - apply sortFrom_ascending. constructor.
  - apply sortFrom_Permutation.
  - intros k. apply sortFrom_filter.
Qed.

End StableSort.


(** ** [sort.Slice]: the slice is sorted *)
Section SortRanges.
Local Open Scope nat_scope.
Context {A : Type} (key : A -> Z).

Local Abbreviation less := (lessBy key).
Local Abbreviation K := (keyAt key).

Lemma keyAt_lookup (data : list A) (i : nat) (x : A) :
  data !! i = Some x -> K data i = key x.
Proof.
  intros Hx. unfold keyAt. apply nth_lookup_Some. by rewrite list_lookup_fmap, Hx.
Qed.

Lemma Less_keyAt (data : list A) (i j : nat) :
  i < length data -> j < length data ->
  GoSort.Less less data i j = (K data i <? K data j)%Z.
Proof.
  intros Hi Hj. unfold GoSort.Less.
  destruct (lookup_lt_is_Some_2 data i Hi) as [x Hx].
  destruct (lookup_lt_is_Some_2 data j Hj) as [y Hy].
  by rewrite Hx, Hy, (keyAt_lookup _ _ _ Hx), (keyAt_lookup _ _ _ Hy).
Qed.

Lemma keyAt_Swap (data : list A) (i j k : nat) :
  i < length data -> j < length data ->
  K (GoSort.Swap data i j) k
  = if decide (k = i) then K data j else if decide (k = j) then K data i else K data k.
Proof.
  intros Hi Hj. unfold GoSort.Swap.
  destruct (lookup_lt_is_Some_2 data i Hi) as [x Hx].
  destruct (lookup_lt_is_Some_2 data j Hj) as [y Hy].
  rewrite Hx, Hy. unfold keyAt. rewrite !nth_lookup, !list_lookup_fmap.
  rewrite !list_lookup_insert, length_insert.
  repeat case_decide; subst; try lia; rewrite ?Hx, ?Hy; try done.
Qed.

Lemma rearranged_refl (a b : nat) (data : list A) : rearranged a b data data.
Proof. by repeat split. Qed.

Lemma rearranged_trans (a b : nat) (d1 d2 d3 : list A) :
  rearranged a b d1 d2 -> rearranged a b d2 d3 -> rearranged a b d1 d3.
Proof.
  intros (Hp1 & Ht1 & Hd1) (Hp2 & Ht2 & Hd2).
  split; [by rewrite Hp2|]. split; congruence.
Qed.

Lemma rearranged_length (a b : nat) (d1 d2 : list A) :
  rearranged a b d1 d2 -> length d2 = length d1.
Proof. intros (Hp & _). by apply Permutation_length. Qed.

Lemma rearranged_mono (a b a' b' : nat) (d1 d2 : list A) :
  a <= a' -> b' <= b -> rearranged a' b' d1 d2 -> rearranged a b d1 d2.
Proof.
  intros Ha Hb (Hp & Ht & Hd). split; [done|]. split.
  - rewrite <- (Nat.min_l a a') by done. rewrite <- !take_take. by rewrite Ht.
  - replace b with (b' + (b - b')) by lia. rewrite <- !drop_drop. by rewrite Hd.
Qed.

Lemma rearranged_Swap (a b : nat) (data : list A) (i j : nat) :
  a <= i < b -> a <= j < b -> rearranged a b data (GoSort.Swap data i j).
Proof.
  intros Hi Hj. split; [apply Swap_Permutation|].
  unfold GoSort.Swap.
  destruct (data !! i) as [x|]; [|done]. destruct (data !! j) as [y|]; [|done].
  split.
  - by rewrite !take_insert_ge by lia.
  - by rewrite !drop_insert_lt by lia.
Qed.

Lemma rearranged_outside (a b : nat) (d1 d2 : list A) (i : nat) :
  rearranged a b d1 d2 -> i < a \/ b <= i -> K d2 i = K d1 i.
Proof.
  intros (Hp & Ht & Hd) Hi. unfold keyAt. rewrite !nth_lookup, !list_lookup_fmap.
  f_equal. f_equal. destruct Hi as [Hi|Hi].
  - rewrite <- (lookup_take_lt d2 a i), <- (lookup_take_lt d1 a i) by done. by rewrite Ht.
  - replace i with (b + (i - b)) by lia. rewrite <- !lookup_drop. by rewrite Hd.
Qed.

Lemma rearranged_segment (a b : nat) (d1 d2 : list A) :
  rearranged a b d1 d2 -> take (b - a) (drop a d2) ≡ₚ take (b - a) (drop a d1).
Proof.
  intros (Hp & Ht & Hd).
  destruct (decide (a <= b)) as [Hab|Hab].
  2:{ replace (b - a) with 0 by lia. by rewrite !take_0. }
  assert (Hsplit : forall d : list A,
             d = take a d ++ take (b - a) (drop a d) ++ drop b d).
  { intros d. rewrite <- (take_drop a d) at 1. f_equal.
    rewrite <- (take_drop (b - a) (drop a d)) at 1. f_equal.
    rewrite drop_drop. f_equal. lia. }
  rewrite (Hsplit d1) in Hp at 1. rewrite (Hsplit d2) in Hp at 1.
  rewrite Ht, Hd in Hp.
  apply Permutation_app_inv_l in Hp. by apply Permutation_app_inv_r in Hp.
Qed.

Lemma allBetween_segment (P : Z -> Prop) (data : list A) (a b : nat) :
  a <= b -> b <= length data ->
  allBetween key P data a b
  <-> Forall (fun x => P (key x)) (take (b - a) (drop a data)).
Proof.
  intros Hab Hb. rewrite Forall_lookup. unfold allBetween. split.
  - intros Hall i x Hx. apply lookup_take_Some in Hx as [Hx Hi].
    rewrite lookup_drop in Hx. rewrite <- (keyAt_lookup _ _ _ Hx). apply Hall; lia.
  - intros Hall i Hai Hib.
    destruct (lookup_lt_is_Some_2 data i ltac:(lia)) as [x Hx].
    rewrite (keyAt_lookup _ _ _ Hx). apply (Hall (i - a)).
    apply lookup_take_Some. split; [|lia]. rewrite lookup_drop.
    by replace (a + (i - a)) with i by lia.
Qed.

Lemma rearranged_allBetween (P : Z -> Prop) (a b : nat) (d1 d2 : list A) :
  rearranged a b d1 d2 -> a <= b -> b <= length d1 ->
  allBetween key P d1 a b -> allBetween key P d2 a b.
Proof.
  intros Hr Hab Hb. rewrite !allBetween_segment; try done.
  - by rewrite (rearranged_segment a b d1 d2 Hr).
  - by rewrite (rearranged_length a b d1 d2 Hr).
Qed.

Lemma allBetween_mono (P : Z -> Prop) (data : list A) (a b a' b' : nat) :
  a <= a' -> b' <= b -> allBetween key P data a b -> allBetween key P data a' b'.
Proof. intros Ha Hb Hall i Hi1 Hi2. apply Hall; lia. Qed.

Lemma sortedRange_outside (a b a' b' : nat) (d1 d2 : list A) :
  rearranged a' b' d1 d2 -> b <= a' \/ b' <= a ->
  sortedRange key d1 a b -> sortedRange key d2 a b.
Proof.
  intros Hr Hdisj Hs i j Hi Hij Hj.
  rewrite !(rearranged_outside a' b' d1 d2) by (done || lia). by apply Hs.
Qed.

Lemma rearranged_boundedBelow (a b : nat) (d1 d2 : list A) :
  rearranged a b d1 d2 -> a <= b -> b <= length d1 ->
  boundedBelow key d1 a b -> boundedBelow key d2 a b.
Proof.
  intros Hr Hab Hb [Ha|Hall]; [by left|].
  destruct (decide (a = 0)) as [|Hne]; [by left|]. right.
  rewrite (rearranged_outside a b d1 d2) by (done || lia).
  by apply (rearranged_allBetween _ a b d1 d2).
Qed.

End SortRanges.

(** *** [insertionSort_func] on a range [a, b) *)
Section SortInsertion.
Local Open Scope nat_scope.
Context {A : Type} (key : A -> Z).

Local Abbreviation less := (lessBy key).
Local Abbreviation K := (keyAt key).

Lemma insertion_shift_range (pre p : list A) :
  forall (x : A) (t : list A),
    GoSort.insertion_shift less (length p) (pre ++ p ++ x :: t) (length pre + length p)
    = pre ++ rev (insertFromBack less x (rev p)) ++ t.
Proof.
  induction p as [|y q IH] using rev_ind; intros x t.
  - simpl. reflexivity.
  - rewrite length_app, Nat.add_1_r, rev_unit. cbn [GoSort.insertion_shift insertFromBack].
    replace (length pre + S (length q)) with (S (length (pre ++ q)))
      by (rewrite length_app; lia).
    replace (S (length (pre ++ q)) - 1) with (length (pre ++ q)) by lia.
    replace (pre ++ (q ++ [y]) ++ x :: t) with ((pre ++ q) ++ y :: x :: t)
      by (by rewrite <- !app_assoc).
    rewrite Less_adjacent. destruct (lessBy key x y).
    + rewrite Swap_adjacent.
      replace ((pre ++ q) ++ x :: y :: t) with (pre ++ q ++ x :: (y :: t))
        by (by rewrite <- !app_assoc).
      replace (length (pre ++ q)) with (length pre + length q) by (by rewrite length_app).
      rewrite IH. cbn [rev]. by rewrite <- !app_assoc.
    + cbn [rev]. rewrite rev_involutive, <- !app_assoc. reflexivity.
Qed.

Lemma insertion_rounds_range (pre post rest : list A) :
  forall (p : list A),
    GoSort.insertion_rounds less (length rest) (pre ++ p ++ rest ++ post)
                            (length pre) (length pre + length p)
    = pre ++ sortFrom less (rev p) rest ++ post.
Proof.
  induction rest as [|x rest IH]; intros p.
  - simpl. by rewrite rev_involutive.
  - cbn [length GoSort.insertion_rounds sortFrom].
    replace (length pre + length p - length pre) with (length p) by lia.
    cbn [app]. rewrite insertion_shift_range.
    replace (S (length pre + length p))
      with (length pre + length (rev (insertFromBack less x (rev p))))
      by (rewrite length_rev, insertFromBack_length, length_rev; lia).
    rewrite IH, rev_involutive. reflexivity.
Qed.

Lemma insertionSort_func_range (pre mid post : list A) :
  GoSort.insertionSort_func less (pre ++ mid ++ post) (length pre) (length pre + length mid)
  = pre ++ stableSort less mid ++ post.
Proof.
  unfold GoSort.insertionSort_func, stableSort. destruct mid as [|x rest].
  - simpl. replace (length pre + 0 - (length pre + 1)) with 0 by lia. reflexivity.
  - cbn [length]. replace (length pre + S (length rest) - (length pre + 1)) with (length rest) by lia.
    exact (insertion_rounds_range pre post rest [x]).
Qed.

Lemma keyAt_app_r (pre l : list A) (i : nat) :
  K (pre ++ l) (length pre + i) = K l i.
Proof.
  unfold keyAt. rewrite !nth_lookup, !list_lookup_fmap.
  rewrite lookup_app_r by lia. do 3 f_equal. lia.
Qed.

Lemma keyAt_app_l (l post : list A) (i : nat) :
  i < length l -> K (l ++ post) i = K l i.
Proof.
  intros Hi. unfold keyAt. rewrite !nth_lookup, !list_lookup_fmap.
  by rewrite lookup_app_l.
Qed.

Lemma StronglySorted_keyAt (l : list A) :
  StronglySorted (ascendingBy key) l ->
  forall i j, i <= j -> j < length l -> (K l i <= K l j)%Z.
Proof.
  induction 1 as [|x l Hs IH Hall]; intros i j Hij Hj; [simpl in Hj; lia|].
  destruct i as [|i], j as [|j]; try lia.
  - simpl in Hj. rewrite Forall_lookup in Hall.
    destruct (lookup_lt_is_Some_2 l j ltac:(lia)) as [y Hy].
    change (K (x :: l) 0) with (key x). change (K (x :: l) (S j)) with (K l j).
    rewrite (keyAt_lookup key l j y Hy). exact (Hall j y Hy).
  - simpl in Hj. change (K (x :: l) (S i)) with (K l i).
    change (K (x :: l) (S j)) with (K l j). apply IH; lia.
Qed.

Lemma split_range (data : list A) (a b : nat) :
  a <= b -> b <= length data ->
  data = take a data ++ take (b - a) (drop a data) ++ drop b data
  /\ length (take a data) = a
  /\ length (take (b - a) (drop a data)) = b - a.
Proof.
  intros Hab Hb. split; [|split].
  - rewrite <- (take_drop a data) at 1. f_equal.
    rewrite <- (take_drop (b - a) (drop a data)) at 1. f_equal.
    rewrite drop_drop. f_equal. lia.
  - rewrite length_take. lia.
  - rewrite length_take, length_drop. lia.
Qed.

Lemma insertionSort_func_sorts (data : list A) (a b : nat) :
  a <= b -> b <= length data ->
  rearranged a b data (GoSort.insertionSort_func less data a b)
  /\ sortedRange key (GoSort.insertionSort_func less data a b) a b.
Proof.
  intros Hab Hb.
  destruct (split_range data a b Hab Hb) as (Hdata & Hpre & Hmid).
  set (pre := take a data) in *. set (mid := take (b - a) (drop a data)) in *.
  set (post := drop b data) in *.
  destruct (stableSort_spec key mid) as (Hsorted & Hperm & _).
  assert (Hrun : GoSort.insertionSort_func less data a b = pre ++ stableSort less mid ++ post).
  { rewrite Hdata at 1. pose proof (insertionSort_func_range pre mid post) as Hr.
    rewrite Hpre, Hmid in Hr. replace (a + (b - a)) with b in Hr by lia. exact Hr. }
  assert (Hlen : length (stableSort less mid) = b - a).
  { rewrite <- Hmid. by apply Permutation_length. }
  rewrite Hrun. split.
  - split; [|split].
    + transitivity (pre ++ mid ++ post); [by rewrite Hperm|by rewrite <- Hdata].
    + by rewrite take_app_length'.
    + rewrite app_assoc. apply drop_app_length'. rewrite length_app. lia.
  - intros i j Hi Hij Hj.
    replace i with (length pre + (i - a)) by lia.
    replace j with (length pre + (j - a)) by lia.
    rewrite !keyAt_app_r, !keyAt_app_l by lia.
    apply StronglySorted_keyAt; [done|lia|lia].
Qed.

End SortInsertion.

(** *** [reverseRange_func], [breakPatterns_func] and [choosePivot_func] stay in the range *)
Section SortInRange.
Local Open Scope nat_scope.
Context {A : Type} (less : A -> A -> bool) (random : nat -> nat -> nat).

Lemma quarter_bounds (l : nat) : 4 * (l / 4) <= l /\ l < 4 * (l / 4) + 4.
Proof.
  pose proof (Nat.div_mod_eq l 4) as Hdm.
  pose proof (Nat.mod_upper_bound l 4 ltac:(lia)) as Hm. lia.
Qed.

Lemma reverseRange_loop_rearranged (a b n : nat) :
  forall (data : list A) (i j : nat),
    a <= i -> j < b -> rearranged a b data (GoSort.reverseRange_loop n data i j).
Proof.
  induction n as [|n IH]; intros data i j Hi Hj; simpl; [apply rearranged_refl|].
  destruct (i <? j) eqn:E; [|apply rearranged_refl]. apply Nat.ltb_lt in E.
  eapply rearranged_trans; [apply (rearranged_Swap a b data i j); lia|].
  apply IH; lia.
Qed.

Lemma reverseRange_func_rearranged (data : list A) (a b : nat) :
  a < b -> rearranged a b data (GoSort.reverseRange_func data a b).
Proof. intros Hab. apply reverseRange_loop_rearranged; lia. Qed.

Lemma foldl_rearranged {B} (a b : nat) (f : list A -> B -> list A) (l : list B) :
  (forall d x, x ∈ l -> rearranged a b d (f d x)) ->
  forall data, rearranged a b data (foldl f data l).
Proof.
  induction l as [|x l IH]; intros Hf data; simpl; [apply rearranged_refl|].
  eapply rearranged_trans; [apply Hf; by left|].
  apply IH. intros d y Hy. apply Hf. by right.
Qed.

Lemma nextPowerOfTwo_bound (l : nat) :
  0 < l -> 0 < GoSort.nextPowerOfTwo l <= 2 * l.
Proof.
  intros Hl. unfold GoSort.nextPowerOfTwo, GoSort.bits_Len.
  destruct l as [|l']; [lia|].
  destruct (Nat.log2_spec (S l') ltac:(lia)) as [Hlo Hhi].
  pose proof (Nat.pow_nonzero 2 (Nat.log2 (S l')) ltac:(lia)) as Hnz.
  rewrite Nat.pow_succ_r'. lia.
Qed.

Lemma breakPatterns_func_rearranged (data : list A) (a b : nat) :
  rearranged a b data (GoSort.breakPatterns_func random data a b).
Proof.
  unfold GoSort.breakPatterns_func.
  destruct (8 <=? b - a) eqn:E; [|apply rearranged_refl]. apply Nat.leb_le in E.
  apply foldl_rearranged. intros d i Hi.
  apply elem_of_seq in Hi.
  destruct (quarter_bounds (b - a)) as [Hq1 Hq2].
  destruct (nextPowerOfTwo_bound (b - a) ltac:(lia)) as [Hp1 Hp2].
  pose proof (Nat.mod_upper_bound (random (b - a) i) (GoSort.nextPowerOfTwo (b - a))
                ltac:(lia)) as Hm.
  apply rearranged_Swap; [lia|].
  destruct (b - a <=? _) eqn:E2; [apply Nat.leb_le in E2|apply Nat.leb_gt in E2]; lia.
Qed.

Lemma median_func_result (data : list A) (a b c swaps : nat) :
  (GoSort.median_func less data a b c swaps).1 = a
  \/ (GoSort.median_func less data a b c swaps).1 = b
  \/ (GoSort.median_func less data a b c swaps).1 = c.
Proof.
  unfold GoSort.median_func, GoSort.order2_func.
  repeat match goal with |- context [if ?x then _ else _] => destruct x end; simpl; tauto.
Qed.

Lemma choosePivot_func_range (data : list A) (a b : nat) :
  a < b -> a <= (GoSort.choosePivot_func less data a b).1 < b.
Proof.
  intros Hab. unfold GoSort.choosePivot_func.
  destruct (quarter_bounds (b - a)) as [Hq1 Hq2].
  set (q := (b - a) / 4) in *.
  assert (Hres : forall j s, a <= j < b ->
            a <= (if s =? 0 then (j, GoSort.increasingHint)
                  else if s =? GoSort.maxSwaps then (j, GoSort.decreasingHint)
                  else (j, GoSort.unknownHint)).1 < b).
  { intros j s Hj. by repeat destruct (_ =? _). }
  destruct (8 <=? b - a) eqn:E8.
  - apply Nat.leb_le in E8.
    destruct (GoSort.shortestNinther <=? b - a) eqn:E50.
    + apply Nat.leb_le in E50. unfold GoSort.shortestNinther in E50.
      unfold GoSort.medianAdjacent_func.
      pose proof (median_func_result data (a + q * 1 - 1) (a + q * 1) (a + q * 1 + 1) 0) as H1.
      destruct (GoSort.median_func less data (a + q * 1 - 1) (a + q * 1) (a + q * 1 + 1) 0)
        as [i s1]. simpl in H1.
      pose proof (median_func_result data (a + q * 2 - 1) (a + q * 2) (a + q * 2 + 1) s1) as H2.
      destruct (GoSort.median_func less data (a + q * 2 - 1) (a + q * 2) (a + q * 2 + 1) s1)
        as [j s2]. simpl in H2.
      pose proof (median_func_result data (a + q * 3 - 1) (a + q * 3) (a + q * 3 + 1) s2) as H3.
      destruct (GoSort.median_func less data (a + q * 3 - 1) (a + q * 3) (a + q * 3 + 1) s2)
        as [k s3]. simpl in H3.
      pose proof (median_func_result data i j k s3) as H4.
      destruct (GoSort.median_func less data i j k s3) as [m s4]. simpl in H4.
      apply Hres. lia.
    + pose proof (median_func_result data (a + q * 1) (a + q * 2) (a + q * 3) 0) as H4.
      destruct (GoSort.median_func less data (a + q * 1) (a + q * 2) (a + q * 3) 0) as [m s4].
      simpl in H4. apply Hres. lia.
  - apply Nat.leb_gt in E8. apply Hres. lia.
Qed.

End SortInRange.

(** *** [partition_func] and [partitionEqual_func] *)
Section SortPartition.
Local Open Scope nat_scope.
Context {A : Type} (key : A -> Z).

Local Abbreviation less := (lessBy key).
Local Abbreviation K := (keyAt key).

Lemma scan_up_passed (cond : nat -> bool) (n : nat) :
  forall i k, i <= k < GoSort.scan_up cond n i -> cond k = true.
Proof.
  induction n as [|n IH]; intros i k Hk; simpl in Hk; [lia|].
  destruct (cond i) eqn:Hc; [|lia].
  destruct (decide (k = i)) as [->|]; [done|]. apply (IH (S i)). lia.
Qed.

Lemma scan_down_passed (cond : nat -> bool) (n : nat) :
  forall j k, n <= j -> GoSort.scan_down cond n j < k <= j -> cond k = true.
Proof.
  induction n as [|n IH]; intros j k Hn Hk; simpl in Hk; [lia|].
  destruct (cond j) eqn:Hc; [|lia].
  destruct (decide (k = j)) as [->|]; [done|]. apply (IH (j - 1)); lia.
Qed.

Section Loop.
Variables (up down : list A -> nat -> bool) (phi : Z -> bool).
Variables (a b L : nat) (p : Z) (data0 : list A).
Hypothesis Hb : b <= L.
Hypothesis Hcond :
  forall d k, length d = L -> K d a = p -> a < k < b ->
              up d k = phi (K d k) /\ down d k = negb (phi (K d k)).

Lemma partition_loop_spec (n : nat) :
  forall (d : list A) (i j : nat),
    a + 1 <= i -> i <= j + 1 -> j < b -> j + 1 - i < n ->
    length d = L -> K d a = p ->
    (forall k, a < k < i -> phi (K d k) = true) ->
    (forall k, j < k < b -> phi (K d k) = false) ->
    rearranged a b data0 d ->
    exists d' i' j',
      GoSort.partition_loop up down n d i j = (d', i', j')
      /\ i' = j' + 1 /\ a + 1 <= i' /\ j' < b
      /\ length d' = L /\ K d' a = p
      /\ (forall k, a < k < i' -> phi (K d' k) = true)
      /\ (forall k, j' < k < b -> phi (K d' k) = false)
      /\ rearranged a b data0 d'.
Proof.
  induction n as [|n IH]; intros d i j Hi Hij Hj Hn Hlen Hp Hlo Hhi Hr; [lia|].
  cbn [GoSort.partition_loop].
  destruct (scan_up_bounds (up d) (j + 1 - i) i) as [Hub Hus].
  pose proof (scan_up_passed (up d) (j + 1 - i) i) as Hup.
  set (i1 := GoSort.scan_up (up d) (j + 1 - i) i) in *.
  destruct (scan_down_bounds (down d) (j + 1 - i1) j ltac:(lia)) as [Hdb Hds].
  pose proof (scan_down_passed (down d) (j + 1 - i1) j) as Hdp.
  set (j1 := GoSort.scan_down (down d) (j + 1 - i1) j) in *.
  assert (Hlo1 : forall k, a < k < i1 -> phi (K d k) = true).
  { intros k Hk. destruct (decide (k < i)) as [|Hge]; [apply Hlo; lia|].
    destruct (Hcond d k Hlen Hp ltac:(lia)) as [<- _]. apply Hup. lia. }
  assert (Hhi1 : forall k, j1 < k < b -> phi (K d k) = false).
  { intros k Hk. destruct (decide (j < k)) as [|Hle]; [apply Hhi; lia|].
    destruct (Hcond d k Hlen Hp ltac:(lia)) as [_ Hd].
    rewrite (Hdp k ltac:(lia) ltac:(lia)) in Hd. by destruct (phi (K d k)). }
  destruct (j1 <? i1) eqn:Hlt.
  - apply Nat.ltb_lt in Hlt. exists d, i1, j1.
    split; [reflexivity|]. split; [lia|]. split; [lia|]. split; [lia|].
    split; [done|]. split; [done|]. split; [done|]. split; done.
  - apply Nat.ltb_ge in Hlt.
    assert (Hi1 : phi (K d i1) = false).
    { destruct (Hcond d i1 Hlen Hp ltac:(lia)) as [<- _]. apply Hus. lia. }
    assert (Hj1 : phi (K d j1) = true).
    { destruct (Hcond d j1 Hlen Hp ltac:(lia)) as [_ Hd].
      rewrite (Hds ltac:(lia)) in Hd. by destruct (phi (K d j1)). }
    assert (i1 < j1).
    { destruct (decide (i1 = j1)) as [Heq|]; [|lia]. rewrite Heq in Hi1. congruence. }
    apply IH; try lia.
    + by rewrite Swap_length.
    + rewrite keyAt_Swap by lia. repeat case_decide; subst; try lia; done.
    + intros k Hk. rewrite keyAt_Swap by lia.
      repeat case_decide; subst; try lia; first [done|apply Hlo1; lia].
    + intros k Hk. rewrite keyAt_Swap by lia.
      repeat case_decide; subst; try lia; first [done|apply Hhi1; lia].
    + eapply rearranged_trans; [exact Hr|]. apply rearranged_Swap; lia.
Qed.

End Loop.

Lemma partition_loop_S (up down : list A -> nat -> bool) (n : nat)
    (d : list A) (i j : nat) :
  GoSort.partition_loop up down (S n) d i j
  = let i1 := GoSort.scan_up (up d) (j + 1 - i) i in
    let j1 := GoSort.scan_down (down d) (j + 1 - i1) j in
    if j1 <? i1 then (d, i1, j1)
    else GoSort.partition_loop up down n (GoSort.Swap d i1 j1) (S i1) (j1 - 1).
Proof. reflexivity. Qed.

Lemma partition_func_unfold (data : list A) (a b pivot : nat) :
  a < b ->
  (GoSort.partition_func less data a b pivot).1
  = let '(d, i, j) :=
      GoSort.partition_loop (fun d i => GoSort.Less less d i a)
                            (fun d j => negb (GoSort.Less less d j a))
                            (S (S (b - a))) (GoSort.Swap data a pivot) (a + 1) (b - 1) in
    (GoSort.Swap d j a, j).
Proof.
  intros Hab. unfold GoSort.partition_func.
  rewrite (partition_loop_S _ _ (S (b - a))). cbv zeta.
  set (d0 := GoSort.Swap data a pivot).
  destruct (scan_up_bounds (fun i => GoSort.Less less d0 i a) (b - 1 + 1 - (a + 1)) (a + 1))
    as [Hi1 _].
  set (i1 := GoSort.scan_up _ _ (a + 1)) in *.
  pose proof (scan_down_le (fun j => negb (GoSort.Less less d0 j a)) (b - 1 + 1 - i1) (b - 1))
    as Hj1.
  set (j1 := GoSort.scan_down _ _ (b - 1)) in *.
  destruct (j1 <? i1) eqn:Hlt; [reflexivity|].
  rewrite (partition_loop_fuel _ _ (S (j1 - 1 + 1 - S i1)) (S (b - a))) by lia.
  by destruct (GoSort.partition_loop _ _ _ _ _ _) as [[d i] j].
Qed.

Lemma partition_func_spec (data : list A) (a b pivot : nat) :
  a < b -> b <= length data -> a <= pivot < b ->
  exists d' mid already,
    GoSort.partition_func less data a b pivot = (d', mid, already)
    /\ rearranged a b data d'
    /\ a <= mid < b
    /\ allBetween key (fun k => k < K d' mid)%Z d' a mid
    /\ allBetween key (fun k => K d' mid <= k)%Z d' (mid + 1) b.
Proof.
  intros Hab Hb Hpivot.
  pose proof (partition_func_unfold data a b pivot Hab) as Hun.
  set (d0 := GoSort.Swap data a pivot) in *.
  set (p := K data pivot).
  assert (Hlen0 : length d0 = length data) by apply Swap_length.
  assert (Hp0 : K d0 a = p).
  { unfold d0. rewrite keyAt_Swap by lia. by rewrite decide_True. }
  assert (Hc : forall d k, length d = length data -> K d a = p -> a < k < b ->
             GoSort.Less less d k a = (K d k <? p)%Z
             /\ negb (GoSort.Less less d k a) = negb (K d k <? p)%Z).
  { intros d k Hlen Hp Hk. rewrite Less_keyAt, Hp by lia. done. }
  assert (Hr0 : rearranged a b data d0) by (apply rearranged_Swap; lia).
  destruct (partition_loop_spec
              (fun d i => GoSort.Less less d i a) (fun d j => negb (GoSort.Less less d j a))
              (fun k => (k <? p)%Z) a b (length data) p data Hb Hc
              (S (S (b - a))) d0 (a + 1) (b - 1)
              ltac:(lia) ltac:(lia) ltac:(lia) ltac:(lia) Hlen0 Hp0
              ltac:(intros; lia) ltac:(intros; lia) Hr0)
    as (d1 & i1 & j1 & Hloop & Hij & Hi1 & Hj1 & Hlen1 & Hp1 & Hlo & Hhi & Hr).
  rewrite Hloop in Hun.
  destruct (GoSort.partition_func less data a b pivot) as [[d' mid] already].
  simpl in Hun. injection Hun as -> ->.
  exists (GoSort.Swap d1 j1 a), j1, already. split; [reflexivity|].
  assert (Hmid : K (GoSort.Swap d1 j1 a) j1 = p).
  { rewrite keyAt_Swap by lia. by rewrite decide_True. }
  rewrite Hmid. split; [|split; [lia|split]].
  + eapply rearranged_trans; [exact Hr|]. apply rearranged_Swap; lia.
  + intros k Hk1 Hk2. rewrite keyAt_Swap by lia.
    repeat case_decide; subst; try lia; apply Z.ltb_lt, Hlo; lia.
  + intros k Hk1 Hk2. rewrite keyAt_Swap by lia.
    repeat case_decide; subst; try lia; apply Z.ltb_ge, Hhi; lia.
Qed.

Lemma partitionEqual_func_spec (data : list A) (a b pivot : nat) :
  a < b -> b <= length data -> a <= pivot < b ->
  exists d' mid,
    GoSort.partitionEqual_func less data a b pivot = (d', mid)
    /\ rearranged a b data d'
    /\ a + 1 <= mid <= b
    /\ allBetween key (fun k => k <= K data pivot)%Z d' a mid
    /\ allBetween key (fun k => K data pivot < k)%Z d' mid b.
Proof.
  intros Hab Hb Hpivot. unfold GoSort.partitionEqual_func.
  set (d0 := GoSort.Swap data a pivot) in *.
  set (p := K data pivot).
  assert (Hlen0 : length d0 = length data) by apply Swap_length.
  assert (Hp0 : K d0 a = p).
  { unfold d0. rewrite keyAt_Swap by lia. by rewrite decide_True. }
  assert (Hc : forall d k, length d = length data -> K d a = p -> a < k < b ->
             negb (GoSort.Less less d a k) = negb (p <? K d k)%Z
             /\ GoSort.Less less d a k = negb (negb (p <? K d k)%Z)).
  { intros d k Hlen Hp Hk. rewrite Less_keyAt, Hp by lia.
    split; [done|]. by rewrite negb_involutive. }
  assert (Hr0 : rearranged a b data d0) by (apply rearranged_Swap; lia).
  destruct (partition_loop_spec
              (fun d i => negb (GoSort.Less less d a i)) (fun d j => GoSort.Less less d a j)
              (fun k => negb (p <? k)%Z) a b (length data) p data Hb Hc
              (S (b - 1 + 1 - (a + 1))) d0 (a + 1) (b - 1)
              ltac:(lia) ltac:(lia) ltac:(lia) ltac:(lia) Hlen0 Hp0
              ltac:(intros; lia) ltac:(intros; lia) Hr0)
    as (d1 & i1 & j1 & Hloop & Hij & Hi1 & Hj1 & Hlen1 & Hp1 & Hlo & Hhi & Hr).
  rewrite Hloop. exists d1, i1. split; [reflexivity|].
  split; [exact Hr|]. split; [lia|]. split.
  - intros k Hk1 Hk2. destruct (decide (k = a)) as [->|]; [rewrite Hp1; lia|].
    specialize (Hlo k ltac:(lia)). apply negb_true_iff, Z.ltb_ge in Hlo. exact Hlo.
  - intros k Hk1 Hk2. specialize (Hhi k ltac:(lia)).
    apply negb_false_iff, Z.ltb_lt in Hhi. exact Hhi.
Qed.

End SortPartition.

(** *** [partialInsertionSort_func] *)
Section SortPartial.
Local Open Scope nat_scope.
Context {A : Type} (key : A -> Z).

Local Abbreviation less := (lessBy key).
Local Abbreviation K := (keyAt key).

Lemma sortedRange_extend (d : list A) (a i : nat) :
  a < i -> sortedRange key d a i -> (K d (i - 1) <= K d i)%Z -> sortedRange key d a (S i).
Proof.
  intros Hai Hs Hk x y Hx Hxy Hy.
  destruct (decide (y = i)) as [->|]; [|apply Hs; lia].
  destruct (decide (x = i)) as [->|]; [lia|].
  etrans; [apply (Hs x (i - 1)); lia|exact Hk].
Qed.

Lemma skip_ordered_spec (a : nat) (n : nat) :
  forall (d : list A) (i : nat),
    a < i -> i + n <= length d -> sortedRange key d a i ->
    i <= GoSort.skip_ordered less n d i <= i + n
    /\ sortedRange key d a (GoSort.skip_ordered less n d i).
Proof.
  induction n as [|n IH]; intros d i Hai Hlen Hs; simpl; [split; [lia|done]|].
  destruct (GoSort.Less less d i (i - 1)) eqn:E; simpl; [split; [lia|done]|].
  rewrite Less_keyAt in E by lia. apply Z.ltb_ge in E.
  destruct (IH d (S i) ltac:(lia) ltac:(lia)) as [Hb Hs'].
  { by apply sortedRange_extend. }
  split; [lia|done].
Qed.

Lemma shift_left_spec (a e : nat) (n : nat) :
  forall (d : list A) (j : nat),
    n = j -> a <= j -> j < e -> e <= length d ->
    boundedBelow key d a e ->
    sortedRange key d a j ->
    sortedRange key d j e ->
    (forall k m, a <= k < j -> j < m < e -> (K d k <= K d m)%Z) ->
    rearranged a e d (GoSort.shift_left less n d j)
    /\ sortedRange key (GoSort.shift_left less n d j) a e.
Proof.
  induction n as [|n IH]; intros d j Hn Haj Hje He Hbb Hlo Hhi Hcross.
  - simpl. split; [apply rearranged_refl|]. subst j.
    replace a with 0 by lia. exact Hhi.
  - cbn [GoSort.shift_left]. rewrite Less_keyAt by lia.
    assert (Hwhole : (j = a \/ K d (j - 1) <= K d j)%Z -> sortedRange key d a e).
    { intros Hor x y Hx Hxy Hy.
      destruct (decide (j <= x)) as [|Hxj]; [apply Hhi; lia|].
      destruct Hor as [->|Hk]; [lia|].
      destruct (decide (y < j)) as [|Hyj]; [apply Hlo; lia|].
      destruct (decide (y = j)) as [->|]; [|apply Hcross; lia].
      etrans; [apply (Hlo x (j - 1)); lia|exact Hk]. }
    destruct (K d j <? K d (j - 1))%Z eqn:E; simpl.
    2:{ apply Z.ltb_ge in E. split; [apply rearranged_refl|]. apply Hwhole. by right. }
    apply Z.ltb_lt in E.
    assert (Hgt : a < j).
    { destruct (decide (j = a)) as [->|]; [|lia]. exfalso.
      destruct Hbb as [->|Hall]; [lia|]. specialize (Hall a ltac:(lia) ltac:(lia)).
      cbv beta in Hall. lia. }
    assert (Hr : rearranged a e d (GoSort.Swap d j (j - 1))) by (apply rearranged_Swap; lia).
    set (d2 := GoSort.Swap d j (j - 1)) in *.
    assert (Hlen2 : length d2 = length d) by apply Swap_length.
    assert (Hbb2 : boundedBelow key d2 a e).
    { apply (rearranged_boundedBelow key a e d); [done|lia|lia|done]. }
    assert (Hlo2 : sortedRange key d2 a (j - 1)).
    { intros x y Hx Hxy Hy. unfold d2. rewrite !keyAt_Swap by lia.
      repeat case_decide; subst; try lia; apply Hlo; lia. }
    assert (Hhi2 : sortedRange key d2 (j - 1) e).
    { intros x y Hx Hxy Hy. unfold d2. rewrite !keyAt_Swap by lia.
      repeat case_decide; subst; try lia;
        first [apply Hhi; lia | apply Hcross; lia
              | etrans; [apply Z.lt_le_incl, E|]; apply Hcross; lia]. }
    assert (Hcross2 : forall k m, a <= k < j - 1 -> j - 1 < m < e -> (K d2 k <= K d2 m)%Z).
    { intros k m Hk Hm. unfold d2. rewrite !keyAt_Swap by lia.
      repeat case_decide; subst; try lia;
        first [apply Hlo; lia | apply Hcross; lia]. }
    destruct (IH d2 (j - 1) ltac:(lia) ltac:(lia) ltac:(lia) ltac:(lia) Hbb2 Hlo2 Hhi2 Hcross2)
      as [Hr' Hs'].
    split; [|exact Hs']. eapply rearranged_trans; [exact Hr|exact Hr'].
Qed.

Lemma shift_right_rearranged (i b : nat) (n : nat) :
  forall (d : list A) (j : nat),
    i < j -> j + n <= b -> rearranged i b d (GoSort.shift_right less n d j).
Proof.
  induction n as [|n IH]; intros d j Hij Hb; simpl; [apply rearranged_refl|].
  destruct (GoSort.Less less d j (j - 1)); simpl; [|apply rearranged_refl].
  eapply rearranged_trans; [apply (rearranged_Swap i b d j (j - 1)); lia|].
  apply IH; lia.
Qed.

Lemma partialInsertionSort_loop_spec (a b : nat) (steps : nat) :
  forall (d : list A) (i : nat),
    a < i -> i <= b -> b <= length d ->
    boundedBelow key d a b ->
    sortedRange key d a i ->
    rearranged a b d (GoSort.partialInsertionSort_loop less steps d a b i).1
    /\ ((GoSort.partialInsertionSort_loop less steps d a b i).2 = true ->
        sortedRange key (GoSort.partialInsertionSort_loop less steps d a b i).1 a b).
Proof.
  induction steps as [|steps IH]; intros d i Hai Hib Hb Hbb Hs.
  - simpl. split; [apply rearranged_refl|discriminate].
  - cbn [GoSort.partialInsertionSort_loop].
    destruct (skip_ordered_spec a (b - i) d i Hai ltac:(lia) Hs) as [Hi' Hs'].
    set (i' := GoSort.skip_ordered less (b - i) d i) in *.
    destruct (i' =? b) eqn:Eb.
    { apply Nat.eqb_eq in Eb. simpl. split; [apply rearranged_refl|]. intros _. by rewrite <- Eb. }
    apply Nat.eqb_neq in Eb.
    destruct (b - a <? GoSort.shortestShifting).
    { simpl. split; [apply rearranged_refl|discriminate]. }
    set (d1 := GoSort.Swap d i' (i' - 1)).
    assert (Hr1 : rearranged a b d d1) by (apply rearranged_Swap; lia).
    assert (Hlen1 : length d1 = length d) by apply Swap_length.
    assert (Hbb1 : boundedBelow key d1 a b).
    { apply (rearranged_boundedBelow key a b d); [done|lia|lia|done]. }
    assert (Hs1 : sortedRange key d1 a (i' - 1)).
    { intros x y Hx Hxy Hy. unfold d1. rewrite !keyAt_Swap by lia.
      repeat case_decide; subst; try lia; apply Hs'; lia. }
    set (d2 := if 2 <=? i' - a then GoSort.shift_left less (i' - 1) d1 (i' - 1) else d1).
    assert (H2 : rearranged a b d1 d2 /\ sortedRange key d2 a i').
    { subst d2. destruct (2 <=? i' - a) eqn:E2.
      - apply Nat.leb_le in E2.
        assert (Hbbi : boundedBelow key d1 a i').
        { destruct Hbb1 as [Ha|Hall]; [by left|right].
          intros k Hk1 Hk2. apply Hall; lia. }
        assert (Hone : sortedRange key d1 (i' - 1) i').
        { intros x y Hx Hxy Hy. replace y with x by lia. reflexivity. }
        destruct (shift_left_spec a i' (i' - 1) d1 (i' - 1) eq_refl ltac:(lia) ltac:(lia)
                    ltac:(lia) Hbbi Hs1 Hone ltac:(intros; lia)) as [Hr Hsl].
        split; [|done]. apply (rearranged_mono a b a i'); [lia|lia|done].
      - apply Nat.leb_gt in E2. split; [apply rearranged_refl|].
        intros x y Hx Hxy Hy. replace y with x by lia. reflexivity. }
    destruct H2 as [Hr2 Hs2].
    assert (Hlen2 : length d2 = length d) by (by rewrite (rearranged_length a b d1 d2)).
    set (d3 := if 2 <=? b - i' then GoSort.shift_right less (b - (i' + 1)) d2 (i' + 1) else d2).
    assert (Hr3 : rearranged i' b d2 d3).
    { subst d3. destruct (2 <=? b - i'); [|apply rearranged_refl].
      apply shift_right_rearranged; lia. }
    assert (Hr03 : rearranged a b d d3).
    { eapply rearranged_trans; [exact Hr1|]. eapply rearranged_trans; [exact Hr2|].
      apply (rearranged_mono a b i' b); [lia|lia|done]. }
    assert (Hlen3 : length d3 = length d) by (by apply (rearranged_length a b)).
    assert (Hbb3 : boundedBelow key d3 a b).
    { apply (rearranged_boundedBelow key a b d); [done|lia|lia|done]. }
    assert (Hs3 : sortedRange key d3 a i').
    { apply (sortedRange_outside key a i' i' b d2 d3); [done|lia|done]. }
    destruct (IH d3 i' ltac:(lia) ltac:(lia) ltac:(lia) Hbb3 Hs3) as [Hr Hdone].
    split; [|exact Hdone]. eapply rearranged_trans; [exact Hr03|exact Hr].
Qed.

Lemma partialInsertionSort_func_spec (d : list A) (a b : nat) :
  a < b -> b <= length d -> boundedBelow key d a b ->
  rearranged a b d (GoSort.partialInsertionSort_func less d a b).1
  /\ ((GoSort.partialInsertionSort_func less d a b).2 = true ->
      sortedRange key (GoSort.partialInsertionSort_func less d a b).1 a b).
Proof.
  intros Hab Hb Hbb. apply partialInsertionSort_loop_spec; try lia; try done.
  intros x y Hx Hxy Hy. replace y with x by lia. reflexivity.
Qed.

End SortPartial.

(** *** [siftDown_func] restores the heap *)
Section SortHeap.
Local Open Scope nat_scope.
Context {A : Type} (key : A -> Z).

Local Abbreviation less := (lessBy key).
Local Abbreviation K := (keyAt key).

Lemma siftDown_loop_spec (first lo hi : nat) (n : nat) :
  forall (d : list A) (root : nat),
    lo <= root -> hi - root <= n -> first + hi <= length d ->
    (forall i c, lo <= i -> i <> root -> c < hi -> c = 2 * i + 1 \/ c = 2 * i + 2 ->
                 (K d (first + c) <= K d (first + i))%Z) ->
    (forall q c, lo <= q -> root = 2 * q + 1 \/ root = 2 * q + 2 ->
                 c < hi -> c = 2 * root + 1 \/ c = 2 * root + 2 ->
                 (K d (first + c) <= K d (first + q))%Z) ->
    rearranged (first + lo) (first + hi) d (GoSort.siftDown_loop less n d root hi first)
    /\ heapFrom key (GoSort.siftDown_loop less n d root hi first) first lo hi.
Proof.
  induction n as [|n IH]; intros d root Hlo Hn Hlen H1 H2.
  - simpl. split; [apply rearranged_refl|].
    intros i c Hi Hc Hch. apply H1; try done. lia.
  - cbn [GoSort.siftDown_loop].
    assert (Hheap : (forall c, c < hi -> c = 2 * root + 1 \/ c = 2 * root + 2 ->
                               (K d (first + c) <= K d (first + root))%Z) ->
                    heapFrom key d first lo hi).
    { intros Hroot i c Hi Hc Hch.
      destruct (decide (i = root)) as [->|Hne]; [by apply Hroot|by apply H1]. }
    destruct (hi <=? 2 * root + 1) eqn:E1.
    { apply Nat.leb_le in E1. split; [apply rearranged_refl|].
      apply Hheap. intros c Hc Hch. lia. }
    apply Nat.leb_gt in E1.
    set (c1 := 2 * root + 1) in *.
    set (c := if (c1 + 1 <? hi) && GoSort.Less less d (first + c1) (first + c1 + 1)
              then c1 + 1 else c1).
    assert (Hc : (c = c1 \/ c = c1 + 1) /\ c < hi
                 /\ forall c', c' < hi -> c' = 2 * root + 1 \/ c' = 2 * root + 2 ->
                               (K d (first + c') <= K d (first + c))%Z).
    { assert (Hkids : forall c', c' = 2 * root + 1 \/ c' = 2 * root + 2 ->
                                 c' = c1 \/ c' = c1 + 1) by (unfold c1; lia).
      subst c. destruct (c1 + 1 <? hi) eqn:E2; cbn [andb].
      - apply Nat.ltb_lt in E2. rewrite Less_keyAt by lia.
        replace (first + c1 + 1) with (first + (c1 + 1)) by lia.
        destruct (K d (first + c1) <? K d (first + (c1 + 1)))%Z eqn:E3.
        + apply Z.ltb_lt in E3. split; [by right|]. split; [done|].
          intros c' Hc' Hch. destruct (Hkids c' Hch) as [-> | ->]; lia.
        + apply Z.ltb_ge in E3. split; [by left|]. split; [done|].
          intros c' Hc' Hch. destruct (Hkids c' Hch) as [-> | ->]; lia.
      - apply Nat.ltb_ge in E2. split; [by left|]. split; [done|].
        intros c' Hc' Hch. destruct (Hkids c' Hch) as [-> | ->]; lia. }
    destruct Hc as (Hcc & Hchi & Hmax).
    rewrite Less_keyAt by lia.
    destruct (K d (first + root) <? K d (first + c))%Z eqn:E4; simpl.
    2:{ apply Z.ltb_ge in E4. split; [apply rearranged_refl|].
        apply Hheap. intros c' Hc' Hch. etrans; [by apply Hmax|done]. }
    apply Z.ltb_lt in E4.
    set (d2 := GoSort.Swap d (first + root) (first + c)).
    assert (Hk2 : forall x, K d2 (first + x)
                            = if decide (x = root) then K d (first + c)
                              else if decide (x = c) then K d (first + root)
                              else K d (first + x)).
    { intros x. unfold d2. rewrite keyAt_Swap by lia.
      repeat case_decide; try lia; done. }
    assert (Hr : rearranged (first + lo) (first + hi) d d2).
    { apply rearranged_Swap; unfold c1 in *; lia. }
    destruct (IH d2 c) as [Hr' Hh'].
    + unfold c1 in *. lia.
    + unfold c1 in *. lia.
    + unfold d2. rewrite Swap_length. lia.
    + intros i c' Hi Hne Hc' Hch. rewrite !Hk2.
      destruct (decide (i = root)) as [->|Hir].
      * rewrite (decide_False (P := c' = root)) by lia.
        destruct (decide (c' = c)) as [->|]; [lia|]. by apply Hmax.
      * rewrite (decide_False (P := i = c)) by done.
        destruct (decide (c' = root)) as [->|Hcr].
        -- apply (H2 i c); try done. unfold c1 in *. lia.
        -- rewrite (decide_False (P := c' = c)) by (unfold c1 in *; lia).
           by apply H1.
    + intros q c' Hq Hpar Hc' Hch. rewrite !Hk2.
      assert (q = root) as -> by (unfold c1 in *; lia).
      rewrite (decide_True (P := root = root)) by done.
      rewrite (decide_False (P := c' = root)) by (unfold c1 in *; lia).
      rewrite (decide_False (P := c' = c)) by (unfold c1 in *; lia).
      apply H1; try done; unfold c1 in *; lia.
    + split; [|exact Hh']. eapply rearranged_trans; [exact Hr|exact Hr'].
Qed.

Lemma siftDown_func_spec (d : list A) (lo hi first : nat) :
  first + hi <= length d ->
  heapFrom key d first (lo + 1) hi ->
  rearranged (first + lo) (first + hi) d (GoSort.siftDown_func less d lo hi first)
  /\ heapFrom key (GoSort.siftDown_func less d lo hi first) first lo hi.
Proof.
  intros Hlen Hh. apply siftDown_loop_spec; try lia.
  intros i c Hi Hne Hc Hch. apply Hh; try done. lia.
Qed.

End SortHeap.

(** *** [heapSort_func] on a range [a, b) *)
Section SortHeapSort.
Local Open Scope nat_scope.
Context {A : Type} (key : A -> Z).

Local Abbreviation less := (lessBy key).
Local Abbreviation K := (keyAt key).

Lemma rev_seq_S (k : nat) : rev (seq 0 (S k)) = k :: rev (seq 0 k).
Proof. rewrite seq_S, rev_unit. reflexivity. Qed.

Lemma half_bounds (n : nat) : 2 * (n / 2) <= n /\ n < 2 * (n / 2) + 2.
Proof.
  pose proof (Nat.div_mod_eq n 2) as Hdm.
  pose proof (Nat.mod_upper_bound n 2 ltac:(lia)) as Hm. lia.
Qed.

Lemma heap_build (first hi : nat) (k : nat) :
  forall d : list A,
    first + hi <= length d ->
    heapFrom key d first k hi ->
    rearranged first (first + hi) d
               (foldl (fun d i => GoSort.siftDown_func less d i hi first) d (rev (seq 0 k)))
    /\ heapFrom key
                (foldl (fun d i => GoSort.siftDown_func less d i hi first) d (rev (seq 0 k)))
                first 0 hi.
Proof.
  induction k as [|k IH]; intros d Hlen Hh.
  - simpl. split; [apply rearranged_refl|exact Hh].
  - rewrite rev_seq_S. cbn [foldl].
    destruct (siftDown_func_spec key d k hi first Hlen) as [Hr1 Hh1].
    { by replace (k + 1) with (S k) by lia. }
    set (d1 := GoSort.siftDown_func less d k hi first) in *.
    assert (Hr1' : rearranged first (first + hi) d d1).
    { apply (rearranged_mono first (first + hi) (first + k) (first + hi)); [lia|lia|done]. }
    destruct (IH d1) as [Hr2 Hh2]; [|done|].
    + rewrite (rearranged_length _ _ _ _ Hr1'). done.
    + split; [|done]. eapply rearranged_trans; [exact Hr1'|exact Hr2].
Qed.

Lemma heap_root_max (d : list A) (first k : nat) :
  heapFrom key d first 0 k ->
  forall x, x < k -> (K d (first + x) <= K d (first + 0))%Z.
Proof.
  intros Hh x. induction x as [x IH] using lt_wf_ind. intros Hx.
  destruct x as [|x']; [lia|].
  destruct (half_bounds x') as [Hq1 Hq2].
  etrans; [apply (Hh (x' / 2) (S x')); lia|].
  apply IH; lia.
Qed.

Lemma heap_drain (first hi : nat) (k : nat) :
  forall d : list A,
    k <= hi -> first + hi <= length d ->
    heapFrom key d first 0 k ->
    sortedRange key d (first + k) (first + hi) ->
    (forall x y, x < k -> k <= y < hi -> (K d (first + x) <= K d (first + y))%Z) ->
    rearranged first (first + hi) d
      (foldl (fun d i => GoSort.siftDown_func less (GoSort.Swap d first (first + i)) 0 i first)
             d (rev (seq 0 k)))
    /\ sortedRange key
         (foldl (fun d i => GoSort.siftDown_func less (GoSort.Swap d first (first + i)) 0 i first)
                d (rev (seq 0 k)))
         first (first + hi).
Proof.
  induction k as [|k IH]; intros d Hk Hlen Hh Hs Hcross.
  - simpl. split; [apply rearranged_refl|]. by rewrite Nat.add_0_r in Hs.
  - rewrite rev_seq_S. cbn [foldl].
    pose proof (heap_root_max d first (S k) Hh) as Hmax.
    assert (Hmax' : forall p, first <= p < first + S k -> (K d p <= K d (first + 0))%Z).
    { intros p Hp. replace p with (first + (p - first)) by lia. apply Hmax. lia. }
    assert (Hcross' : forall p q, first <= p < first + S k -> first + S k <= q < first + hi ->
                                  (K d p <= K d q)%Z).
    { intros p q Hp Hq. replace p with (first + (p - first)) by lia.
      replace q with (first + (q - first)) by lia. apply Hcross; lia. }
    set (d1 := GoSort.Swap d first (first + k)).
    assert (Hlen1 : length d1 = length d) by apply Swap_length.
    assert (Hk1 : forall x, K d1 (first + x)
                            = if decide (x = 0) then K d (first + k)
                              else if decide (x = k) then K d (first + 0)
                              else K d (first + x)).
    { intros x. unfold d1. rewrite keyAt_Swap by lia. rewrite Nat.add_0_r.
      repeat case_decide; subst; try lia; try done. }
    assert (Hr1 : rearranged first (first + hi) d d1) by (apply rearranged_Swap; lia).
    assert (Hh1 : heapFrom key d1 first (0 + 1) k).
    { intros i c Hi Hc Hch. rewrite !Hk1.
      rewrite (decide_False (P := c = 0)), (decide_False (P := c = k)) by lia.
      rewrite (decide_False (P := i = 0)), (decide_False (P := i = k)) by lia.
      apply Hh; lia. }
    destruct (siftDown_func_spec key d1 0 k first ltac:(lia) Hh1) as [Hr2 Hh2].
    set (d2 := GoSort.siftDown_func less d1 0 k first) in *.
    rewrite Nat.add_0_r in Hr2.
    assert (Hout : forall y, k <= y -> K d2 (first + y) = K d1 (first + y)).
    { intros y Hy. apply (rearranged_outside key first (first + k) d1 d2); [done|lia]. }
    assert (Hr2' : rearranged first (first + hi) d1 d2).
    { apply (rearranged_mono first (first + hi) first (first + k)); [lia|lia|done]. }
    assert (Hall : forall v, (forall x, x < k -> (K d1 (first + x) <= v)%Z) ->
                             forall x, x < k -> (K d2 (first + x) <= v)%Z).
    { intros v Hv x Hx.
      apply (rearranged_allBetween key (fun z => (z <= v)%Z) first (first + k) d1 d2);
        [done|lia|lia| |lia|lia].
      intros i Hi1 Hi2. replace i with (first + (i - first)) by lia. apply Hv. lia. }
    destruct (IH d2) as [Hr3 Hs3]; [lia| |done| | |].
    + rewrite (rearranged_length _ _ _ _ Hr2'). lia.
    + intros x y Hx Hxy Hy.
      replace x with (first + (x - first)) by lia.
      replace y with (first + (y - first)) by lia.
      rewrite !Hout, !Hk1 by lia.
      repeat case_decide; try lia;
        first [apply Hcross'; lia
              | apply (Hs (first + (x - first)) (first + (y - first))); lia].
    + intros x y Hx Hy. rewrite (Hout y) by lia. apply Hall; [|done].
      intros x' Hx'. rewrite !Hk1.
      repeat case_decide; subst; try lia; first [apply Hmax'; lia | apply Hcross'; lia].
    + split; [|done].
      eapply rearranged_trans; [exact Hr1|]. eapply rearranged_trans; [exact Hr2'|exact Hr3].
Qed.

Lemma heapSort_func_sorts (d : list A) (a b : nat) :
  a <= b -> b <= length d ->
  rearranged a b d (GoSort.heapSort_func less d a b)
  /\ sortedRange key (GoSort.heapSort_func less d a b) a b.
Proof.
  intros Hab Hb. unfold GoSort.heapSort_func.
  set (hi := b - a).
  assert (Hbhi : a + hi = b) by (unfold hi; lia).
  destruct (half_bounds (hi - 1)) as [Hq1 Hq2].
  destruct (heap_build a hi ((hi - 1) / 2 + 1) d) as [Hr1 Hh1]; [lia| |].
  { intros i c Hi Hc Hch. lia. }
  set (d1 := foldl _ d (rev (seq 0 ((hi - 1) / 2 + 1)))) in *.
  destruct (heap_drain a hi hi d1) as [Hr2 Hs2]; [lia| |done| | |].
  - rewrite (rearranged_length _ _ _ _ Hr1). lia.
  - intros x y Hx Hxy Hy. lia.
  - intros x y Hx Hy. lia.
  - rewrite Hbhi in *. split; [|done].
    eapply rearranged_trans; [exact Hr1|exact Hr2].
Qed.

End SortHeapSort.

(** *** The loop of [pdqsort_func] and [sort.Slice] *)
Section SortLoop.
Local Open Scope nat_scope.
Context {A : Type} (key : A -> Z) (random : nat -> nat -> nat).

Local Abbreviation less := (lessBy key).
Local Abbreviation K := (keyAt key).

Lemma allBetween_outside (P : Z -> Prop) (a b a' b' : nat) (d1 d2 : list A) :
  rearranged a' b' d1 d2 -> b <= a' \/ b' <= a ->
  allBetween key P d1 a b -> allBetween key P d2 a b.
Proof.
  intros Hr Hdisj Hall i Hi1 Hi2.
  rewrite (rearranged_outside key a' b' d1 d2) by (done || lia). by apply Hall.
Qed.

Lemma boundedBelow_shrink (d : list A) (a b b' : nat) :
  b' <= b -> boundedBelow key d a b -> boundedBelow key d a b'.
Proof.
  intros Hb [Ha|Hall]; [by left|right]. intros i Hi1 Hi2. apply Hall; lia.
Qed.

Lemma boundedBelow_outside (a b a' b' : nat) (d1 d2 : list A) :
  rearranged a' b' d1 d2 -> b <= a' ->
  boundedBelow key d1 a b -> boundedBelow key d2 a b.
Proof.
  intros Hr Hdisj [Ha|Hall]; [by left|].
  destruct (decide (a = 0)) as [|Hne]; [by left|right].
  intros i Hi1 Hi2.
  rewrite !(rearranged_outside key a' b' d1 d2) by (done || lia). by apply Hall.
Qed.

Lemma sortedRange_join (d : list A) (a mid b : nat) (v : Z) :
  sortedRange key d a mid -> sortedRange key d mid b ->
  allBetween key (fun k => (k <= v)%Z) d a mid ->
  allBetween key (fun k => (v <= k)%Z) d mid b ->
  sortedRange key d a b.
Proof.
  intros Hl Hr Hlo Hhi i j Hi Hij Hj.
  destruct (decide (j < mid)) as [Hjm|Hjm]; [apply Hl; lia|].
  destruct (decide (mid <= i)) as [Him|Him]; [apply Hr; lia|].
  pose proof (Hlo i ltac:(lia) ltac:(lia)) as H1.
  pose proof (Hhi j ltac:(lia) ltac:(lia)) as H2.
  cbv beta in H1, H2. lia.
Qed.

Lemma sortedRange_pivot (d : list A) (a mid b : nat) (v : Z) :
  K d mid = v ->
  sortedRange key d a mid -> sortedRange key d (mid + 1) b ->
  allBetween key (fun k => (k < v)%Z) d a mid ->
  allBetween key (fun k => (v <= k)%Z) d (mid + 1) b ->
  sortedRange key d a b.
Proof.
  intros Hv Hl Hr Hlo Hhi i j Hi Hij Hj.
  assert (Hlo' : forall x, a <= x < mid -> (K d x < v)%Z).
  { intros x Hx. apply (Hlo x); lia. }
  assert (Hhi' : forall x, mid + 1 <= x < b -> (v <= K d x)%Z).
  { intros x Hx. apply (Hhi x); lia. }
  destruct (decide (j < mid)); [apply Hl; lia|].
  destruct (decide (mid < i)); [apply Hr; lia|].
  destruct (decide (i = mid)) as [->|]; destruct (decide (j = mid)) as [->|]; try lia.
  - rewrite Hv. apply Hhi'; lia.
  - rewrite Hv. apply Z.lt_le_incl, Hlo'; lia.
  - specialize (Hlo' i ltac:(lia)). specialize (Hhi' j ltac:(lia)). lia.
Qed.

(** The loop of [pdqsort_func]: when it returns, the range [a, b) is sorted
    and nothing outside of it has moved.  The range is entered with every
    element at least the one before it ([boundedBelow]), which is what makes
    the [partitionEqual_func] branch sound. *)
Lemma pdqsort_loop_sorts (fuel : nat) :
  forall data a b limit wasBalanced wasPartitioned sorted,
    GoSort.pdqsort_loop less random fuel data a b limit wasBalanced wasPartitioned = Some sorted ->
    a <= b -> b <= length data -> boundedBelow key data a b ->
    rearranged a b data sorted /\ sortedRange key sorted a b.
Proof.
  induction fuel as [|fuel IH]; intros data a b limit wb wp sorted.
  - simpl. destruct (_ <=? _); [intros [= <-] ? ? _; by apply insertionSort_func_sorts|].
    destruct (_ =? _); [intros [= <-] ? ? _; by apply heapSort_func_sorts|discriminate].
  - cbn [GoSort.pdqsort_loop].
    destruct (b - a <=? GoSort.maxInsertion) eqn:E;
      [intros [= <-] ? ? _; by apply insertionSort_func_sorts|].
    apply Nat.leb_gt in E. unfold GoSort.maxInsertion in E.
    destruct (_ =? _); [intros [= <-] ? ? _; by apply heapSort_func_sorts|].
    intros Hrec Hab Hb Hbb. revert Hrec.
    set (bp := if negb wb then _ else _).
    assert (Hbp : rearranged a b data bp.1).
    { subst bp. destruct (negb wb); simpl;
        [apply breakPatterns_func_rearranged|apply rearranged_refl]. }
    destruct bp as [data1 limit1]. simpl in Hbp.
    pose proof (choosePivot_func_range less random data1 a b ltac:(lia)) as Hpv.
    destruct (GoSort.choosePivot_func less data1 a b) as [pivot hint]. cbn [fst] in Hpv.
    set (rv := match hint with GoSort.decreasingHint => _ | _ => _ end).
    assert (Hrv : rearranged a b data1 rv.1.1 /\ a <= rv.1.2 < b).
    { subst rv. destruct hint; cbn [fst snd]; (split; [|lia]); try apply rearranged_refl.
      apply reverseRange_func_rearranged; lia. }
    destruct rv as [[data2 pivot2] hint2]. cbn [fst snd] in Hrv. destruct Hrv as [Hrv Hpv2].
    assert (Hr2 : rearranged a b data data2) by (eapply rearranged_trans; eauto).
    assert (Hbb2 : boundedBelow key data2 a b).
    { by apply (rearranged_boundedBelow key a b data data2). }
    assert (Hlen2 : length data2 = length data) by apply (rearranged_length _ _ _ _ Hr2).
    set (pi := match hint2 with GoSort.increasingHint => _ | _ => _ end).
    assert (Hpi : rearranged a b data2 pi.1 /\ (pi.2 = true -> sortedRange key pi.1 a b)).
    { subst pi. destruct hint2; cbn [fst snd]; try (split; [apply rearranged_refl|done]).
      destruct (wb && wp); cbn [fst snd]; [|split; [apply rearranged_refl|done]].
      apply partialInsertionSort_func_spec; [lia|lia|done]. }
    destruct pi as [data3 done3]. cbn [fst snd] in Hpi. destruct Hpi as [Hpi Hdone].
    assert (Hr3 : rearranged a b data data3) by (eapply rearranged_trans; eauto).
    assert (Hbb3 : boundedBelow key data3 a b).
    { by apply (rearranged_boundedBelow key a b data data3). }
    assert (Hlen3 : length data3 = length data) by apply (rearranged_length _ _ _ _ Hr3).
    destruct done3; [intros [= <-]; split; [done|by apply Hdone]|].
    destruct (_ && _) eqn:Hcond.
    + apply andb_true_iff in Hcond as [Ha0 Hnl]. apply Nat.ltb_lt in Ha0.
      rewrite (Less_keyAt key) in Hnl by lia. apply negb_true_iff, Z.ltb_ge in Hnl.
      destruct (partitionEqual_func_spec key data3 a b pivot2 ltac:(lia) ltac:(lia) Hpv2)
        as (data4 & mid & Heq & Hr4 & Hmid & Hle & Hgt).
      rewrite Heq. cbv beta iota. intros Hrec.
      destruct Hbb3 as [?|Hbb3]; [lia|].
      assert (Hlen4 : length data4 = length data3) by apply (rearranged_length _ _ _ _ Hr4).
      assert (Hbb4 : allBetween key (fun k => (K data3 (a - 1) <= k)%Z) data4 a b).
      { apply (rearranged_allBetween key _ a b data3 data4); [done|lia|lia|done]. }
      pose proof (Hbb3 pivot2 ltac:(lia) ltac:(lia)) as Hp1. cbv beta in Hp1.
      destruct (IH _ _ _ _ _ _ _ Hrec ltac:(lia) ltac:(lia)) as [Hr5 Hs5].
      { right. intros i Hi1 Hi2.
        pose proof (Hle (mid - 1) ltac:(lia) ltac:(lia)) as H1.
        pose proof (Hgt i ltac:(lia) ltac:(lia)) as H2. cbv beta in H1, H2. lia. }
      split.
      * eapply rearranged_trans; [exact Hr3|]. eapply rearranged_trans; [exact Hr4|].
        apply (rearranged_mono a b mid b); [lia|lia|done].
      * apply (sortedRange_join sorted a mid b (K data3 pivot2)); [|done| |].
        -- intros i j Hi Hij Hj.
           rewrite !(rearranged_outside key mid b data4 sorted) by (done || lia).
           pose proof (Hle i ltac:(lia) ltac:(lia)) as H1.
           pose proof (Hbb4 j ltac:(lia) ltac:(lia)) as H2. cbv beta in H1, H2. lia.
        -- by apply (allBetween_outside _ a mid mid b data4 sorted); [|lia|].
        -- apply (rearranged_allBetween key _ mid b data4 sorted); [done|lia|lia|].
           intros i Hi1 Hi2. pose proof (Hgt i Hi1 Hi2) as H1. cbv beta in H1. cbv beta. lia.
    + clear Hcond.
      destruct (partition_func_spec key data3 a b pivot2 ltac:(lia) ltac:(lia) Hpv2)
        as (data4 & mid & already & Heq & Hr4 & Hmid & Hlt & Hge).
      rewrite Heq. cbv beta iota zeta.
      assert (Hlen4 : length data4 = length data3) by apply (rearranged_length _ _ _ _ Hr4).
      assert (Hbb4 : boundedBelow key data4 a b).
      { apply (rearranged_boundedBelow key a b data3 data4); [done|lia|lia|done]. }
      assert (Hr04 : rearranged a b data data4) by (eapply rearranged_trans; eauto).
      destruct (_ <? _).
      * destruct (GoSort.pdqsort_loop less random fuel data4 a mid limit1 true true)
          as [data5|] eqn:H5; [|discriminate].
        intros Hrec.
        destruct (IH _ _ _ _ _ _ _ H5 ltac:(lia) ltac:(lia)) as [Hr5 Hs5].
        { by apply (boundedBelow_shrink data4 a b mid); [lia|]. }
        assert (Hlen5 : length data5 = length data4) by apply (rearranged_length _ _ _ _ Hr5).
        assert (Hk5 : K data5 mid = K data4 mid).
        { apply (rearranged_outside key a mid data4 data5); [done|lia]. }
        destruct (IH _ _ _ _ _ _ _ Hrec ltac:(lia) ltac:(lia)) as [Hr6 Hs6].
        { right. rewrite Nat.add_sub, Hk5.
          by apply (allBetween_outside _ (mid + 1) b a mid data4 data5); [|lia|]. }
        split.
        -- eapply rearranged_trans; [exact Hr04|].
           eapply rearranged_trans; [apply (rearranged_mono a b a mid); [lia|lia|exact Hr5]|].
           apply (rearranged_mono a b (mid + 1) b); [lia|lia|done].
        -- apply (sortedRange_pivot sorted a mid b (K data4 mid)).
           ++ rewrite <- Hk5. apply (rearranged_outside key (mid + 1) b data5 sorted); [done|lia].
           ++ apply (sortedRange_outside key a mid (mid + 1) b data5 sorted); [done|lia|done].
           ++ done.
           ++ apply (allBetween_outside _ a mid (mid + 1) b data5 sorted); [done|lia|].
              apply (rearranged_allBetween key _ a mid data4 data5); [done|lia|lia|done].
           ++ apply (rearranged_allBetween key _ (mid + 1) b data5 sorted); [done|lia|lia|].
              by apply (allBetween_outside _ (mid + 1) b a mid data4 data5); [|lia|].
      * destruct (GoSort.pdqsort_loop less random fuel data4 (mid + 1) b limit1 true true)
          as [data5|] eqn:H5; [|discriminate].
        intros Hrec.
        destruct (IH _ _ _ _ _ _ _ H5 ltac:(lia) ltac:(lia)) as [Hr5 Hs5].
        { right. by rewrite Nat.add_sub. }
        assert (Hlen5 : length data5 = length data4) by apply (rearranged_length _ _ _ _ Hr5).
        assert (Hk5 : K data5 mid = K data4 mid).
        { apply (rearranged_outside key (mid + 1) b data4 data5); [done|lia]. }
        destruct (IH _ _ _ _ _ _ _ Hrec ltac:(lia) ltac:(lia)) as [Hr6 Hs6].
        { apply (boundedBelow_outside a mid (mid + 1) b data4 data5); [done|lia|].
          by apply (boundedBelow_shrink data4 a b mid); [lia|]. }
        split.
        -- eapply rearranged_trans; [exact Hr04|].
           eapply rearranged_trans;
             [apply (rearranged_mono a b (mid + 1) b); [lia|lia|exact Hr5]|].
           apply (rearranged_mono a b a mid); [lia|lia|done].
        -- apply (sortedRange_pivot sorted a mid b (K data4 mid)).
           ++ rewrite <- Hk5. apply (rearranged_outside key a mid data5 sorted); [done|lia].
           ++ done.
           ++ apply (sortedRange_outside key (mid + 1) b a mid data5 sorted); [done|lia|done].
           ++ apply (rearranged_allBetween key _ a mid data5 sorted); [done|lia|lia|].
              by apply (allBetween_outside _ a mid (mid + 1) b data4 data5); [|lia|].
           ++ apply (allBetween_outside _ (mid + 1) b a mid data5 sorted); [done|lia|].
              apply (rearranged_allBetween key _ (mid + 1) b data4 data5); [done|lia|lia|done].
Qed.

Lemma sortedRange_StronglySorted (l : list A) :
  sortedRange key l 0 (length l) -> StronglySorted (ascendingBy key) l.
Proof.
  induction l as [|x l IH]; intros Hs; [constructor|].
  constructor.
  - apply IH. intros i j Hi Hij Hj. apply (Hs (S i) (S j)); simpl; lia.
  - apply Forall_lookup. intros i y Hy.
    pose proof (lookup_lt_Some _ _ _ Hy) as Hi.
    pose proof (Hs 0 (S i) ltac:(lia) ltac:(lia) ltac:(simpl; lia)) as Hle.
    rewrite (keyAt_lookup key (x :: l) 0 x), (keyAt_lookup key (x :: l) (S i) y) in Hle by done.
    unfold ascendingBy. done.
Qed.

(** [sort.Slice] with a comparison of integer keys leaves the slice in
    ascending order of the keys, whatever its length. *)
Lemma Slice_sorted (x : list A) :
  StronglySorted (ascendingBy key) (GoSort.Slice less random x).
Proof.
  destruct (pdqsort_func_returns less random x) as (sorted & Hs & ->).
  unfold GoSort.pdqsort_func in Hs.
  apply pdqsort_loop_sorts in Hs as [Hr Hs]; [|lia|lia|by left].
  apply sortedRange_StronglySorted.
  by rewrite (rearranged_length _ _ _ _ Hr).
Qed.

End SortLoop.


(** ** The registry and the loader *)
Section Loading.
Context `{Runtime}.

Lemma setDefaults_Name (def : WebhookDefinition) : Name (setDefaults def) = Name def.
Proof. reflexivity. Qed.

Lemma setDefaults_Priority (def : WebhookDefinition) : Priority (setDefaults def) = Priority def.
Proof. reflexivity. Qed.

Lemma validEntry_checks (def : WebhookDefinition) :
  validEntry def = true ->
  String.eqb (URL def) "" = false
  /\ String.eqb (Type_ def) "" = false
  /\ validateWebhookType (Type_ def) = None.
Proof.
  unfold validEntry, validateWebhookType. intros [Hu Ht]%andb_true_iff.
  apply negb_true_iff in Hu. rewrite Hu, Ht. split; [done|]. split; [|done].
  destruct (String.eqb_spec (Type_ def) "") as [E|]; [|done].
  rewrite E in Ht. discriminate.
Qed.

Lemma validEntry_error (i : Z) (def : WebhookDefinition) (rest : list WebhookDefinition) :
  validEntry def = false -> validateWebhooks i (def :: rest) = Err (entryError i def).
Proof.
  unfold validEntry, entryError, validateWebhookType. simpl.
  destruct (String.eqb (URL def) ""); [done|]. simpl.
  destruct (String.eqb (Type_ def) ""); [done|].
  unfold validateWebhookType. by intros ->.
Qed.

Lemma validateWebhooks_Ok (defs : list WebhookDefinition) :
  forall i, Forall (fun def => validEntry def = true) defs ->
            validateWebhooks i defs = Ok (List.map setDefaults defs).
Proof.
  induction defs as [|def rest IH]; intros i Hv; [done|].
  inversion Hv as [|? ? Hd Hr]; subst.
  destruct (validEntry_checks def Hd) as (Hu & Ht & Hvt).
  simpl. rewrite Hu, Ht, Hvt, IH by done. reflexivity.
Qed.

Lemma validateWebhooks_Err (good : list WebhookDefinition) :
  forall i bad rest,
    Forall (fun def => validEntry def = true) good ->
    validEntry bad = false ->
    validateWebhooks i (good ++ bad :: rest)
    = Err (entryError (i + Z.of_nat (length good)) bad).
Proof.
  induction good as [|def good IH]; intros i bad rest Hv Hb.
  - simpl. rewrite Z.add_0_r. by apply validEntry_error.
  - inversion Hv as [|? ? Hd Hr]; subst.
    destruct (validEntry_checks def Hd) as (Hu & Ht & Hvt).
    cbn [app validateWebhooks]. rewrite Hu, Ht, Hvt, (IH (i + 1) bad rest Hr Hb).
    f_equal. f_equal. cbn [length]. lia.
Qed.

Lemma first_invalid (defs : list WebhookDefinition) :
  Exists (fun def => validEntry def = false) defs ->
  exists good bad rest,
    defs = good ++ bad :: rest
    /\ Forall (fun def => validEntry def = true) good
    /\ validEntry bad = false.
Proof.
  induction defs as [|def defs IH]; intros Hex; [by inversion Hex|].
  destruct (validEntry def) eqn:Hd.
  - destruct IH as (good & bad & rest & -> & Hg & Hb).
    { inversion Hex; subst; [congruence|done]. }
    exists (def :: good), bad, rest. split; [done|]. split; [by constructor|done].
  - exists [], def, defs. split; [done|]. split; [constructor|done].
Qed.

Lemma loadDefinitions_result (webhookDefs : list WebhookDefinition) :
  forall middlewares registry world,
    (loadDefinitions webhookDefs middlewares registry world).1
    = (middlewares ++ omap middlewareOf webhookDefs, foldl Register registry webhookDefs).
Proof.
  induction webhookDefs as [|def rest IH]; intros middlewares registry world.
  - simpl. by rewrite app_nil_r.
  - cbn [loadDefinitions foldl].
    change (omap middlewareOf (def :: rest))
      with (match middlewareOf def with
            | Some m => m :: omap middlewareOf rest
            | None => omap middlewareOf rest
            end).
    destruct (NewWebhookFromDefinition def) as [w|e] eqn:E.
    + assert (middlewareOf def = Some (GlobalMiddleware w)) as ->
        by (unfold middlewareOf; by rewrite E).
      unfold bind.
      match goal with |- context [logf ?a ?b ?c world] =>
        destruct (logf a b c world) as [[] w1] end.
      rewrite IH. by rewrite <- app_assoc.
    + assert (middlewareOf def = None) as -> by (unfold middlewareOf; by rewrite E).
      unfold bind.
      match goal with |- context [logf ?a ?b ?c world] =>
        destruct (logf a b c world) as [[] w1] end.
      by rewrite IH.
Qed.

Lemma Get_foldl_Register (defs : list WebhookDefinition) (registry : WebhookRegistry)
    (def : WebhookDefinition) :
  def ∈ defs ->
  exists def', def' ∈ defs /\ Name def' = Name def
               /\ Get (foldl Register registry defs) (Name def) = Some def'.
Proof.
  induction defs as [|last defs IH] using rev_ind; intros Hin; [by apply elem_of_nil in Hin|].
  rewrite foldl_snoc. unfold Get, Register. cbn [webhooks].
  destruct (decide (Name last = Name def)) as [Heq|Hne].
  - exists last. rewrite Heq, lookup_insert_eq. split; [|done].
    apply elem_of_app. right. by left.
  - apply elem_of_app in Hin as [Hin|Hin].
    + destruct (IH Hin) as (def' & Hin' & Hn & Hg).
      exists def'. split; [apply elem_of_app; by left|]. split; [done|].
      rewrite lookup_insert_ne by done. exact Hg.
    + apply list_elem_of_singleton in Hin. congruence.
Qed.

Lemma Get_foldl_Register_None (defs : list WebhookDefinition) (registry : WebhookRegistry)
    (name : string) :
  (forall def, def ∈ defs -> Name def <> name) ->
  Get (foldl Register registry defs) name = Get registry name.
Proof.
  induction defs as [|last defs IH] using rev_ind; intros Hno; [done|].
  rewrite foldl_snoc. unfold Get, Register in *. cbn [webhooks].
  rewrite lookup_insert_ne.
  - apply IH. intros def Hin. apply Hno, elem_of_app. by left.
  - apply Hno, elem_of_app. right. by left.
Qed.

Lemma same_name_NoDup (defs : list WebhookDefinition) (x y : WebhookDefinition) :
  NoDup (List.map Name defs) -> x ∈ defs -> y ∈ defs -> Name x = Name y -> x = y.
Proof.
  induction defs as [|d defs IH]; intros Hnd Hx Hy Hn; [by apply elem_of_nil in Hx|].
  cbn in Hnd. apply NoDup_cons in Hnd as [Hd Hnd].
  apply elem_of_cons in Hx as [->|Hx]; apply elem_of_cons in Hy as [->|Hy]; try done.
  - exfalso. apply Hd. rewrite Hn. apply (list_elem_of_fmap_2 Name). exact Hy.
  - exfalso. apply Hd. rewrite <- Hn. apply (list_elem_of_fmap_2 Name). exact Hx.
  - by apply IH.
Qed.

Lemma withPriority_setDefaults (k : Z) (defs : list WebhookDefinition) :
  withPriority k (List.map setDefaults defs) = List.map setDefaults (withPriority k defs).
Proof.
  unfold withPriority. induction defs as [|d l IH]; [done|].
  cbn [List.map List.filter]. rewrite setDefaults_Priority.
  destruct (Priority d =? k); cbn [List.map]; by rewrite IH.
Qed.

End Loading.

Section LoaderTheorems.
Context `{Runtime}.

(** C4.  When the file parses and holds an entry with an empty url or with a
    type that is empty or not one of the three, the load fails as a whole:
    the parser returns the error of the first such entry (its index when the
    url is missing, its name when the type is bad), the loader logs it and
    returns no middleware and an empty registry.  When every entry is valid,
    every definition is registered: the registry binds the name of each
    definition of the file, to that definition with its defaults set when no
    other entry has the same name, to one of the entries of that name
    otherwise, and it binds no other name; this holds whether or not the
    dispatcher of the definition can be built. *)
Theorem LoadWebhookMiddlewares_all_or_nothing (config : WebhookFileConfig)
    (data : string) (file : WebhooksFile) (world : World) :
  let path := configPathOf config in
  let result := LoadWebhookMiddlewares config world in
  os_Stat_IsNotExist path = false ->
  os_ReadFile path = Ok data ->
  json_Unmarshal_WebhooksFile data = Ok file ->
  (Exists (fun def => validEntry def = false) (Webhooks file) ->
   exists good bad rest,
     Webhooks file = good ++ bad :: rest
     /\ Forall (fun def => validEntry def = true) good
     /\ validEntry bad = false
     /\ parseWebhookConfigFile path = Err (entryError (Z.of_nat (length good)) bad)
     /\ result.1 = ([], NewWebhookRegistry)
     /\ (forall name, Get result.1.2 name = None)
     /\ trace result.2
        = trace world
          ++ [Log OwnLogger Errorf
                  (MsgConfigFileParseFailed path (entryError (Z.of_nat (length good)) bad))])
  /\ (Forall (fun def => validEntry def = true) (Webhooks file) ->
      (forall def, def ∈ Webhooks file ->
         exists def', def' ∈ Webhooks file /\ Name def' = Name def
                      /\ Get result.1.2 (Name def) = Some (setDefaults def'))
      /\ (NoDup (List.map Name (Webhooks file)) ->
          forall def, def ∈ Webhooks file ->
            Get result.1.2 (Name def) = Some (setDefaults def))
      /\ (forall name, is_Some (Get result.1.2 name)
                       <-> exists def, def ∈ Webhooks file /\ Name def = name)
      /\ exists loaded,
           loaded ≡ₚ List.map setDefaults (Webhooks file)
           /\ result.1.1 = omap middlewareOf loaded).
Proof.
  intros path result Hstat Hread Hjson.
  assert (Hparse : parseWebhookConfigFile path = validateWebhooks 0 (Webhooks file)).
  { unfold parseWebhookConfigFile. by rewrite Hread, Hjson. }
  split.
  - intros Hex. destruct (first_invalid _ Hex) as (good & bad & rest & Hfile & Hg & Hb).
    exists good, bad, rest. split; [exact Hfile|]. split; [exact Hg|]. split; [exact Hb|].
    assert (Herr : parseWebhookConfigFile path = Err (entryError (Z.of_nat (length good)) bad)).
    { rewrite Hparse, Hfile, (validateWebhooks_Err good 0 bad rest Hg Hb). f_equal. }
    split; [exact Herr|].
    subst result. unfold LoadWebhookMiddlewares. fold path. rewrite Hstat, Herr.
    split; [reflexivity|]. split; [|reflexivity].
    intros name. unfold Get. simpl. apply lookup_empty.
  - intros Hvalid.
    assert (Hok : parseWebhookConfigFile path = Ok (List.map setDefaults (Webhooks file))).
    { rewrite Hparse. by apply validateWebhooks_Ok. }
    set (defs := List.map setDefaults (Webhooks file)) in *.
    set (loaded := GoSort.Slice lessPriority sort_random defs).
    assert (Hperm : loaded ≡ₚ defs) by apply Slice_Permutation.
    assert (Hres : result.1 = (omap middlewareOf (if (length defs =? 0)%nat then [] else loaded),
                               foldl Register NewWebhookRegistry
                                     (if (length defs =? 0)%nat then [] else loaded))).
    { subst result. unfold LoadWebhookMiddlewares. fold path. rewrite Hstat, Hok.
      destruct (length defs =? 0)%nat; [reflexivity|].
      fold loaded. by rewrite loadDefinitions_result. }
    assert (Hloaded : (if (length defs =? 0)%nat then [] else loaded) ≡ₚ defs).
    { destruct defs; [done|]. exact Hperm. }
    set (ordered := if (length defs =? 0)%nat then [] else loaded) in *.
    rewrite Hres. cbn [fst snd].
    assert (Hin : forall d, d ∈ ordered <-> exists def, def ∈ Webhooks file /\ d = setDefaults def).
    { intros d. rewrite Hloaded. subst defs. rewrite list_elem_of_fmap.
      split; intros (def & H1 & H2); eauto. }
    assert (Hreg : forall def, def ∈ Webhooks file ->
              exists def', def' ∈ Webhooks file /\ Name def' = Name def
                           /\ Get (foldl Register NewWebhookRegistry ordered) (Name def)
                              = Some (setDefaults def')).
    { intros def Hdef.
      destruct (Get_foldl_Register ordered NewWebhookRegistry (setDefaults def))
        as (d' & Hd' & Hn & Hg); [apply Hin; eauto|].
      apply Hin in Hd' as (def' & Hdef' & ->).
      exists def'. split; [done|]. split; [exact Hn|]. exact Hg. }
    split; [exact Hreg|]. split; [|split].
    + intros Hnd def Hdef. destruct (Hreg def Hdef) as (def' & Hdef' & Hn & Hg).
      rewrite Hg. f_equal. f_equal. by eapply same_name_NoDup.
    + intros name. split.
      * intros Hsome.
        destruct (decide (Exists (fun d => Name d = name) ordered)) as [Hex|Hno].
        -- apply Exists_exists in Hex as (d & Hd & Hn).
           apply Hin in Hd as (def & Hdef & ->). eauto.
        -- rewrite Get_foldl_Register_None in Hsome.
           ++ unfold Get in Hsome. simpl in Hsome. rewrite lookup_empty in Hsome.
              by destruct Hsome.
           ++ intros d Hd Hn. apply Hno, Exists_exists. eauto.
      * intros (def & Hdef & <-). destruct (Hreg def Hdef) as (def' & _ & _ & ->). eauto.
    + exists ordered. split; [exact Hloaded|reflexivity].
Qed.

(** C5, as the code has it.  After a successful load the middlewares are
    built, and the registry is filled, from a list that is a permutation of
    the definitions of the file in ascending order of priority, whatever the
    number of definitions.  When the file holds at most twelve definitions
    the definitions of each priority stand in this list as they do in the
    file. *)
Theorem LoadWebhookMiddlewares_order (config : WebhookFileConfig)
    (data : string) (file : WebhooksFile) (world : World) :
  let path := configPathOf config in
  let result := LoadWebhookMiddlewares config world in
  os_Stat_IsNotExist path = false ->
  os_ReadFile path = Ok data ->
  json_Unmarshal_WebhooksFile data = Ok file ->
  Forall (fun def => validEntry def = true) (Webhooks file) ->
  exists loaded,
    result.1 = (omap middlewareOf loaded, foldl Register NewWebhookRegistry loaded)
    /\ loaded ≡ₚ List.map setDefaults (Webhooks file)
    /\ StronglySorted ascendingPriority loaded
    /\ ((length (Webhooks file) <= 12)%nat ->
        forall k, withPriority k loaded
                  = List.map setDefaults (withPriority k (Webhooks file))).
Proof.
  intros path result Hstat Hread Hjson Hvalid.
  assert (Hok : parseWebhookConfigFile path = Ok (List.map setDefaults (Webhooks file))).
  { unfold parseWebhookConfigFile. rewrite Hread, Hjson. by apply validateWebhooks_Ok. }
  set (defs := List.map setDefaults (Webhooks file)) in *.
  set (loaded := if (length defs =? 0)%nat then []
                 else GoSort.Slice lessPriority sort_random defs).
  exists loaded. split; [|split; [|split]].
  - subst result loaded. unfold LoadWebhookMiddlewares. fold path. rewrite Hstat, Hok.
    destruct (length defs =? 0)%nat; [reflexivity|].
    by rewrite loadDefinitions_result.
  - subst loaded. destruct defs; [done|]. apply Slice_Permutation.
  - subst loaded. destruct (length defs =? 0)%nat; [constructor|].
    apply (Slice_sorted Priority sort_random defs).
  - intros Hlen.
    assert (Hshort : loaded = stableSort lessPriority defs).
    { subst loaded. destruct (length defs =? 0)%nat eqn:E.
      - apply Nat.eqb_eq in E. by destruct defs.
      - apply Slice_short. subst defs. rewrite length_map. exact Hlen. }
    destruct (stableSort_spec Priority defs) as (_ & _ & Hstable).
    rewrite Hshort.
    intros k. rewrite <- withPriority_setDefaults. apply Hstable.
Qed.

End LoaderTheorems.

(** ** The closed world at work *)

Lemma Run_spawns_iff_selected_witness :
  let rt := Example.runtime Example.noFile Example.alwaysFails in
  let w := Example.webhook 0 1000 in
  let ctx := {| Example.jobError := None; Example.failed := false |} in
  exists evs,
    trace (Run w ctx start).2 = trace start ++ evs
    /\ spawned evs = [GoSendWebhook w (afterJob ctx)].
Proof.
  intros rt w ctx.
  destruct (@Run_spawns_iff_selected rt w ctx start) as (evs & Htr & Hsel & _).
  exists evs. split; [exact Htr|]. apply Hsel.
  unfold selected, classified. simpl.
  split; [reflexivity|]. split; [by left|]. intros [Ho _]. discriminate Ho.
Defined.

Lemma LoadWebhookMiddlewares_all_or_nothing_witness :
  let rt := Example.runtime
              (Example.file [Example.definition "first" "all" 1; Example.badBackoff])
              Example.alwaysFails in
  let result := LoadWebhookMiddlewares Example.config start in
  middlewareOf (setDefaults Example.badBackoff) = None
  /\ Get result.1.2 (Name Example.badBackoff) = Some (setDefaults Example.badBackoff).
Proof.
  intros rt result. split; [reflexivity|].
  destruct (@LoadWebhookMiddlewares_all_or_nothing rt Example.config ""
              {| Webhooks := [Example.definition "first" "all" 1; Example.badBackoff] |} start)
    as [_ Hvalid]; [reflexivity|reflexivity|reflexivity|].
  destruct Hvalid as (_ & Hunique & _).
  - repeat constructor.
  - apply Hunique.
    + apply (bool_decide_unpack _). vm_compute. reflexivity.
    + apply list_elem_of_further, list_elem_of_here.
Defined.

Lemma LoadWebhookMiddlewares_order_witness :
  let rt := Example.runtime
              (Example.file [Example.definition "b" "all" 2; Example.definition "a" "all" 1;
                             Example.definition "c" "all" 1])
              Example.alwaysFails in
  let defs := [Example.definition "b" "all" 2; Example.definition "a" "all" 1;
               Example.definition "c" "all" 1] in
  exists loaded,
    (LoadWebhookMiddlewares Example.config start).1
    = (omap middlewareOf loaded, foldl Register NewWebhookRegistry loaded)
    /\ loaded ≡ₚ List.map setDefaults defs
    /\ StronglySorted ascendingPriority loaded
    /\ forall k, withPriority k loaded = List.map setDefaults (withPriority k defs).
Proof.
  intros rt defs.
  destruct (@LoadWebhookMiddlewares_order rt Example.config "" {| Webhooks := defs |} start)
    as (loaded & Hres & Hperm & Hsorted & Hshort).
  - reflexivity.
  - reflexivity.
  - reflexivity.
  - repeat constructor.
  - exists loaded. split; [exact Hres|]. split; [exact Hperm|]. split; [exact Hsorted|].
    apply Hshort. simpl. lia.
Defined.

(** C5, as stated, fails for longer files, where [sort.Slice] partitions
    the slice.  For the thirteen definitions [w0] of priority 1 and [w1] ...
    [w12] of priority 0, in that order in the file, the load puts [w6] before
    [w1] ... [w5], although all of them have priority 0 and [w6] comes after
    them in the file. *)
Lemma LoadWebhookMiddlewares_stability_counterexample :
  let rt := Example.runtime (Example.file Example.thirteen) Example.alwaysFails in
  let result := LoadWebhookMiddlewares Example.config start in
  let loaded := GoSort.Slice lessPriority sort_random (List.map setDefaults Example.thirteen) in
  GoSort.pdqsort_func lessPriority sort_random (List.map setDefaults Example.thirteen) 0 13 4
  = Some loaded
  /\ result.1.1 = omap middlewareOf loaded
  /\ List.map Example.name_of result.1.1
     = ["w6"; "w1"; "w2"; "w3"; "w4"; "w5"; "w7"; "w8"; "w9"; "w10"; "w11"; "w12"; "w0"]
  /\ List.map Name (withPriority 0 Example.thirteen)
     = ["w1"; "w2"; "w3"; "w4"; "w5"; "w6"; "w7"; "w8"; "w9"; "w10"; "w11"; "w12"]
  /\ withPriority 0 loaded <> List.map setDefaults (withPriority 0 Example.thirteen).
Proof.
  intros rt result loaded.
  split; [vm_compute; reflexivity|]. split; [vm_compute; reflexivity|].
  split; [vm_compute; reflexivity|]. split; [vm_compute; reflexivity|].
  intros Heq. apply (f_equal (List.map Name)) in Heq. vm_compute in Heq. discriminate Heq.
Qed.

Lemma NewWebhookFromConfig_spec_witness :
  let rt := Example.runtime Example.noFile Example.alwaysFails in
  exists world',
    NewWebhookFromConfig Example.jobConfig Example.registry start
    = (Ok (Some {| errorWebhooks := [Example.inactive]; infoWebhooks := [] |}), world')
    /\ trace world' = [notice "pager"].
Proof.
  intros rt.
  destruct (@NewWebhookFromConfig_spec rt Example.jobConfig Example.registry start)
    as (_ & _ & Hok).
  destruct Hok as (world' & Hrun & _ & _ & Htr).
  - change (parseWebhookNames (WebhookErrorNames Example.jobConfig)) with ["pager"].
    constructor; [reflexivity|constructor].
  - change (parseWebhookNames (WebhookInfoNames Example.jobConfig)) with (@nil string).
    constructor.
  - exists world'. split; [exact Hrun|exact Htr].
Defined.

(** * The rest of the package *)

(** ** The registry *)
Section Registry.

(** Every definition is stored under its own name. *)
Lemma Register_keys (defs : list WebhookDefinition) (r : WebhookRegistry) :
  (forall name def, Get r name = Some def -> Name def = name) ->
  forall name def, Get (foldl Register r defs) name = Some def -> Name def = name.
Proof.
  revert r. induction defs as [|d defs IH]; intros r Hr name def; [apply Hr|].
  cbn [foldl]. apply IH. clear name def. intros name def.
  unfold Get, Register. cbn [webhooks].
  destruct (decide (Name d = name)) as [<-|Hne].
  - rewrite lookup_insert_eq. by intros [= <-].
  - rewrite lookup_insert_ne by done. apply Hr.
Qed.

Lemma Get_foldl_Register_last (defs : list WebhookDefinition) (r : WebhookRegistry)
    (name : string) :
  Get (foldl Register r defs) name
  = match last (List.filter (fun def => String.eqb (Name def) name) defs) with
    | Some def => Some def
    | None => Get r name
    end.
Proof.
  induction defs as [|d defs IH] using rev_ind; [done|].
  rewrite foldl_snoc, List.filter_app. cbn [List.filter].
  unfold Get, Register in *. cbn [webhooks].
  destruct (String.eqb_spec (Name d) name) as [<-|Hne].
  - by rewrite lookup_insert_eq, last_snoc.
  - rewrite lookup_insert_ne by done. by rewrite app_nil_r.
Qed.

Lemma size_foldl_Register (defs : list WebhookDefinition) (r : WebhookRegistry) :
  (size (webhooks (foldl Register r defs)) <= size (webhooks r) + length defs)%nat.
Proof.
  revert r. induction defs as [|d defs IH]; intros r; cbn [foldl length]; [lia|].
  etrans; [apply IH|]. unfold Register. cbn [webhooks].
  destruct (webhooks r !! Name d) as [old|] eqn:Hold.
  - rewrite map_size_insert_Some by eauto. lia.
  - rewrite map_size_insert_None by done. lia.
Qed.

(** X1.  A registry filled by [Register] from the empty one binds a name to
    the last definition registered under it and binds nothing else; it holds
    every definition under the definition's own name, so [GetAll] lists the
    definitions that [Get] finds, one per name and no more than were
    registered. *)
Theorem Registry_lookup (defs : list WebhookDefinition) :
  let registry := foldl Register NewWebhookRegistry defs in
  (forall name,
     Get registry name = last (List.filter (fun def => String.eqb (Name def) name) defs))
  /\ (forall name def, Get registry name = Some def -> Name def = name /\ def ∈ defs)
  /\ (forall def, def ∈ GetAll registry <-> Get registry (Name def) = Some def)
  /\ NoDup (List.map Name (GetAll registry))
  /\ (length (GetAll registry) <= length defs)%nat.
Proof.
  intros registry.
  assert (Hlast : forall name,
            Get registry name = last (List.filter (fun def => String.eqb (Name def) name) defs)).
  { intros name. unfold registry. rewrite Get_foldl_Register_last.
    by destruct (last _). }
  assert (Hkeys : forall name def, Get registry name = Some def -> Name def = name).
  { apply Register_keys. intros name def. unfold Get. simpl. by rewrite lookup_empty. }
  split; [exact Hlast|]. split; [|split; [|split]].
  - intros name def Hget. split; [by apply Hkeys|].
    rewrite Hlast in Hget. apply last_Some_elem_of in Hget.
    apply list_elem_of_In, List.filter_In in Hget as [Hin _]. by apply list_elem_of_In.
  - intros def. unfold GetAll. rewrite list_elem_of_fmap. split.
    + intros ([name d] & -> & Hin). apply elem_of_map_to_list in Hin.
      cbn [snd]. by rewrite (Hkeys name d Hin).
    + intros Hget. exists (Name def, def). split; [done|]. by apply elem_of_map_to_list.
  - unfold GetAll.
    assert (Hnames : List.map Name (map_to_list (webhooks registry)).*2
                     = (map_to_list (webhooks registry)).*1).
    { rewrite <- list_fmap_compose. apply Forall_fmap_ext_1, Forall_forall.
      intros [name d] Hin. apply elem_of_map_to_list in Hin.
      cbn. by apply Hkeys. }
    rewrite Hnames. apply NoDup_fst_map_to_list.
  - unfold GetAll. rewrite length_fmap, length_map_to_list.
    etrans; [apply size_foldl_Register|]. simpl. rewrite map_size_empty. lia.
Qed.

End Registry.

(** ** The configuration file *)
Section Parsing.
Context `{Runtime}.


Lemma validateWebhooks_Ok_inv (defs : list WebhookDefinition) :
  forall i out, validateWebhooks i defs = Ok out ->
                Forall (fun def => validEntry def = true) defs
                /\ out = List.map setDefaults defs.
Proof.
  induction defs as [|def rest IH]; intros i out; cbn [validateWebhooks].
  - intros [= <-]. split; [constructor|done].
  - destruct (validEntry def) eqn:Hv.
    + destruct (validEntry_checks def Hv) as (-> & -> & ->).
      destruct (validateWebhooks (i + 1) rest) as [out'|e] eqn:Hrest; [|discriminate].
      intros [= <-]. destruct (IH _ _ Hrest) as [Hf ->].
      split; [by constructor|done].
    + pose proof (validEntry_error i def rest Hv) as Herr.
      cbn [validateWebhooks] in Herr. rewrite Herr. discriminate.
Qed.

(** X2.  [parseWebhookConfigFile] returns definitions exactly when the file
    can be read, its contents decode, and every entry has a url and one of
    the three types; the definitions are then the entries of the file, in
    the order of the file, with their defaults set.  A file that cannot be
    read, and contents that do not decode, give the error of [os.ReadFile],
    resp. of [json.Unmarshal], wrapped. *)
Theorem parseWebhookConfigFile_Ok_iff (path : string) (defs : list WebhookDefinition) :
  (parseWebhookConfigFile path = Ok defs
   <-> exists data file,
         os_ReadFile path = Ok data
         /\ json_Unmarshal_WebhooksFile data = Ok file
         /\ Forall (fun def => validEntry def = true) (Webhooks file)
         /\ defs = List.map setDefaults (Webhooks file))
  /\ (forall err, os_ReadFile path = Err err ->
                  parseWebhookConfigFile path = Err (ErrReadFile err))
  /\ (forall data err, os_ReadFile path = Ok data ->
                       json_Unmarshal_WebhooksFile data = Err err ->
                       parseWebhookConfigFile path = Err (ErrParseJSON err)).
Proof.
  unfold parseWebhookConfigFile. split; [|split].
  - split.
    + destruct (os_ReadFile path) as [data|e]; [|discriminate].
      destruct (json_Unmarshal_WebhooksFile data) as [file|e] eqn:Hfile; [|discriminate].
      intros Hv. apply validateWebhooks_Ok_inv in Hv as [Hv ->].
      exists data, file. by rewrite Hfile.
    + intros (data & file & -> & -> & Hv & ->). by apply validateWebhooks_Ok.
  - by intros err ->.
  - by intros data err -> ->.
Qed.



End Parsing.

(** ** The loader *)
Section LoaderEffects.
Context `{Runtime}.

Lemma loadDefinitions_trace (webhookDefs : list WebhookDefinition) :
  forall middlewares registry world,
    trace (loadDefinitions webhookDefs middlewares registry world).2
    = trace world ++ List.map loadLine webhookDefs
    /\ requests (loadDefinitions webhookDefs middlewares registry world).2 = requests world.
Proof.
  induction webhookDefs as [|def rest IH]; intros middlewares registry world.
  - simpl. by rewrite app_nil_r.
  - cbn [loadDefinitions List.map]. unfold loadLine at 1.
    destruct (NewWebhookFromDefinition def) as [w|e]; unfold bind, logf, emit;
      match goal with |- context [loadDefinitions rest ?m ?r ?w1] =>
        destruct (IH m r w1) as [-> ->] end;
      cbn [trace requests]; by rewrite <- app_assoc.
Qed.

Lemma filter_length_Permutation {A} (f : A -> bool) (l1 l2 : list A) :
  l1 ≡ₚ l2 -> length (List.filter f l1) = length (List.filter f l2).
Proof.
  induction 1 as [|x l1 l2 _ IH|x y l|l1 l2 l3 _ IH1 _ IH2]; cbn [List.filter].
  - done.
  - destruct (f x); cbn [length]; by rewrite IH.
  - by destruct (f x), (f y).
  - by rewrite IH1.
Qed.

Lemma omap_middlewareOf_length (defs : list WebhookDefinition) :
  length (omap middlewareOf defs) = length (List.filter canBuild defs).
Proof.
  induction defs as [|def defs IH]; [done|].
  cbn [List.filter]. unfold canBuild at 1.
  change (omap middlewareOf (def :: defs))
    with (match middlewareOf def with
          | Some m => m :: omap middlewareOf defs
          | None => omap middlewareOf defs
          end).
  unfold middlewareOf at 1.
  destruct (NewWebhookFromDefinition def); cbn [is_err negb length]; by rewrite IH.
Qed.


(** X5.  Loading a file with definitions logs one line for each of them, in
    the order in which they are loaded: a notice when the dispatcher of the
    definition is built, an error when it cannot be.  The middlewares are the
    dispatchers built, as many as the file has definitions whose dispatcher
    can be built, whatever the order of the file.  Loading sends no request. *)
Theorem LoadWebhookMiddlewares_log (config : WebhookFileConfig)
    (defs : list WebhookDefinition) (world : World) :
  let path := configPathOf config in
  let result := LoadWebhookMiddlewares config world in
  os_Stat_IsNotExist path = false ->
  parseWebhookConfigFile path = Ok defs ->
  defs <> [] ->
  exists loaded,
    loaded ≡ₚ defs
    /\ trace result.2 = trace world ++ List.map loadLine loaded
    /\ requests result.2 = requests world
    /\ result.1.1 = omap middlewareOf loaded
    /\ length result.1.1 = length (List.filter canBuild defs).
Proof.
  intros path result Hstat Hparse Hne.
  exists (GoSort.Slice lessPriority sort_random defs).
  pose proof (Slice_Permutation lessPriority sort_random defs) as Hperm.
  split; [exact Hperm|].
  subst result. unfold LoadWebhookMiddlewares. fold path. rewrite Hstat, Hparse.
  destruct defs as [|def defs]; [done|]. cbn [length Nat.eqb].
  set (loaded := GoSort.Slice lessPriority sort_random (def :: defs)) in *.
  destruct (loadDefinitions_trace loaded [] NewWebhookRegistry world) as [Htr Hreq].
  split; [exact Htr|]. split; [exact Hreq|].
  rewrite loadDefinitions_result. cbn [fst app].
  split; [done|].
  rewrite omap_middlewareOf_length. by apply filter_length_Permutation.
Qed.

End LoaderEffects.

(** ** Building a dispatcher *)
Section Building.
Context `{Runtime}.

(** X6.  [NewWebhookFromDefinition] fails only on a retry section with a
    backoff that is not empty and that [time.ParseDuration] rejects; its
    error then carries the backoff and the error of the parser.  The
    dispatcher built otherwise has the fields of the definition; it retries
    [retry.count] times and starts from the parsed backoff, and without a
    retry section it does not retry, and without a backoff it starts from one
    second. *)
Theorem NewWebhookFromDefinition_spec (def : WebhookDefinition) :
  (is_err (NewWebhookFromDefinition def) = true
   <-> exists retry, Retry def = Some retry /\ Backoff retry <> ""
                     /\ is_err (time_ParseDuration (Backoff retry)) = true)
  /\ (forall retry err,
        Retry def = Some retry -> Backoff retry <> "" ->
        time_ParseDuration (Backoff retry) = Err err ->
        NewWebhookFromDefinition def = Err (ErrInvalidRetryBackoff (Backoff retry) err))
  /\ (forall w,
        NewWebhookFromDefinition def = Ok w ->
        (name w = Name def /\ webhookType w = Type_ def /\ active w = Active def
         /\ url w = URL def /\ method w = Method def /\ headers w = Headers def
         /\ body w = Body def /\ onlyOnError w = OnlyOnError def)
        /\ retryCount w = match Retry def with Some retry => Count retry | None => 0 end
        /\ (Retry def = None -> retryBackoff w = time_Second)
        /\ (forall retry, Retry def = Some retry -> Backoff retry = "" ->
                          retryBackoff w = time_Second)
        /\ (forall retry, Retry def = Some retry -> Backoff retry <> "" ->
                          time_ParseDuration (Backoff retry) = Ok (retryBackoff w))).
Proof.
  unfold NewWebhookFromDefinition. split; [|split].
  - destruct (Retry def) as [retry|]; cbn.
    + destruct (String.eqb_spec (Backoff retry) "") as [Hb|Hb]; cbn.
      * split; [discriminate|]. intros (r & [= <-] & Hne & _). done.
      * destruct (time_ParseDuration (Backoff retry)) as [d|e] eqn:Hd; cbn.
        -- split; [discriminate|]. intros (r & [= <-] & _ & Hr). by rewrite Hd in Hr.
        -- split; [|done]. intros _. exists retry. by rewrite Hd.
    + split; [discriminate|]. by intros (r & ? & _).
  - intros retry err -> Hb ->. apply String.eqb_neq in Hb. by rewrite Hb.
  - intros w. destruct (Retry def) as [retry|].
    + destruct (String.eqb_spec (Backoff retry) "") as [Hb|Hb].
      * intros [= <-]. cbn. split; [done|]. split; [done|]. split; [done|].
        split; [done|]. by intros r [= <-].
      * destruct (time_ParseDuration (Backoff retry)) as [d|e] eqn:Hd; [|discriminate].
        intros [= <-]. cbn. split; [done|]. split; [done|]. split; [done|].
        split; [by intros r [= <-]|]. by intros r [= <-].
    + intros [= <-]. cbn. split; [done|]. split; [done|]. split; [done|].
      split; [done|]. done.
Qed.



End Building.

(** ** One request *)
Section OneRequest.
Context `{Runtime}.



End OneRequest.

(** ** Retries *)
Section Retries.
Context `{Runtime}.
Variables (w : Webhook) (url : string) (headers : gmap string string) (body : option string).

Local Abbreviation outcome := (attemptOutcome w url headers body).
Local Abbreviation allowed := (deliveryEvent w url headers body).

Lemma sent_app (tr1 tr2 : list Event) : sent (tr1 ++ tr2) = sent tr1 ++ sent tr2.
Proof. apply omap_app. Qed.

Lemma sendRequest_events (world : World) :
  exists evs,
    trace (sendRequest w url headers body world).2 = trace world ++ evs
    /\ Forall allowed evs
    /\ requests (sendRequest w url headers body world).2
       = (requests world + length (sent evs))%nat
    /\ attempts evs = 1%nat
    /\ (length (sent evs) <= 1)%nat.
Proof.
  unfold sendRequest, bind, emit, client_Do, ret. cbn [requests trace].
  destruct (http_NewRequest (method w) url) as [e|]; cbn [fst snd trace requests].
  { exists [Attempt url]. split; [done|]. split; [by repeat constructor|].
    cbn. split; [lia|]. split; [done|lia]. }
  match goal with |- context [(?m ?w1).2] =>
    assert (Hw : (m w1).2 = w1) end.
  { destruct (http_Do (requests world) _) as [e|status answer]; [done|].
    by destruct ((status <? 200) || (300 <=? status)). }
  rewrite Hw. cbn [trace requests].
  eexists [Attempt url; Do _]. rewrite <- app_assoc.
  split; [done|]. split; [by repeat constructor|].
  cbn. split; [lia|]. split; [done|lia].
Qed.

(** The events of the loop of [sendWithRetry], whatever the answers. *)
Lemma sendWithRetry_loop_events (fuel : nat) :
  forall (attempt backoff : Z) (lastErr : option error) (world : World) r world',
    sendWithRetry_loop fuel w url headers body attempt backoff lastErr world = Some (r, world') ->
    exists evs,
      trace world' = trace world ++ evs
      /\ Forall allowed evs
      /\ requests world' = (requests world + length (sent evs))%nat
      /\ (length (sent evs) <= attempts evs)%nat.
Proof.
  induction fuel as [|fuel IH]; intros attempt backoff lastErr world r world'; [discriminate|].
  cbn [sendWithRetry_loop].
  destruct (attempt <=? retryCount w).
  2:{ intros [= <- <-]. exists []. rewrite app_nil_r. split; [done|].
      split; [constructor|]. cbn. split; lia. }
  set (head := if 0 <? attempt then _ else _).
  assert (Hhead : exists evs0,
             trace head.2 = trace world ++ evs0 /\ Forall allowed evs0
             /\ requests head.2 = requests world
             /\ sent evs0 = [] /\ attempts evs0 = 0%nat).
  { subst head. destruct (0 <? attempt); cbn.
    - eexists [_; _]. rewrite <- app_assoc. split; [done|].
      split; [by repeat constructor|]. done.
    - exists []. rewrite app_nil_r. split; [done|]. split; [constructor|done]. }
  destruct head as [backoff1 world1]. cbn [snd] in Hhead.
  destruct Hhead as (evs0 & Htr0 & Hall0 & Hreq0 & Hsent0 & Hatt0).
  destruct (sendRequest_events world1) as (evs1 & Htr1 & Hall1 & Hreq1 & Hatt1 & Hsent1).
  destruct (sendRequest w url headers body world1) as [err world2]. cbn [snd] in *.
  destruct err as [e|].
  - intros Hrec. apply IH in Hrec as (evs2 & Htr2 & Hall2 & Hreq2 & Hle2).
    exists (evs0 ++ evs1 ++ evs2).
    split; [rewrite Htr2, Htr1, Htr0; by rewrite !app_assoc|].
    split; [by repeat apply Forall_app_2|].
    rewrite !sent_app, !attempts_app, !length_app, Hsent0, Hatt0. cbn [length]. lia.
  - intros [= <- <-]. exists (evs0 ++ evs1).
    split; [rewrite Htr1, Htr0; by rewrite !app_assoc|].
    split; [by apply Forall_app_2|].
    rewrite !sent_app, !attempts_app, !length_app, Hsent0, Hatt0. cbn [length]. lia.
Qed.

(** X9.  Whatever the answers of the endpoint, all that [sendWithRetry] does
    is announce retries on the logger of the dispatcher, sleep, and send:
    every request it hands to the client is the same one, with the method of
    the dispatcher and the url, headers and body it was given.  It hands over
    at most one request per attempt. *)
Theorem sendWithRetry_same_request (fuel : nat) (world : World)
    (r : option error) (world' : World) :
  sendWithRetry fuel w url headers body world = Some (r, world') ->
  exists evs,
    trace world' = trace world ++ evs
    /\ Forall allowed evs
    /\ Forall (fun req => req = {| req_method := method w; req_url := url;
                                   req_headers := headers; req_body := body |}) (sent evs)
    /\ requests world' = (requests world + length (sent evs))%nat
    /\ (length (sent evs) <= attempts evs)%nat.
Proof.
  unfold sendWithRetry. intros Hrun.
  apply sendWithRetry_loop_events in Hrun as (evs & Htr & Hall & Hreq & Hle).
  exists evs. split; [exact Htr|]. split; [exact Hall|]. split; [|done].
  clear Htr Hreq Hle. induction Hall as [|e evs He _ IH]; [constructor|].
  destruct e; cbn; try exact IH. constructor; [exact He|exact IH].
Qed.

Lemma first_success (f : nat -> option error) (n : nat) :
  (forall j, (j <= n)%nat -> f j <> None)
  \/ exists k, (k <= n)%nat /\ f k = None /\ forall j, (j < k)%nat -> f j <> None.
Proof.
  induction n as [|n IH].
  - destruct (f 0%nat) as [e|] eqn:E.
    + left. intros j Hj. replace j with 0%nat by lia. by rewrite E.
    + right. exists 0%nat. split; [lia|]. split; [done|]. intros j Hj. lia.
  - destruct IH as [Hall|(k & Hk & Hok & Hfail)].
    + destruct (f (S n)) as [e|] eqn:E.
      * left. intros j Hj. destruct (decide (j = S n)) as [->|]; [by rewrite E|].
        apply Hall. lia.
      * right. exists (S n). split; [lia|]. split; [done|]. intros j Hj. apply Hall. lia.
    + right. exists k. split; [lia|]. done.
Qed.

(** A run of [sendWithRetry]: it stops at the first attempt that succeeds,
    or after the last attempt allowed. *)
Lemma sendWithRetry_run (fuel : nat) (world : World) :
  let n := Z.to_nat (retryCount w) in
  0 <= retryCount w < int64_max ->
  (n + 2 <= fuel)%nat ->
  exists k r world' evs,
    (k <= n)%nat
    /\ sendWithRetry fuel w url headers body world = Some (r, world')
    /\ trace world' = trace world ++ evs
    /\ timeline evs = retrySchedule k (retryBackoff w)
    /\ r = outcome (requests world + k)
    /\ (forall j, (j < k)%nat -> outcome (requests world + j) <> None)
    /\ (r <> None -> k = n).
Proof.
  intros n Hn Hfuel. unfold sendWithRetry.
  destruct (first_success (fun j => outcome (requests world + j)) n)
    as [Hall|(k & Hk & Hok & Hfail)].
  - destruct (loop_all_fail w url headers body n fuel 0 (retryBackoff w) None world)
      as (world' & evs & Hrun & Htr & Htl); try lia; [exact Hall|].
    exists n, (outcome (requests world + n)), world', evs.
    split; [lia|]. split; [exact Hrun|]. split; [exact Htr|]. split; [exact Htl|].
    split; [done|]. split; [|done]. intros j Hj. apply Hall. lia.
  - destruct (loop_first_success w url headers body k fuel 0 (retryBackoff w) None world)
      as (world' & evs & Hrun & Htr & Htl); try lia; [exact Hok|exact Hfail|].
    exists k, None, world', evs.
    split; [lia|]. split; [exact Hrun|]. split; [exact Htr|]. split; [exact Htl|].
    split; [by rewrite Hok|]. split; [exact Hfail|done].
Qed.

(** X10.  With a retry count [N], [0 <= N < 2^63 - 1], [sendWithRetry]
    returns whatever the endpoint answers: it makes at most [N + 1] attempts,
    stops at the first one that succeeds, sleeps once between two attempts,
    and returns what the last attempt made returned; it returns an error
    only when all [N + 1] attempts were made. *)
Theorem sendWithRetry_bounded (fuel : nat) (world : World) :
  let n := Z.to_nat (retryCount w) in
  0 <= retryCount w < int64_max ->
  (n + 2 <= fuel)%nat ->
  exists k r world' evs,
    sendWithRetry fuel w url headers body world = Some (r, world')
    /\ trace world' = trace world ++ evs
    /\ (k <= n)%nat
    /\ attempts evs = S k
    /\ length (sleeps evs) = k
    /\ r = outcome (requests world + k)
    /\ (forall j, (j < k)%nat -> outcome (requests world + j) <> None)
    /\ (r <> None -> k = n).
Proof.
  intros n Hn Hfuel.
  destruct (sendWithRetry_run fuel world Hn Hfuel)
    as (k & r & world' & evs & Hk & Hrun & Htr & Htl & Hr & Hfail & Hlast).
  exists k, r, world', evs.
  split; [exact Hrun|]. split; [exact Htr|]. split; [exact Hk|].
  split; [rewrite attempts_timeline, Htl; apply retrySchedule_attempts|].
  split; [|done].
  rewrite sleeps_timeline, Htl, retrySchedule_sleeps. by rewrite length_map, length_seq.
Qed.

Lemma sum_doubling (b : Z) (k : nat) :
  foldr Z.add 0 (List.map (fun j => b * 2 ^ Z.of_nat j) (seq 0 k)) = b * (2 ^ Z.of_nat k - 1).
Proof.
  induction k as [|k IH]; [cbn; lia|].
  rewrite seq_S, List.map_app, foldr_app. cbn [List.map foldr Nat.add].
  assert (Hshift : forall (l : list Z) a, foldr Z.add a l = foldr Z.add 0 l + a).
  { induction l as [|x l IHl]; intros a; cbn [foldr]; [lia|]. rewrite IHl. lia. }
  rewrite Hshift, IH, Nat2Z.inj_succ, Z.pow_succ_r by lia. lia.
Qed.

(** X11.  With a backoff that is not negative and that, doubled [N] times,
    still fits into 64 bits, a delivery that makes [k + 1] attempts has slept
    [backoff * (2^k - 1)] in all, which is at most [backoff * (2^N - 1)] for
    the retry count [N]. *)
Theorem sendWithRetry_total_sleep (fuel : nat) (world : World) :
  let n := Z.to_nat (retryCount w) in
  0 <= retryCount w < int64_max ->
  (n + 2 <= fuel)%nat ->
  0 <= retryBackoff w ->
  retryBackoff w * 2 ^ retryCount w <= int64_max ->
  exists k r world' evs,
    sendWithRetry fuel w url headers body world = Some (r, world')
    /\ trace world' = trace world ++ evs
    /\ attempts evs = S k
    /\ totalSleep evs = retryBackoff w * (2 ^ Z.of_nat k - 1)
    /\ totalSleep evs <= retryBackoff w * (2 ^ retryCount w - 1).
Proof.
  intros n Hn Hfuel Hb Hmax.
  destruct (sendWithRetry_run fuel world Hn Hfuel)
    as (k & r & world' & evs & Hk & Hrun & Htr & Htl & _).
  exists k, r, world', evs.
  split; [exact Hrun|]. split; [exact Htr|].
  split; [rewrite attempts_timeline, Htl; apply retrySchedule_attempts|].
  assert (Hpow : forall j, (j <= n)%nat -> 2 ^ Z.of_nat j <= 2 ^ retryCount w).
  { intros j Hj. apply Z.pow_le_mono_r; lia. }
  assert (Hexact : forall j, (j <= n)%nat ->
                             backoffAt (retryBackoff w) j = retryBackoff w * 2 ^ Z.of_nat j).
  { intros j Hj. apply backoffAt_exact. intros i Hi.
    unfold in_int64, int64_min. specialize (Hpow i ltac:(lia)).
    assert (0 < 2 ^ Z.of_nat i) by (apply Z.pow_pos_nonneg; lia). nia. }
  assert (Hsum : totalSleep evs = retryBackoff w * (2 ^ Z.of_nat k - 1)).
  { unfold totalSleep. rewrite sleeps_timeline, Htl, retrySchedule_sleeps.
    rewrite <- sum_doubling. f_equal. apply List.map_ext_in.
    intros j Hj. apply in_seq in Hj. apply Hexact. lia. }
  split; [exact Hsum|]. rewrite Hsum. specialize (Hpow k Hk). nia.
Qed.

End Retries.

(** ** The delivery tasks *)
Section Tasks.
Context `{Runtime}.


(** X13.  When url, body and headers render and the retry count [N] is not
    negative, [sendWebhook] ends: after the events of [sendWithRetry] for the
    rendered request it writes one line on the logger of the context, either
    that the webhook was sent, or that it failed after [N + 1] attempts, and
    then [N + 1] attempts were made. *)
Theorem sendWebhook_outcome (fuel : nat) (w : Webhook) (ctx : core_Context)
    (world : World) (rendered : string) (bodyBytes : option string)
    (rheaders : gmap string string) :
  let data := buildTemplateData ctx in
  let n := Z.to_nat (retryCount w) in
  0 <= retryCount w < int64_max ->
  (n + 2 <= fuel)%nat ->
  executeTemplate (url w) data = Ok rendered ->
  renderBody (body w) data = Ok bodyBytes ->
  renderHeaders (headerEntries (headers w)) data ∅ = inl rheaders ->
  exists world' evs final,
    sendWebhook fuel w ctx world = Some (tt, world')
    /\ trace world' = trace world ++ evs ++ [final]
    /\ Forall (deliveryEvent w rendered rheaders bodyBytes) evs
    /\ (1 <= attempts evs <= S n)%nat
    /\ (final = Log CtxLogger Debugf (MsgSentSuccessfully (name w) rendered)
        \/ exists err,
             final = Log CtxLogger Errorf
                         (MsgFailedAfterAttempts (name w) (retryCount w + 1) err)
             /\ Z.of_nat (attempts evs) = retryCount w + 1).
Proof.
  intros data n Hn Hfuel Hurl Hbody Hheaders. subst data. unfold sendWebhook.
  rewrite Hurl, Hbody, Hheaders.
  destruct (sendWithRetry_run w rendered rheaders bodyBytes fuel world Hn Hfuel)
    as (k & r & world1 & evs & Hk & Hrun & Htr & Htl & Hr & _ & Hlast).
  destruct (sendWithRetry_loop_events w rendered rheaders bodyBytes fuel 0 (retryBackoff w)
              None world r world1 Hrun) as (evs' & Htr' & Hall & _).
  assert (evs' = evs) as -> by (rewrite Htr in Htr'; by apply app_inv_head in Htr').
  assert (Hatt : attempts evs = S k).
  { rewrite attempts_timeline, Htl. apply retrySchedule_attempts. }
  rewrite Hrun. destruct r as [err|].
  - eexists _, evs, _. split; [reflexivity|].
    cbn [logf emit snd trace]. rewrite Htr, <- app_assoc.
    split; [reflexivity|]. split; [exact Hall|]. split; [lia|].
    right. exists err.
    rewrite wrap64_id by (unfold in_int64, int64_min, int64_max in *; lia).
    split; [reflexivity|]. rewrite Hatt, (Hlast ltac:(done)). subst n. lia.
  - eexists _, evs, _. split; [reflexivity|].
    cbn [logf emit snd trace]. rewrite Htr, <- app_assoc.
    split; [reflexivity|]. split; [exact Hall|]. split; [lia|]. by left.
Qed.

Lemma wire_app (tr1 tr2 : list Event) : wire (tr1 ++ tr2) = wire tr1 ++ wire tr2.
Proof. apply List.filter_app. Qed.

(** X14.  The per-job task delivers a definition as the global task
    delivers the dispatcher built from it: apart from the lines on the
    logger of the context both leave the same events (the same requests,
    attempts, sleeps and announced retries), and both write one such line.
    A definition whose dispatcher cannot be built is not delivered by the
    per-job task: one error line, no attempt. *)
Theorem PerJobWebhook_sendWebhook_as_global (fuel : nat) (p : PerJobWebhook)
    (ctx : core_Context) (def : WebhookDefinition) (world : World) :
  (forall w,
     NewWebhookFromDefinition def = Ok w ->
     match PerJobWebhook_sendWebhook fuel p ctx def world, sendWebhook fuel w ctx world with
     | Some (_, world1), Some (_, world2) =>
         wire (trace world1) = wire (trace world2)
         /\ requests world1 = requests world2
         /\ length (trace world1) = length (trace world2)
     | None, None => True
     | _, _ => False
     end)
  /\ (forall err,
        NewWebhookFromDefinition def = Err err ->
        PerJobWebhook_sendWebhook fuel p ctx def world
        = Some (tt, {| trace := trace world
                                ++ [Log CtxLogger Errorf (MsgPerJobCreateFailed (Name def) err)];
                       requests := requests world |})).
Proof.
  split.
  - intros w Hw.
    assert (Hfields : url w = URL def /\ body w = Body def /\ headers w = Headers def).
    { revert Hw. unfold NewWebhookFromDefinition.
      destruct (Retry def) as [retry|]; [|by intros [= <-]].
      destruct (String.eqb (Backoff retry) ""); [by intros [= <-]|].
      destruct (time_ParseDuration (Backoff retry)); [by intros [= <-]|discriminate]. }
    destruct Hfields as (Hurl & Hbody & Hheaders).
    unfold PerJobWebhook_sendWebhook, sendWebhook. rewrite Hw, Hurl, Hbody, Hheaders.
    assert (Hline : forall msg1 msg2 level1 level2 (world0 : World),
               let world1 := (logf CtxLogger level1 msg1 world0).2 in
               let world2 := (logf CtxLogger level2 msg2 world0).2 in
               wire (trace world1) = wire (trace world2)
               /\ requests world1 = requests world2
               /\ length (trace world1) = length (trace world2)).
    { intros. subst world1 world2. cbn [logf emit snd trace requests].
      rewrite !wire_app, !length_app. done. }
    destruct (executeTemplate (URL def) (buildTemplateData ctx)) as [rendered|e];
      [|apply Hline].
    destruct (renderBody (Body def) (buildTemplateData ctx)) as [bodyBytes|e];
      [|apply Hline].
    destruct (renderHeaders (headerEntries (Headers def)) (buildTemplateData ctx) ∅)
      as [rheaders|[key e]]; [|apply Hline].
    destruct (sendWithRetry fuel w rendered rheaders bodyBytes world) as [[[e|] world1]|];
      [apply Hline|apply Hline|done].
  - intros err Herr. unfold PerJobWebhook_sendWebhook. by rewrite Herr.
Qed.

End Tasks.

(** ** Rendering the headers *)
Section Headers.
Context `{Runtime}.
Variable data : WebhookTemplateData.

Lemma renderHeaders_inl (entries : list (string * string)) :
  forall acc rendered,
    NoDup entries.*1 ->
    renderHeaders entries data acc = inl rendered ->
    forall key value,
      rendered !! key = Some value
      <-> ((exists template, (key, template) ∈ entries
                             /\ executeTemplate template data = Ok value)
           \/ ((key ∉ entries.*1) /\ acc !! key = Some value)).
Proof.
  induction entries as [|[k t] entries IH]; intros acc rendered Hnd.
  - intros [= <-] key value. split.
    + intros Hk. right. split; [apply not_elem_of_nil|done].
    + intros [(template & Hin & _)|[_ Hk]]; [by apply elem_of_nil in Hin|done].
  - cbn [renderHeaders]. cbn in Hnd. apply NoDup_cons in Hnd as [Hk Hnd].
    destruct (executeTemplate t data) as [r|e] eqn:Hr; [|discriminate].
    intros Hrun key value. rewrite (IH _ _ Hnd Hrun key value).
    rewrite fmap_cons, not_elem_of_cons. cbn [fst].
    assert (Hfst : forall template, (k, template) ∈ entries -> False).
    { intros template Hin. apply Hk. by apply (list_elem_of_fmap_2 fst) in Hin. }
    destruct (decide (key = k)) as [->|Hne].
    + rewrite lookup_insert_eq. split.
      * intros [(template & Hin & _)|[_ [= <-]]]; [by apply Hfst in Hin|].
        left. exists t. split; [by left|done].
      * intros [(template & Hin & Ht)|[[Hno _] _]]; [|done].
        apply elem_of_cons in Hin as [[= <-]|Hin]; [|by apply Hfst in Hin].
        right. split; [done|]. congruence.
    + rewrite lookup_insert_ne by done. split.
      * intros [(template & Hin & Ht)|[Hno Hacc]].
        -- left. exists template. split; [by right|done].
        -- by right.
      * intros [(template & Hin & Ht)|[[_ Hno] Hacc]].
        -- apply elem_of_cons in Hin as [[= ? ?]|Hin]; [done|].
           left. by exists template.
        -- by right.
Qed.

Lemma renderHeaders_inr (entries : list (string * string)) :
  forall acc key err,
    renderHeaders entries data acc = inr (key, err) ->
    exists template, (key, template) ∈ entries /\ executeTemplate template data = Err err.
Proof.
  induction entries as [|[k t] entries IH]; intros acc key err; [discriminate|].
  cbn [renderHeaders]. destruct (executeTemplate t data) as [r|e] eqn:Hr.
  - intros Hrun. destruct (IH _ _ _ Hrun) as (template & Hin & Ht).
    exists template. split; [by right|done].
  - intros [= <- <-]. exists t. split; [by left|done].
Qed.

Lemma renderHeaders_is_inl (entries : list (string * string)) :
  forall acc,
    (exists rendered, renderHeaders entries data acc = inl rendered)
    <-> Forall (fun entry => is_err (executeTemplate entry.2 data) = false) entries.
Proof.
  induction entries as [|[k t] entries IH]; intros acc.
  - split; [constructor|]. intros _. by exists acc.
  - cbn [renderHeaders]. rewrite Forall_cons. cbn [snd].
    destruct (executeTemplate t data) as [r|e]; cbn [is_err].
    + rewrite IH. tauto.
    + split; [by intros [? ?]|by intros [? _]].
Qed.

(** X15.  When the headers render, the rendered map has the keys of the
    header map of the definition, each with its value rendered as a
    template; when they do not, the key reported is one whose value fails
    and the error is the error of that value.  They render exactly when
    every value does.  This holds in whatever order the map is visited. *)
Theorem renderHeaders_spec (templates : gmap string string)
    (entries : list (string * string)) :
  entries ≡ₚ map_to_list templates ->
  (forall rendered,
     renderHeaders entries data ∅ = inl rendered ->
     forall key value,
       rendered !! key = Some value
       <-> exists template, templates !! key = Some template
                            /\ executeTemplate template data = Ok value)
  /\ (forall key err,
        renderHeaders entries data ∅ = inr (key, err) ->
        exists template, templates !! key = Some template
                         /\ executeTemplate template data = Err err)
  /\ ((exists rendered, renderHeaders entries data ∅ = inl rendered)
      <-> forall key template, templates !! key = Some template ->
                               is_err (executeTemplate template data) = false).
Proof.
  intros Hperm.
  assert (Hin : forall key template,
            (key, template) ∈ entries <-> templates !! key = Some template).
  { intros key template. rewrite Hperm. apply elem_of_map_to_list. }
  assert (Hnd : NoDup entries.*1).
  { rewrite Hperm. apply NoDup_fst_map_to_list. }
  split; [|split].
  - intros rendered Hrun key value.
    rewrite (renderHeaders_inl entries ∅ rendered Hnd Hrun key value). split.
    + intros [(template & Hk & Ht)|[_ Hk]]; [|by rewrite lookup_empty in Hk].
      exists template. split; [by apply Hin|done].
    + intros (template & Hk & Ht). left. exists template. split; [by apply Hin|done].
  - intros key err Hrun. destruct (renderHeaders_inr _ _ _ _ Hrun) as (template & Hk & Ht).
    exists template. split; [by apply Hin|done].
  - rewrite renderHeaders_is_inl, Forall_forall. split.
    + intros Hall key template Hk. apply (Hall (key, template)). by apply Hin.
    + intros Hall [key template] Hk. apply (Hall key template). by apply Hin.
Qed.

End Headers.

(** ** The template helpers *)
Section TemplateHelpers.
Context `{Runtime}.

Lemma len_nonneg (s : string) : 0 <= len s.
Proof. unfold len. lia. Qed.

(** X16.  [truncateString] panics exactly for a negative width, whatever
    the string.  For a width from 0 on its result is as long as the shorter
    of the string and the width, so never longer than the width, and
    truncating the result again to the same width changes nothing. *)
Theorem truncateString_total (maxLen : Z) (s : string) :
  (truncateString maxLen s = None <-> maxLen < 0)
  /\ (forall r, truncateString maxLen s = Some r ->
                len r = Z.min (len s) maxLen
                /\ truncateString maxLen r = Some r).
Proof.
  pose proof (len_nonneg s) as Hs.
  assert (Hcases : (maxLen < 0 /\ truncateString maxLen s = None)
                   \/ exists r, truncateString maxLen s = Some r
                                /\ 0 <= maxLen /\ len r = Z.min (len s) maxLen).
  { unfold truncateString.
    destruct (len s <=? maxLen) eqn:E1.
    { right. exists s. split; [done|]. lia. }
    destruct (maxLen <=? 3) eqn:E2.
    - destruct (Z.lt_ge_cases maxLen 0) as [Hneg|Hpos].
      + left. split; [exact Hneg|]. unfold slice_to.
        by destruct (maxLen <? 0) eqn:E3; [|lia].
      + right. destruct (slice_to_Some s maxLen) as [-> Hlen]; [lia|].
        eexists. split; [reflexivity|]. lia.
    - right. destruct (slice_to_Some s (maxLen - 3)) as [-> Hlen]; [lia|].
      eexists. split; [reflexivity|]. split; [lia|].
      unfold len in *. rewrite length_string_app. cbn [String.length]. lia. }
  split.
  - destruct Hcases as [[Hneg ->]|(r & -> & Hpos & _)]; [done|].
    split; [discriminate|lia].
  - intros r Hr. destruct Hcases as [[_ Hnone]|(r' & Hr' & Hpos & Hlen)]; [congruence|].
    assert (r' = r) as -> by congruence.
    split; [exact Hlen|]. unfold truncateString.
    destruct (len r <=? maxLen) eqn:E; [done|lia].
Qed.

Lemma substring_0_app (s t : string) : substring 0 (String.length s) (s +:+ t) = s.
Proof.
  induction s as [|c s IH]; [by destruct t|].
  change (String c (substring 0 (String.length s) (s +:+ t)) = String c s).
  f_equal. exact IH.
Qed.

(** X17.  [jsonEscapeString] never panics.  It returns the encoding that
    [json.Marshal] gives of the string without its first and its last byte,
    which are the quotes around it; an encoding of less than two bytes, and
    the empty one left by an error of the encoder, come back as they are. *)
Theorem jsonEscapeString_spec (s : string) :
  is_Some (jsonEscapeString s)
  /\ (forall first inner last,
        json_Marshal (JString s) = Ok (String first (inner +:+ String last "")) ->
        jsonEscapeString s = Some inner)
  /\ (forall data, json_Marshal (JString s) = Ok data -> len data < 2 ->
                   jsonEscapeString s = Some data)
  /\ (forall err, json_Marshal (JString s) = Err err -> jsonEscapeString s = Some "").
Proof.
  unfold jsonEscapeString.
  assert (Hslice : forall data, 2 <= len data ->
            slice data 1 (len data - 1)
            = Some (substring 1 (Z.to_nat (len data - 2)) data)).
  { intros data Hlen. unfold slice.
    destruct (1 <? 0) eqn:E1; [lia|].
    destruct (len data - 1 <? 1) eqn:E2; [lia|].
    destruct (len data <? len data - 1) eqn:E3; [lia|]. cbn.
    do 2 f_equal. lia. }
  split; [|split; [|split]].
  - destruct (json_Marshal (JString s)) as [data|e].
    + destruct (2 <=? len data) eqn:E; [|done]. rewrite Hslice by lia. done.
    + done.
  - intros first inner last ->.
    set (data := String first (inner +:+ String last "")).
    assert (Hlen : len data = Z.of_nat (String.length inner) + 2).
    { unfold len, data. cbn [String.length]. rewrite length_string_app. cbn. lia. }
    destruct (2 <=? len data) eqn:E; [|lia]. rewrite Hslice by lia.
    rewrite Hlen. replace (Z.to_nat (Z.of_nat (String.length inner) + 2 - 2))
      with (String.length inner) by lia.
    unfold data. cbn [substring]. by rewrite substring_0_app.
  - intros data -> Hlen. by destruct (2 <=? len data) eqn:E; [lia|].
  - by intros err ->.
Qed.

End TemplateHelpers.

(** ** The data given to templates *)
Section TemplateDataFacts.
Variable Time : Type.
Variable Time_Add : Time -> Z -> Time.
Variable Time_Format : Time -> string -> string.
Variable Duration_String : Z -> string.
Variable error_Error : error -> string.
Variable os_Hostname : string.

Local Abbreviation build :=
  (TemplateData.buildTemplateData Time Time_Add Time_Format Duration_String
                                  error_Error os_Hostname).

(** X18.  [statusCode] is 2 for a skipped execution, whether it failed or
    not, 1 for one that failed and was not skipped, and 0 otherwise;
    [statusColorHex] is orange, red and green for the codes 2, 1 and 0. *)
Theorem statusCode_statusColorHex (data : TemplateData.WebhookTemplateData Time) :
  let code := TemplateData.statusCode Time data in
  let color := TemplateData.statusColorHex Time data in
  (code = 2 <-> TemplateData.Skipped Time data = true)
  /\ (code = 1 <-> TemplateData.Skipped Time data = false
                   /\ TemplateData.Failed Time data = true)
  /\ (code = 0 <-> TemplateData.Skipped Time data = false
                   /\ TemplateData.Failed Time data = false)
  /\ (color = "#FFA500" <-> code = 2)
  /\ (color = "#FF0000" <-> code = 1)
  /\ (color = "#00FF00" <-> code = 0).
Proof.
  unfold TemplateData.statusCode, TemplateData.statusColorHex.
  destruct (TemplateData.Skipped Time data), (TemplateData.Failed Time data); cbn;
    repeat split; try discriminate; try done; intros [? ?]; discriminate.
Qed.

(** X19.  In the data that [buildTemplateData] fills, [Success] is set
    exactly when the execution neither failed nor was skipped, which is when
    [statusCode] is 0; [HasError] is set exactly when the execution holds an
    error, and [Error] is then its text and is empty otherwise; the output
    of a stream that is nil is empty. *)
Theorem buildTemplateData_status (ctx : TemplateData.Context Time) :
  let execution := TemplateData.ctx_Execution Time ctx in
  let data := build ctx in
  (TemplateData.Success Time data = true <-> TemplateData.statusCode Time data = 0)
  /\ (TemplateData.Success Time data = true
      <-> TemplateData.exec_Failed Time execution = false
          /\ TemplateData.exec_Skipped Time execution = false)
  /\ (TemplateData.HasError Time data = true
      <-> TemplateData.exec_Error Time execution <> None)
  /\ (forall err, TemplateData.exec_Error Time execution = Some err ->
                  TemplateData.Error Time data = error_Error err)
  /\ (TemplateData.exec_Error Time execution = None -> TemplateData.Error Time data = "")
  /\ (TemplateData.exec_OutputStream Time execution = None
      -> TemplateData.Stdout Time data = "")
  /\ (TemplateData.exec_ErrorStream Time execution = None
      -> TemplateData.Stderr Time data = "").
Proof.
  intros execution data. subst data execution.
  unfold TemplateData.buildTemplateData, TemplateData.statusCode. cbn.
  destruct (TemplateData.exec_Failed Time _), (TemplateData.exec_Skipped Time _); cbn;
    (split; [split; (discriminate || done)|]);
    (split; [split; [try discriminate; done|intros [? ?]; (discriminate || done)]|]);
    (split; [destruct (TemplateData.exec_Error Time _); split; (discriminate || done)|]);
    (split; [by intros err ->|]); (split; [by intros ->|]);
    (split; by intros ->).
Qed.

End TemplateDataFacts.

(** ** The dispatchers on their own account *)
Section DispatchOnly.
Context `{Runtime}.

Lemma fireWebhooks_events (p : PerJobWebhook) (ctx : core_Context)
    (webhooks : list WebhookDefinition) :
  forall world,
    trace (fireWebhooks p ctx webhooks world).2
    = trace world
      ++ List.map (fun def => if Active def then Go (GoPerJobSendWebhook p ctx def)
                              else Log CtxLogger Debugf (MsgSkippedInactive (Name def)))
                  webhooks
    /\ requests (fireWebhooks p ctx webhooks world).2 = requests world.
Proof.
  induction webhooks as [|def rest IH]; intros world.
  - cbn. by rewrite app_nil_r.
  - cbn [fireWebhooks List.map]. unfold bind, logf, emit.
    destruct (Active def); cbn [negb];
      match goal with |- context [fireWebhooks p ctx rest ?w1] =>
        destruct (IH w1) as [-> ->] end;
      cbn [trace requests]; by rewrite <- app_assoc.
Qed.

(** X20.  Neither dispatcher delivers anything itself.  [Run] of the global
    dispatcher leaves one event, the start of the delivery task or a debug
    line on the logger of the context, which for an inactive webhook is the
    line that says so, whatever its type.  [Run] of the per-job dispatcher
    leaves one event for each definition of the set it chose, in the order of
    the set: the start of a task for an active definition, the debug line
    for an inactive one.  Neither hands a request to the client. *)
Theorem Run_only_dispatches (w : Webhook) (p : PerJobWebhook) (ctx : core_Context)
    (world : World) :
  let ctx' := afterJob ctx in
  let chosen := if Execution_Failed ctx' then errorWebhooks p else infoWebhooks p in
  (exists e,
     trace (Run w ctx world).2 = trace world ++ [e]
     /\ isDispatch e = true
     /\ (active w = false -> e = Log CtxLogger Debugf (MsgSkippedInactive (name w))))
  /\ requests (Run w ctx world).2 = requests world
  /\ trace (PerJobWebhook_Run p ctx world).2
     = trace world
       ++ List.map (fun def => if Active def then Go (GoPerJobSendWebhook p ctx' def)
                               else Log CtxLogger Debugf (MsgSkippedInactive (Name def)))
                   chosen
  /\ requests (PerJobWebhook_Run p ctx world).2 = requests world.
Proof.
  intros ctx' chosen. subst ctx' chosen. unfold afterJob.
  split; [|split].
  - unfold Run. destruct (ctx_Next ctx) as [err ctx1]. cbn [fst snd].
    destruct (active w); cbn [negb].
    2:{ eexists. split; [reflexivity|]. split; reflexivity. }
    repeat match goal with |- context [if ?b then _ else _] => destruct b end;
      (eexists; split; [reflexivity|]; split; [reflexivity|discriminate]).
  - unfold Run. destruct (ctx_Next ctx) as [err ctx1]. cbn [fst snd].
    repeat match goal with |- context [if ?b then _ else _] => destruct b end;
      reflexivity.
  - unfold PerJobWebhook_Run. destruct (ctx_Next ctx) as [err ctx1]. cbn [fst snd].
    unfold bind.
    match goal with |- context [fireWebhooks p ?c ?l world] =>
      destruct (fireWebhooks_events p c l world) as [Htr Hreq];
      destruct (fireWebhooks p c l world) as [[] world1] end.
    cbn [snd ret] in *. split; [exact Htr|exact Hreq].
Qed.

(** X21.  What the global dispatcher does for each type.  A webhook of
    type [error] is sent when it is active and the job failed, whatever
    [onlyOnError] is.  A webhook of type [info] is sent when it is active,
    the job did not fail and [onlyOnError] is not set: with [onlyOnError] it
    is never sent.  A webhook of type [all] is sent when it is active and
    the job failed or [onlyOnError] is not set.  A webhook of another type is
    never sent. *)
Theorem Run_by_type (w : Webhook) (ctx : core_Context) (world : World) :
  let failed := Execution_Failed (afterJob ctx) in
  exists evs,
    trace (Run w ctx world).2 = trace world ++ evs
    /\ (webhookType w = WebhookTypeError ->
        (spawned evs <> [] <-> active w = true /\ failed = true))
    /\ (webhookType w = WebhookTypeInfo ->
        (spawned evs <> [] <-> active w = true /\ failed = false /\ onlyOnError w = false))
    /\ (webhookType w = WebhookTypeAll ->
        (spawned evs <> [] <-> active w = true /\ (failed = true \/ onlyOnError w = false)))
    /\ (webhookType w <> WebhookTypeError -> webhookType w <> WebhookTypeInfo ->
        webhookType w <> WebhookTypeAll -> spawned evs = []).
Proof.
  unfold afterJob, Run.
  destruct (ctx_Next ctx) as [err ctx1]; cbn [fst snd].
  unfold WebhookTypeAll, WebhookTypeError, WebhookTypeInfo.
  destruct (active w) eqn:Ha; cbn [negb].
  2:{ eexists; split; [reflexivity|]. cbn. intuition congruence. }
  destruct (String.eqb_spec (webhookType w) "all") as [Eall|Eall];
  destruct (String.eqb_spec (webhookType w) "error") as [Eerr|Eerr];
  destruct (String.eqb_spec (webhookType w) "info") as [Einf|Einf];
  destruct (Execution_Failed (ctx_Stop err ctx1)) eqn:Hf;
  destruct (onlyOnError w) eqn:Ho; cbn;
  (eexists; split; [reflexivity|]); cbn;
  try rewrite Eall in *; try rewrite Eerr in *; try rewrite Einf in *;
  intuition congruence.
Qed.

End DispatchOnly.

(** ** Names of webhooks *)
Section Names.
Context `{Runtime}.

(** X22.  [parseWebhookNames] gives no name for the empty string.  A string
    that decodes as a JSON array of strings gives the items of the array as
    they are.  Any other string is split at the commas: the names are the
    parts with the space around them trimmed, in their order, and a part
    that is empty once trimmed gives no name. *)
Theorem parseWebhookNames_spec (namesStr : string) :
  (namesStr = "" -> parseWebhookNames namesStr = [])
  /\ (forall names, namesStr <> "" -> json_Unmarshal_strings namesStr = Ok names ->
                    parseWebhookNames namesStr = names)
  /\ (forall err, namesStr <> "" -> json_Unmarshal_strings namesStr = Err err ->
        let parts := strings_Split namesStr "," in
        Forall (fun name => name <> "") (parseWebhookNames namesStr)
        /\ (forall name, name ∈ parseWebhookNames namesStr
                         <-> name <> "" /\ exists part, part ∈ parts
                                                        /\ name = strings_TrimSpace part)
        /\ parseWebhookNames namesStr `sublist_of` List.map strings_TrimSpace parts
        /\ (Forall (fun part => strings_TrimSpace part <> "") parts ->
            parseWebhookNames namesStr = List.map strings_TrimSpace parts)).
Proof.
  unfold parseWebhookNames. split; [by intros ->|]. split.
  - intros names Hne ->. apply String.eqb_neq in Hne. by rewrite Hne.
  - intros err Hne ->. apply String.eqb_neq in Hne. rewrite Hne.
    set (trimmed := List.map strings_TrimSpace (strings_Split namesStr ",")).
    assert (Hfilter : forall name,
              In name (List.filter (fun t => negb (String.eqb t "")) trimmed)
              <-> In name trimmed /\ name <> "").
    { intros name. rewrite List.filter_In, negb_true_iff, String.eqb_neq. tauto. }
    split; [|split; [|split]].
    + apply Forall_forall. intros name Hin. apply list_elem_of_In, Hfilter in Hin. tauto.
    + intros name. rewrite list_elem_of_In, Hfilter. unfold trimmed.
      rewrite List.in_map_iff. split.
      * intros [(part & <- & Hpart) Hn]. split; [done|].
        exists part. split; [by apply list_elem_of_In|done].
      * intros [Hn (part & Hpart & ->)]. split; [|done].
        exists part. split; [done|by apply list_elem_of_In].
    + clear Hfilter. induction trimmed as [|t l IH]; [constructor|].
      cbn [List.filter]. destruct (negb (String.eqb t "")); by constructor.
    + intros Hall. unfold trimmed. clear Hfilter trimmed.
      induction Hall as [|part parts Hpart _ IH]; [done|].
      cbn [List.map List.filter]. apply String.eqb_neq in Hpart. rewrite Hpart.
      cbn [negb]. by rewrite IH.
Qed.

Lemma omap_Get_Forall2 (registry : WebhookRegistry) (R : string -> WebhookDefinition -> Prop)
    (names : list string) :
  (forall name, name ∈ names -> exists def, Get registry name = Some def /\ R name def) ->
  Forall2 R names (omap (Get registry) names).
Proof.
  induction names as [|name names IH]; intros Hall; [constructor|].
  destruct (Hall name ltac:(by left)) as (def & Hget & HR).
  change (omap (Get registry) (name :: names))
    with (match Get registry name with
          | Some d => d :: omap (Get registry) names
          | None => omap (Get registry) names
          end).
  rewrite Hget. constructor; [exact HR|].
  apply IH. intros n Hn. apply Hall. by right.
Qed.

(** X23.  A job can name every webhook of a loaded file.  After the load of
    a file whose entries are valid and have different names, building the
    per-job dispatcher succeeds when each name of [webhook-error-names] is
    the name of a definition of the file of type [error] or [all], and each
    name of [webhook-info-names] that of a definition of type [info] or
    [all]; the dispatcher then holds, for each name in turn, the definition
    of that name with its defaults set. *)
Theorem loaded_names_resolve (config : WebhookFileConfig) (data : string)
    (file : WebhooksFile) (world : World) (c : WebhookConfig) (world2 : World) :
  let path := configPathOf config in
  let registry := (LoadWebhookMiddlewares config world).1.2 in
  let errorNames := parseWebhookNames (WebhookErrorNames c) in
  let infoNames := parseWebhookNames (WebhookInfoNames c) in
  let names := fun name def' =>
    exists def, def ∈ Webhooks file /\ Name def = name /\ def' = setDefaults def in
  os_Stat_IsNotExist path = false ->
  os_ReadFile path = Ok data ->
  json_Unmarshal_WebhooksFile data = Ok file ->
  Forall (fun def => validEntry def = true) (Webhooks file) ->
  NoDup (List.map Name (Webhooks file)) ->
  (forall name, name ∈ errorNames ->
     exists def, def ∈ Webhooks file /\ Name def = name
                 /\ (Type_ def = WebhookTypeError \/ Type_ def = WebhookTypeAll)) ->
  (forall name, name ∈ infoNames ->
     exists def, def ∈ Webhooks file /\ Name def = name
                 /\ (Type_ def = WebhookTypeInfo \/ Type_ def = WebhookTypeAll)) ->
  errorNames ++ infoNames <> [] ->
  exists errorDefs infoDefs world',
    NewWebhookFromConfig c registry world2
    = (Ok (Some {| errorWebhooks := errorDefs; infoWebhooks := infoDefs |}), world')
    /\ Forall2 names errorNames errorDefs
    /\ Forall2 names infoNames infoDefs.
Proof.
  intros path registry errorNames infoNames names Hstat Hread Hjson Hvalid Hnd Herr Hinfo Hne.
  assert (Hok : parseWebhookConfigFile path = Ok (List.map setDefaults (Webhooks file))).
  { unfold parseWebhookConfigFile. rewrite Hread, Hjson. by apply validateWebhooks_Ok. }
  set (defs := List.map setDefaults (Webhooks file)) in *.
  assert (Hreg : exists ordered, ordered ≡ₚ defs
                                 /\ registry = foldl Register NewWebhookRegistry ordered).
  { subst registry. unfold LoadWebhookMiddlewares. fold path. rewrite Hstat, Hok.
    destruct defs as [|d defs'] eqn:Hdefs; [by exists []|]. cbn [length Nat.eqb].
    exists (GoSort.Slice lessPriority sort_random (d :: defs')).
    split; [apply Slice_Permutation|]. by rewrite loadDefinitions_result. }
  destruct Hreg as (ordered & Hperm & Hregistry).
  assert (Hget : forall def, def ∈ Webhooks file ->
                             Get registry (Name def) = Some (setDefaults def)).
  { intros def Hdef. rewrite Hregistry.
    destruct (Get_foldl_Register ordered NewWebhookRegistry (setDefaults def))
      as (d' & Hd' & Hn & Hg).
    { rewrite Hperm. subst defs. by apply (list_elem_of_fmap_2 setDefaults). }
    rewrite setDefaults_Name in Hg. rewrite Hg.
    rewrite Hperm in Hd'. subst defs. apply list_elem_of_fmap in Hd' as (def' & -> & Hdef').
    rewrite !setDefaults_Name in Hn. by rewrite (same_name_NoDup _ def' def Hnd Hdef' Hdef Hn). }
  assert (Hoke : Forall (fun name => errorNameOk registry name = true) errorNames).
  { apply Forall_forall. intros name Hin. destruct (Herr name Hin) as (def & Hdef & <- & Ht).
    unfold errorNameOk. rewrite (Hget def Hdef). cbn.
    destruct Ht as [-> | ->]; [done|]. by rewrite orb_true_r. }
  assert (Hoki : Forall (fun name => infoNameOk registry name = true) infoNames).
  { apply Forall_forall. intros name Hin. destruct (Hinfo name Hin) as (def & Hdef & <- & Ht).
    unfold infoNameOk. rewrite (Hget def Hdef). cbn.
    destruct Ht as [-> | ->]; [done|]. by rewrite orb_true_r. }
  destruct (collectErrorWebhooks_Ok registry errorNames [] world2 Hoke)
    as (w1 & Hce & _ & _ & _).
  destruct (collectInfoWebhooks_Ok registry infoNames [] w1 Hoki)
    as (w2 & Hci & _ & _ & _).
  exists (omap (Get registry) errorNames), (omap (Get registry) infoNames), w2.
  split; [|split].
  - unfold NewWebhookFromConfig, IsEmpty. fold errorNames infoNames.
    assert (String.eqb (WebhookErrorNames c) "" && String.eqb (WebhookInfoNames c) "" = false)
      as ->.
    { destruct (String.eqb_spec (WebhookErrorNames c) "") as [He|]; [|done].
      destruct (String.eqb_spec (WebhookInfoNames c) "") as [Hi|]; [|done].
      exfalso. apply Hne. subst errorNames infoNames. rewrite He, Hi.
      by rewrite parseWebhookNames_empty. }
    assert ((length errorNames =? 0)%nat && (length infoNames =? 0)%nat = false) as ->.
    { destruct errorNames; [|done]. destruct infoNames; [|done]. done. }
    unfold bind. rewrite Hce. cbn [app]. by rewrite Hci.
  - apply omap_Get_Forall2. intros name Hin. destruct (Herr name Hin) as (def & Hdef & <- & _).
    exists (setDefaults def). split; [by apply Hget|]. by exists def.
  - apply omap_Get_Forall2. intros name Hin. destruct (Hinfo name Hin) as (def & Hdef & <- & _).
    exists (setDefaults def). split; [by apply Hget|]. by exists def.
Qed.

End Names.

(** ** The closed worlds at work, again *)


Lemma LoadWebhookMiddlewares_log_witness :
  let rt := Example.runtime (Example.file [Example.definition "first" "all" 1;
                                           Example.badBackoff])
                            Example.alwaysFails in
  let defs := List.map setDefaults [Example.definition "first" "all" 1; Example.badBackoff] in
  let result := LoadWebhookMiddlewares Example.config start in
  exists loaded,
    loaded ≡ₚ defs
    /\ trace result.2 = trace start ++ List.map loadLine loaded
    /\ requests result.2 = 0%nat
    /\ length result.1.1 = 1%nat.
Proof.
  intros rt defs result.
  destruct (@LoadWebhookMiddlewares_log rt Example.config defs start)
    as (loaded & Hperm & Htr & Hreq & _ & Hlen).
  - reflexivity.
  - reflexivity.
  - discriminate.
  - exists loaded. split; [exact Hperm|]. split; [exact Htr|]. split; [exact Hreq|].
    etrans; [exact Hlen|]. reflexivity.
Defined.


Lemma sendWithRetry_same_request_witness :
  let rt := Example.runtime Example.noFile Example.alwaysFails in
  let w := Example.webhook 1 1000 in
  exists r world' evs,
    sendWithRetry 3 w "http://localhost/hook" ∅ None start = Some (r, world')
    /\ trace world' = trace start ++ evs
    /\ Forall (fun req => req = {| req_method := "POST"; req_url := "http://localhost/hook";
                                   req_headers := ∅; req_body := None |}) (sent evs)
    /\ requests world' = length (sent evs).
Proof.
  intros rt w.
  destruct (sendWithRetry 3 w "http://localhost/hook" ∅ None start) as [[r world']|] eqn:Hrun;
    [|vm_compute in Hrun; discriminate].
  destruct (@sendWithRetry_same_request rt w "http://localhost/hook" ∅ None 3 start r world' Hrun)
    as (evs & Htr & _ & Hsame & Hreq & _).
  exists r, world', evs. split; [reflexivity|]. split; [exact Htr|].
  split; [exact Hsame|exact Hreq].
Defined.

Lemma sendWithRetry_bounded_witness :
  let rt := Example.runtime Example.noFile Example.alwaysFails in
  let w := Example.webhook 3 1000 in
  exists k r world' evs,
    sendWithRetry 5 w "http://localhost/hook" ∅ None start = Some (r, world')
    /\ (k <= 3)%nat
    /\ attempts evs = S k
    /\ length (sleeps evs) = k.
Proof.
  intros rt w.
  destruct (@sendWithRetry_bounded rt w "http://localhost/hook" ∅ None 5 start)
    as (k & r & world' & evs & Hrun & _ & Hk & Hatt & Hsl & _).
  - vm_compute. split; [discriminate|reflexivity].
  - vm_compute. lia.
  - exists k, r, world', evs. split; [exact Hrun|]. split; [exact Hk|].
    split; [exact Hatt|exact Hsl].
Defined.

Lemma sendWithRetry_total_sleep_witness :
  let rt := Example.runtime Example.noFile Example.alwaysFails in
  let w := Example.webhook 3 1000 in
  exists k r world' evs,
    sendWithRetry 5 w "http://localhost/hook" ∅ None start = Some (r, world')
    /\ attempts evs = S k
    /\ totalSleep evs = 1000 * (2 ^ Z.of_nat k - 1)
    /\ totalSleep evs <= 7000.
Proof.
  intros rt w.
  destruct (@sendWithRetry_total_sleep rt w "http://localhost/hook" ∅ None 5 start)
    as (k & r & world' & evs & Hrun & _ & Hatt & Hsum & Hmax).
  - vm_compute. split; [discriminate|reflexivity].
  - vm_compute. lia.
  - vm_compute. discriminate.
  - vm_compute. discriminate.
  - exists k, r, world', evs. split; [exact Hrun|]. split; [exact Hatt|].
    split; [exact Hsum|exact Hmax].
Defined.


Lemma sendWebhook_outcome_witness :
  let rt := Example.runtime Example.noFile Example.alwaysFails in
  let w := Example.webhook 1 1000 in
  let ctx := {| Example.jobError := None; Example.failed := false |} in
  exists world' evs final,
    sendWebhook 3 w ctx start = Some (tt, world')
    /\ trace world' = trace start ++ evs ++ [final]
    /\ (1 <= attempts evs <= 2)%nat.
Proof.
  intros rt w ctx.
  destruct (@sendWebhook_outcome rt 3 w ctx start "http://localhost/hook" (Some "done") ∅)
    as (world' & evs & final & Hrun & Htr & _ & Hatt & _).
  - vm_compute. split; [discriminate|reflexivity].
  - vm_compute. lia.
  - reflexivity.
  - reflexivity.
  - reflexivity.
  - exists world', evs, final. split; [exact Hrun|]. split; [exact Htr|exact Hatt].
Defined.

Lemma renderHeaders_spec_witness :
  let rt := Example.runtime Example.noFile Example.alwaysFails in
  let templates : gmap string string := {[ "X-Job" := "nightly" ]} in
  exists rendered,
    renderHeaders [("X-Job", "nightly")] tt ∅ = inl rendered
    /\ rendered !! "X-Job" = Some "nightly".
Proof.
  intros rt templates.
  destruct (@renderHeaders_spec rt tt templates [("X-Job", "nightly")]) as (Hok & _ & _).
  - unfold templates. by rewrite map_to_list_singleton.
  - exists (<["X-Job" := "nightly"]> ∅). split; [reflexivity|].
    apply (Hok _ eq_refl). exists "nightly". split; [|reflexivity].
    apply lookup_singleton_eq.
Defined.

Lemma jsonEscapeString_spec_witness :
  let rt := Scenario.runtime in
  jsonEscapeString "nightly" = Some "nightly".
Proof.
  intros rt.
  destruct (@jsonEscapeString_spec rt "nightly") as (_ & Hstrip & _).
  apply (Hstrip Scenario.quote "nightly" Scenario.quote). reflexivity.
Defined.

Lemma loaded_names_resolve_witness :
  let rt := Example.runtime (Example.file [Example.definition "pager" "error" 0])
                            Example.alwaysFails in
  let registry := (LoadWebhookMiddlewares Example.config start).1.2 in
  exists errorDefs infoDefs world',
    NewWebhookFromConfig Example.jobConfig registry start
    = (Ok (Some {| errorWebhooks := errorDefs; infoWebhooks := infoDefs |}), world')
    /\ Forall2 (fun name def' => Name def' = name) ["pager"] errorDefs.
Proof.
  intros rt registry.
  destruct (@loaded_names_resolve rt Example.config ""
              {| Webhooks := [Example.definition "pager" "error" 0] |} start
              Example.jobConfig start)
    as (errorDefs & infoDefs & world' & Hrun & Herr & _).
  - reflexivity.
  - reflexivity.
  - reflexivity.
  - repeat constructor.
  - cbn. apply NoDup_singleton.
  - intros name Hin. apply list_elem_of_singleton in Hin as ->.
    exists (Example.definition "pager" "error" 0).
    split; [apply list_elem_of_here|]. split; [reflexivity|]. by left.
  - intros name Hin. by apply elem_of_nil in Hin.
  - discriminate.
  - exists errorDefs, infoDefs, world'. split; [exact Hrun|].
    eapply Forall2_impl; [exact Herr|].
    intros name def' (def & _ & <- & ->). reflexivity.
Defined.
